(** * Code History Tracker: the record parser, the renderer and the
      history queries of [extension.js], embedded in Rocq.

    JavaScript strings are sequences of UTF-16 code units; they are
    modelled as lists of code units ([N]).  The external tool
    ([execSync]) and Node's [path] functions are parameters of the
    model. *)

From Stdlib Require Import List NArith Arith Bool Lia String Ascii.
From Stdlib Require Import DecimalString.
Import ListNotations.

(* ================================================================== *)
(** ** JavaScript strings                                              *)
(* ================================================================== *)

Module Js.

(** A UTF-16 code unit. *)
Definition char := N.
Definition str := list char.

Definition ceq (a b : char) : bool := N.eqb a b.

(** Source literals are written as Rocq strings, which are UTF-8 byte
    sequences; [utf16_of_utf8] turns the bytes into the code units the
    JavaScript engine sees (a surrogate pair above U+FFFF). *)
Fixpoint bytes_of_string (s : string) : list N :=
  match s with
  | EmptyString => []
  | String a s' => N_of_ascii a :: bytes_of_string s'
  end.

Definition units_of_code_point (cp : N) : list char :=
  if (cp <? 65536)%N then [cp]
  else let v := (cp - 65536)%N in
       [(55296 + v / 1024)%N; (56320 + v mod 1024)%N].

Fixpoint utf16_of_utf8 (bs : list N) : list char :=
  match bs with
  | [] => []
  | b0 :: r0 =>
    if (b0 <? 128)%N then b0 :: utf16_of_utf8 r0
    else if (b0 <? 224)%N then
      match r0 with
      | b1 :: r1 =>
        units_of_code_point ((b0 mod 32) * 64 + b1 mod 64)%N ++ utf16_of_utf8 r1
      | [] => [65533%N]
      end
    else if (b0 <? 240)%N then
      match r0 with
      | b1 :: b2 :: r2 =>
        units_of_code_point ((b0 mod 16) * 4096 + (b1 mod 64) * 64 + b2 mod 64)%N
          ++ utf16_of_utf8 r2
      | _ => [65533%N]
      end
    else
      match r0 with
      | b1 :: b2 :: b3 :: r3 =>
        units_of_code_point
          ((b0 mod 8) * 262144 + (b1 mod 64) * 4096 + (b2 mod 64) * 64 + b3 mod 64)%N
          ++ utf16_of_utf8 r3
      | _ => [65533%N]
      end
  end.

(** A string literal of the source. *)
Definition lit (s : string) : str := utf16_of_utf8 (bytes_of_string s).

(** A character literal. *)
Definition ch (s : string) : char := hd 0%N (lit s).

(** A literal of the source that contains double quotes: the Rocq text
    writes a backtick (U+0060) where the source has a double quote
    (U+0022).  No literal of the modelled functions contains a
    backtick. *)
Definition tpl (s : string) : str :=
  map (fun c => if ceq c 96%N then 34%N else c) (lit s).

(** [String.prototype.startsWith]. *)
Fixpoint startsWith (s p : str) {struct p} : bool :=
  match p, s with
  | [], _ => true
  | x :: p', y :: s' => ceq x y && startsWith s' p'
  | _ :: _, [] => false
  end.

(** White space and line terminators, as [trim] and the class [\s]
    understand them. *)
Definition isSpace (c : char) : bool :=
  existsb (ceq c)
    [9; 10; 11; 12; 13; 32; 160; 5760; 8232; 8233; 8239; 8287; 12288; 65279]%N
  || ((8192 <=? c) && (c <=? 8202))%N.

Fixpoint trimStart (s : str) : str :=
  match s with
  | [] => []
  | c :: s' => if isSpace c then trimStart s' else s
  end.

Definition trimEnd (s : str) : str := rev (trimStart (rev s)).

(** [String.prototype.trim]. *)
Definition trim (s : str) : str := trimEnd (trimStart s).

(** Truthiness of a string: the empty string is the only falsy one. *)
Definition truthy (s : str) : bool :=
  match s with [] => false | _ :: _ => true end.

(** [String.prototype.split] with a non-empty string separator: the
    text is cut at every occurrence of [sep], scanning left to right;
    [skip] counts the code units of a separator still to be passed
    over and [cur] holds the current fragment, reversed. *)
Fixpoint split_go (sep : str) (skip : nat) (cur : str) (s : str) : list str :=
  match s with
  | [] => [rev cur]
  | c :: s' =>
    match skip with
    | S k => split_go sep k cur s'
    | O =>
      if startsWith s sep
      then rev cur :: split_go sep (List.length sep - 1) [] s'
      else split_go sep 0 (c :: cur) s'
    end
  end.

Definition split (s sep : str) : list str := split_go sep 0 [] s.

(** [Array.prototype.join]. *)
Fixpoint join (sep : str) (l : list str) : str :=
  match l with
  | [] => []
  | [x] => x
  | x :: l' => x ++ sep ++ join sep l'
  end.

(** [String.prototype.replace] with a string pattern: the first
    occurrence of [pat], if any, is replaced by [by_]. *)
Fixpoint replace (s pat by_ : str) : str :=
  if startsWith s pat then by_ ++ skipn (List.length pat) s
  else match s with
       | [] => []
       | c :: s' => c :: replace s' pat by_
       end.

(** [String.prototype.substring (0, n)]. *)
Definition substring0 (s : str) (n : nat) : str := firstn n s.

(** Decimal rendering of a non-negative integer, as template
    interpolation of a number does. *)
Definition ofNat (n : nat) : str :=
  lit (NilZero.string_of_uint (Nat.to_uint n)).

End Js.

Import Js.

(* ================================================================== *)
(** ** Regular expressions                                             *)
(* ================================================================== *)

(** The fragment of JavaScript regular expressions that the source
    uses: literal characters, character classes under the greedy
    quantifiers [*] and [+], the greedy optional group, alternation,
    one capture group and the anchor [^] (no flags).  Matching is by
    backtracking, leftmost start first, as [RegExp.prototype.exec]. *)
Module Regex.

Inductive regex : Type :=
| Chr (c : char)
| Set_ (cls : char -> bool)
| Rep (min : nat) (cls : char -> bool)
| Seq (r1 r2 : regex)
| Alt (r1 r2 : regex)
| Opt (r : regex)
| Cap (r : regex)
| Bol.

(** The class [\w]. *)
Definition isWord (c : char) : bool :=
  ((65 <=? c) && (c <=? 90) || (97 <=? c) && (c <=? 122)
   || (48 <=? c) && (c <=? 57) || (c =? 95))%N.

(** A literal word of the pattern. *)
Fixpoint word (s : str) (r : regex) : regex :=
  match s with
  | [] => r
  | c :: s' => Seq (Chr c) (word s' r)
  end.

(** The number of leading code units of [s] in the class. *)
Fixpoint run_length (cls : char -> bool) (s : str) : nat :=
  match s with
  | c :: s' => if cls c then S (run_length cls s') else 0
  | [] => 0
  end.

(** The value of capture group 1: [None] is [undefined]. *)
Definition capture := option str.

Section Matcher.

(** A continuation receives the position in the input, the rest of
    the input and the capture, and answers with the final capture
    when the rest of the pattern matches. *)
Definition cont := nat -> str -> capture -> option capture.

(** Greedy repetition: the longest run first, then shorter ones,
    down to [min] repetitions. *)
Fixpoint rep_try (min j pos : nat) (s : str) (cap : capture) (k : cont)
  : option capture :=
  match k (pos + j) (skipn j s) cap with
  | Some r => Some r
  | None =>
    match j with
    | O => None
    | S j' => if min <=? j' then rep_try min j' pos s cap k else None
    end
  end.

Fixpoint m (r : regex) (pos : nat) (s : str) (cap : capture) (k : cont)
  : option capture :=
  match r with
  | Chr c =>
    match s with
    | x :: s' => if ceq x c then k (S pos) s' cap else None
    | [] => None
    end
  | Set_ cls =>
    match s with
    | x :: s' => if cls x then k (S pos) s' cap else None
    | [] => None
    end
  | Rep min cls =>
    let n := run_length cls s in
    if min <=? n then rep_try min n pos s cap k else None
  | Seq r1 r2 => m r1 pos s cap (fun pos' s' cap' => m r2 pos' s' cap' k)
  | Alt r1 r2 =>
    match m r1 pos s cap k with
    | Some c => Some c
    | None => m r2 pos s cap k
    end
  | Opt r1 =>
    match m r1 pos s cap k with
    | Some c => Some c
    | None => k pos s cap
    end
  | Cap r1 =>
    m r1 pos s cap (fun pos' s' _ => k pos' s' (Some (firstn (pos' - pos) s)))
  | Bol => if pos =? 0 then k pos s cap else None
  end.

(** The first start position, from [pos] on, at which [r] matches. *)
Fixpoint exec_from (r : regex) (pos : nat) (s : str) : option capture :=
  match m r pos s None (fun _ _ cap => Some cap) with
  | Some c => Some c
  | None =>
    match s with
    | [] => None
    | _ :: s' => exec_from r (S pos) s'
    end
  end.

End Matcher.

(** [text.match (r)]: [None] is [null]; otherwise the value of
    [match[1]]. *)
Definition match_ (text : str) (r : regex) : option capture :=
  exec_from r 0 text.

End Regex.

Import Regex.

Declare Scope regex_scope.
Delimit Scope regex_scope with re.
Notation "r1 ;; r2" := (Seq r1 r2) (at level 61, right associativity) : regex_scope.

(* ================================================================== *)
(** ** The record parser                                               *)
(* ================================================================== *)

Module Parser.

Record Commit : Type := mkCommit {
  hash : str;
  author : str;
  date : str;
  message : str;
  branch : str;
  diff : str
}.

Definition emptyCommit : Commit := mkCommit [] [] [] [] [] [].

Definition set_hash (v : str) (c : Commit) : Commit :=
  mkCommit v (author c) (date c) (message c) (branch c) (diff c).
Definition set_author (v : str) (c : Commit) : Commit :=
  mkCommit (hash c) v (date c) (message c) (branch c) (diff c).
Definition set_date (v : str) (c : Commit) : Commit :=
  mkCommit (hash c) (author c) v (message c) (branch c) (diff c).
Definition set_message (v : str) (c : Commit) : Commit :=
  mkCommit (hash c) (author c) (date c) v (branch c) (diff c).
Definition set_branch (v : str) (c : Commit) : Commit :=
  mkCommit (hash c) (author c) (date c) (message c) v (diff c).
Definition set_diff (v : str) (c : Commit) : Commit :=
  mkCommit (hash c) (author c) (date c) (message c) (branch c) v.

(** The variables of the loop over the lines of one block. *)
Record Loop : Type := mkLoop {
  commit : Commit;
  inDiff : bool;
  diffLines : list str
}.

Definition initLoop : Loop := mkLoop emptyCommit false [].

Definition onCommit (f : Commit -> Commit) (st : Loop) : Loop :=
  mkLoop (f (commit st)) (inDiff st) (diffLines st).

(** The record marker and the other line prefixes. *)
Definition commitPrefix : str := lit "commit ".
Definition authorPrefix : str := lit "Author: ".
Definition datePrefix : str := lit "Date: ".
Definition branchesPrefix : str := lit "Branches: ".

Definition isDiffMarker (line : str) : bool :=
  startsWith line (lit "diff --git") || startsWith line (lit "---")
  || startsWith line (lit "+++").

(** The pattern [/^\s+\w/]. *)
Definition indentedWord : regex := (Bol ;; Rep 1 isSpace ;; Set_ isWord)%re.

Definition matches (text : str) (r : regex) : bool :=
  match match_ text r with Some _ => true | None => false end.

(** The body of the loop over the lines: one pass of the if/else-if
    chain. *)
Definition parseLine (st : Loop) (line : str) : Loop :=
  if startsWith line commitPrefix then
    onCommit (set_hash (trim (replace line commitPrefix []))) st
  else if startsWith line authorPrefix then
    onCommit (set_author (trim (replace line authorPrefix []))) st
  else if startsWith line datePrefix then
    onCommit (set_date (trim (replace line datePrefix []))) st
  else if startsWith line branchesPrefix then
    onCommit (set_branch (trim (replace line branchesPrefix []))) st
  else if isDiffMarker line then
    mkLoop (commit st) true (diffLines st)
  else if inDiff st then
    mkLoop (commit st) (inDiff st) (diffLines st ++ [line])
  else if truthy (trim line) && negb (startsWith line (lit " ")) then
    if truthy (message (commit st))
    then onCommit (set_message (message (commit st) ++ lit " " ++ trim line)) st
    else onCommit (set_message (trim line)) st
  else if startsWith (trim line) (lit "•") || matches (trim line) indentedWord then
    onCommit (set_message (message (commit st) ++ lit " " ++ trim line)) st
  else st.

Definition parseLines (lines : list str) : Loop :=
  fold_left parseLine lines initLoop.

Definition finish (st : Loop) : Commit :=
  set_diff (join (lit "
") (diffLines st)) (commit st).

(** The lines of a block, once the marker is restored on it. *)
Definition blockLines (block : str) : list str :=
  let block :=
    if negb (startsWith block commitPrefix) then commitPrefix ++ block else block in
  split block (lit "
").

(** The body of the loop over the blocks. *)
Definition parseBlock (block : str) : Commit :=
  let lines := blockLines block in
  finish (parseLines lines).

(** The separator the output is cut at: an empty line followed by the
    record marker. *)
Definition blockSeparator : str := lit "

commit ".

Definition commitBlocks (output : str) : list str :=
  filter (fun b => truthy (trim b)) (split output blockSeparator).

Definition parseGitLog (output : str) : list Commit :=
  map parseBlock (commitBlocks output).

End Parser.

Import Parser.

(* ================================================================== *)
(** ** The cursor heuristic                                            *)
(* ================================================================== *)

Module Cursor.

Definition notCloseParen (c : char) : bool := negb (ceq c (ch ")")).

Definition asyncOpt : regex := Opt (word (lit "async") (Rep 0 isSpace)).

(** The tails shared by the patterns: [\s+(\w+)\s*\(] after a
    keyword. *)
Definition nameThenParen : regex :=
  (Rep 1 isSpace ;; Cap (Rep 1 isWord) ;; Rep 0 isSpace ;; Chr (ch "("))%re.

Definition eps : regex := Rep 0 (fun _ => false).

(** function name() *)
Definition patFunction : regex := word (lit "function") nameThenParen.

(** const name = () or async: [const], [\s+(\w+)\s*=\s*], an optional
    [async\s*], an opening parenthesis. *)
Definition patConst : regex :=
  word (lit "const")
    (Rep 1 isSpace ;; Cap (Rep 1 isWord) ;; Rep 0 isSpace ;; Chr (ch "=") ;;
     Rep 0 isSpace ;; asyncOpt ;; Chr (ch "("))%re.

(** name: function: [(\w+)\s*:\s*], an optional [async\s*],
    [function]. *)
Definition patProperty : regex :=
  (Cap (Rep 1 isWord) ;; Rep 0 isSpace ;; Chr (ch ":") ;; Rep 0 isSpace ;;
   asyncOpt ;; word (lit "function") eps)%re.

(** method name(): an optional [public], [private] or [protected],
    then [\s*(\w+)\s*\(], any run of characters other than a closing
    parenthesis, the closing parenthesis, [\s*] and an opening brace. *)
Definition patMethod : regex :=
  (Opt (Alt (word (lit "public") eps)
            (Alt (word (lit "private") eps) (word (lit "protected") eps))) ;;
   Rep 0 isSpace ;; Cap (Rep 1 isWord) ;; Rep 0 isSpace ;; Chr (ch "(") ;;
   Rep 0 notCloseParen ;; Chr (ch ")") ;; Rep 0 isSpace ;; Chr (ch "{"))%re.

(** Python def name() *)
Definition patDef : regex := word (lit "def") nameThenParen.

(** Rust fn name() *)
Definition patFn : regex := word (lit "fn") nameThenParen.

(** The patterns, in the order of the source. *)
Definition patterns : list regex :=
  [patFunction; patConst; patProperty; patMethod; patDef; patFn].

(** The loop over the patterns: the first one that matches decides. *)
Fixpoint firstMatch (ps : list regex) (text : str) : option str :=
  match ps with
  | [] => None
  | p :: ps' =>
    match match_ text p with
    | Some m1 => m1
    | None => firstMatch ps' text
    end
  end.

(** [getFunctionNameAtCursor], on the text of the line at the cursor. *)
Definition guessSymbolName (text : str) : option str := firstMatch patterns text.

(** [document.lineAt] is the editor's; it is a parameter here. *)
Definition getFunctionNameAtCursor (lineAt : nat -> str) (line : nat) : option str :=
  guessSymbolName (lineAt line).

End Cursor.

Import Cursor.

(* ================================================================== *)
(** ** The history queries                                             *)
(* ================================================================== *)

(** The queries run the external tool through [execSync], which either
    returns the captured output or throws an error that carries a
    message.  Computations thread the state of the outside world and
    the list of the invocations made so far; an exception is modelled
    by the message of the thrown [Error]. *)
Module History.

Inductive outcome (A : Type) : Type :=
| Ok (a : A)
| Throw (msg : str).
Arguments Ok {A} a.
Arguments Throw {A} msg.

(** One invocation of [execSync]: the command line and the working
    directory. *)
Record Call : Type := mkCall { command : str; cwd : str }.

Section Queries.

Variable World : Type.

(** [child_process.execSync]: [inl msg] is a thrown error. *)
Variable execSync : str -> str -> World -> (str + str) * World.

(** [path.dirname] and [path.relative]. *)
Variable dirname : str -> str.
Variable relative : str -> str -> str.

Record Sys : Type := mkSys { world : World; calls : list Call }.

Definition M (A : Type) : Type := Sys -> outcome A * Sys.

Definition ret {A} (a : A) : M A := fun s => (Ok a, s).
Definition throw {A} (msg : str) : M A := fun s => (Throw msg, s).
Definition bind {A B} (c : M A) (f : A -> M B) : M B :=
  fun s => match c s with
           | (Ok a, s') => f a s'
           | (Throw e, s') => (Throw e, s')
           end.
Definition try_catch {A} (c : M A) (handler : str -> M A) : M A :=
  fun s => match c s with
           | (Ok a, s') => (Ok a, s')
           | (Throw e, s') => handler e s'
           end.

Notation "x <- c1 ;; c2" := (bind c1 (fun x => c2))
  (at level 61, c1 at next level, right associativity).

(** Running the external tool, recording the invocation. *)
Definition runExecSync (cmd dir : str) : M str :=
  fun s =>
    let '(r, w) := execSync cmd dir (world s) in
    let s' := mkSys w (calls s ++ [mkCall cmd dir]) in
    match r with
    | inr output => (Ok output, s')
    | inl msg => (Throw msg, s')
    end.

Definition executeGit (dir args : str) : M str :=
  try_catch (runExecSync (lit "git " ++ args) dir)
            (fun msg => throw (lit "Git command failed: " ++ msg)).

(** The command that resolves the repository root. *)
Definition revParse : str := lit "git rev-parse --show-toplevel".

(** [None] is [null]. *)
Definition getGitRoot (filePath : str) : M (option str) :=
  try_catch
    (let dir := dirname filePath in
     output <- runExecSync revParse dir ;;
     ret (Some (trim output)))
    (fun _ => ret None).

Definition getRelativePath (filePath gitRoot : str) : str :=
  relative gitRoot filePath.

(** [!gitRoot]: [null] and the empty string are falsy. *)
Definition noRoot (gitRoot : option str) : bool :=
  match gitRoot with
  | None => true
  | Some r => negb (truthy r)
  end.

Definition rootOf (gitRoot : option str) : str :=
  match gitRoot with Some r => r | None => [] end.

Definition notARepository : str := lit "Not a git repository".

Definition prettyFormat : str :=
  tpl "--pretty=format:`commit %H%nAuthor: %an <%ae>%nDate: %ad%nBranches: %D%n%n%s%n` --date=relative".

Definition rangeArgs (startLine endLine : nat) (relativePath : str) : str :=
  lit "log " ++ prettyFormat ++ lit " -L " ++ ofNat startLine ++ lit ","
    ++ ofNat endLine ++ tpl ":`" ++ relativePath ++ tpl "`".

Definition getLineHistory (filePath : str) (startLine endLine : nat)
  : M (list Commit) :=
  gitRoot <- getGitRoot filePath ;;
  if noRoot gitRoot then throw notARepository
  else
    let gitRoot := rootOf gitRoot in
    let relativePath := getRelativePath filePath gitRoot in
    let args := rangeArgs startLine endLine relativePath in
    try_catch
      (output <- executeGit gitRoot args ;;
       ret (parseGitLog output))
      (fun error =>
         if negb (startLine =? endLine) then
           let singleLineArgs := rangeArgs startLine startLine relativePath in
           output <- executeGit gitRoot singleLineArgs ;;
           ret (parseGitLog output)
         else throw error).

Definition getFunctionHistory (filePath functionName : str) : M (list Commit) :=
  gitRoot <- getGitRoot filePath ;;
  if noRoot gitRoot then throw notARepository
  else
    let gitRoot := rootOf gitRoot in
    let relativePath := getRelativePath filePath gitRoot in
    let args :=
      lit "log " ++ prettyFormat ++ lit " -L :" ++ functionName ++ tpl ":`"
        ++ relativePath ++ tpl "`" in
    output <- executeGit gitRoot args ;;
    ret (parseGitLog output).

Definition searchCodeHistory (filePath codeSnippet : str) : M (list Commit) :=
  gitRoot <- getGitRoot filePath ;;
  if noRoot gitRoot then throw notARepository
  else
    let gitRoot := rootOf gitRoot in
    let relativePath := getRelativePath filePath gitRoot in
    let args :=
      tpl "log -S `" ++ codeSnippet ++ tpl "` " ++ prettyFormat ++ tpl " -- `"
        ++ relativePath ++ tpl "`" in
    output <- executeGit gitRoot args ;;
    ret (parseGitLog output).

End Queries.

Arguments mkSys {World} _ _.
Arguments world {World} _.
Arguments calls {World} _.
Arguments ret {World A} _ _.
Arguments throw {World A} _ _.
Arguments bind {World A B} _ _ _.
Arguments try_catch {World A} _ _ _.
Arguments runExecSync {World} _ _ _ _.
Arguments executeGit {World} _ _ _ _.
Arguments getGitRoot {World} _ _ _ _.
Arguments getLineHistory {World} _ _ _ _ _ _ _.
Arguments getFunctionHistory {World} _ _ _ _ _ _.
Arguments searchCodeHistory {World} _ _ _ _ _ _.

End History.

Import History.

(* ================================================================== *)
(** ** The renderer                                                    *)
(* ================================================================== *)

Module Render.

(** The replacement of one code unit by [escapeHTML]. *)
Definition escapeChar (c : char) : str :=
  if ceq c (ch "&") then lit "&amp;"
  else if ceq c (ch "<") then lit "&lt;"
  else if ceq c (ch ">") then lit "&gt;"
  else if ceq c (ch "'") then lit "&#39;"
  else if ceq c 34%N then lit "&quot;"
  else [c].

Definition escapeHTML (s : str) : str := flat_map escapeChar s.

(** The literal parts of the three templates of [formatCommitsHTML],
    in the order of the source. *)

(** Empty-state document, up to the title. *)
Definition emptyHead : str :=
  tpl "
            <!DOCTYPE html>
            <html lang=`en`>
            <head>
                <meta charset=`UTF-8`>
                <meta name=`viewport` content=`width=device-width, initial-scale=1.0`>
                <title>".

(** Empty-state document, from the title to the heading. *)
Definition emptyStyle : str :=
  tpl "</title>
                <style>
                    * {
                        margin: 0;
                        padding: 0;
                        box-sizing: border-box;
                    }
                    body { 
                        font-family: var(--vscode-font-family), -apple-system, BlinkMacSystemFont, 'Segoe UI', sans-serif;
                        padding: 24px;
                        color: var(--vscode-foreground);
                        background-color: var(--vscode-editor-background);
                        line-height: 1.6;
                    }
                    .header {
                        margin-bottom: 24px;
                        padding-bottom: 16px;
                        border-bottom: 1px solid var(--vscode-panel-border);
                    }
                    h1 {
                        font-size: 20px;
                        font-weight: 600;
                        color: var(--vscode-foreground);
                        margin-bottom: 8px;
                    }
                    .no-results {
                        display: flex;
                        flex-direction: column;
                        align-items: center;
                        justify-content: center;
                        padding: 60px 20px;
                        text-align: center;
                    }
                    .no-results-icon {
                        font-size: 48px;
                        margin-bottom: 16px;
                        opacity: 0.5;
                    }
                    .no-results-text {
                        color: var(--vscode-descriptionForeground);
                        font-size: 14px;
                    }
                </style>
            </head>
            <body>
                <div class=`header`>
                    <h1>".

(** Empty-state document, after the heading. *)
Definition emptyTail : str :=
  tpl "</h1>
                </div>
                <div class=`no-results`>
                    <div class=`no-results-icon`>📝</div>
                    <p class=`no-results-text`>No commits found in history.</p>
                </div>
            </body>
            </html>
        ".

(** A commit card, up to the sequence number. *)
Definition cardOpen : str :=
  tpl "
        <div class=`commit-card`>
            <div class=`commit-header`>
                <div class=`commit-header-left`>
                    <span class=`commit-number`>#".

(** From the sequence number to the revision identifier. *)
Definition cardToHash : str :=
  tpl "</span>
                    <code class=`commit-hash`>".

(** After the revision identifier. *)
Definition cardAfterHash : str :=
  lit "</code>
                    ".

(** The branch element, up to the label. *)
Definition branchOpen : str :=
  tpl "<span class=`commit-branch`>🌿 ".

(** The end of the branch element. *)
Definition branchClose : str :=
  lit "</span>".

(** From the branch element to the date. *)
Definition cardToDate : str :=
  tpl "
                </div>
                <span class=`commit-date`>📅 ".

(** From the date to the message. *)
Definition cardToMessage : str :=
  tpl "</span>
            </div>
            
            <div class=`commit-body`>
                <p class=`commit-message`>".

(** From the message to the author. *)
Definition cardToAuthor : str :=
  tpl "</p>
                
                <div class=`commit-author`>
                    <svg class=`author-icon` width=`14` height=`14` viewBox=`0 0 16 16` fill=`currentColor`>
                        <path d=`M8 8a3 3 0 1 0 0-6 3 3 0 0 0 0 6zm2-3a2 2 0 1 1-4 0 2 2 0 0 1 4 0zm4 8c0 1-1 1-1 1H3s-1 0-1-1 1-4 6-4 6 3 6 4zm-1-.004c-.001-.246-.154-.986-.832-1.664C11.516 10.68 10.289 10 8 10c-2.29 0-3.516.68-4.168 1.332-.678.678-.83 1.418-.832 1.664h10z`/>
                    </svg>
                    <span class=`author-name`>".

(** From the author to the diff section. *)
Definition cardToDiff : str :=
  lit "</span>
                </div>
            </div>
            
            ".

(** The expandable diff section, up to the diff text. *)
Definition diffOpen : str :=
  tpl "
                <details class=`commit-diff`>
                    <summary class=`diff-summary`>
                        <svg class=`diff-icon` width=`14` height=`14` viewBox=`0 0 16 16` fill=`currentColor`>
                            <path d=`M8.186 1.113a.5.5 0 0 0-.372 0L1.846 3.5 8 5.961 14.154 3.5 8.186 1.113zM15 4.239l-6.5 2.6v7.922l6.5-2.6V4.24zM7.5 14.762V6.838L1 4.239v7.923l6.5 2.6zM7.443.184a1.5 1.5 0 0 1 1.114 0l7.129 2.852A.5.5 0 0 1 16 3.5v8.662a1 1 0 0 1-.629.928l-7.185 2.874a.5.5 0 0 1-.372 0L.63 13.09a1 1 0 0 1-.63-.928V3.5a.5.5 0 0 1 .314-.464L7.443.184z`/>
                        </svg>
                        <span>View changes</span>
                        <svg class=`chevron` width=`12` height=`12` viewBox=`0 0 16 16` fill=`currentColor`>
                            <path fill-rule=`evenodd` d=`M1.646 4.646a.5.5 0 0 1 .708 0L8 10.293l5.646-5.647a.5.5 0 0 1 .708.708l-6 6a.5.5 0 0 1-.708 0l-6-6a.5.5 0 0 1 0-.708z`/>
                        </svg>
                    </summary>
                    <pre class=`diff-content`><code>".

(** The end of the diff section. *)
Definition diffClose : str :=
  lit "</code></pre>
                </details>
            ".

(** The end of a commit card. *)
Definition cardClose : str :=
  lit "
        </div>
    ".

(** Populated document, up to the title. *)
Definition docHead : str :=
  tpl "
        <!DOCTYPE html>
        <html lang=`en`>
        <head>
            <meta charset=`UTF-8`>
            <meta name=`viewport` content=`width=device-width, initial-scale=1.0`>
            <title>".

(** Populated document, from the title to the heading. *)
Definition docStyle : str :=
  tpl "</title>
            <style>
                * {
                    margin: 0;
                    padding: 0;
                    box-sizing: border-box;
                }
                
                body { 
                    font-family: var(--vscode-font-family), -apple-system, BlinkMacSystemFont, 'Segoe UI', sans-serif;
                    padding: 24px;
                    color: var(--vscode-foreground);
                    background-color: var(--vscode-editor-background);
                    line-height: 1.6;
                }
                
                .header {
                    margin-bottom: 24px;
                    padding-bottom: 16px;
                    border-bottom: 1px solid var(--vscode-panel-border);
                }
                
                h1 {
                    font-size: 20px;
                    font-weight: 600;
                    color: var(--vscode-foreground);
                    margin-bottom: 8px;
                }
                
                .stats-badge {
                    display: inline-flex;
                    align-items: center;
                    gap: 6px;
                    background-color: var(--vscode-badge-background);
                    color: var(--vscode-badge-foreground);
                    padding: 4px 10px;
                    border-radius: 12px;
                    font-size: 12px;
                    font-weight: 500;
                }
                
                .commit-card {
                    background-color: var(--vscode-editor-inactiveSelectionBackground);
                    border: 1px solid var(--vscode-panel-border);
                    border-left: 3px solid var(--vscode-charts-blue);
                    border-radius: 6px;
                    margin-bottom: 16px;
                    overflow: hidden;
                    transition: all 0.2s ease;
                }
                
                .commit-card:hover {
                    border-left-color: var(--vscode-charts-purple);
                    box-shadow: 0 2px 8px rgba(0, 0, 0, 0.1);
                }
                
                .commit-header {
                    display: flex;
                    justify-content: space-between;
                    align-items: center;
                    padding: 12px 16px;
                    background-color: var(--vscode-sideBar-background);
                    border-bottom: 1px solid var(--vscode-panel-border);
                }
                
                .commit-header-left {
                    display: flex;
                    align-items: center;
                    gap: 10px;
                    flex-wrap: wrap;
                }
                
                .commit-number {
                    font-size: 11px;
                    font-weight: 600;
                    color: var(--vscode-descriptionForeground);
                    background-color: var(--vscode-input-background);
                    padding: 2px 6px;
                    border-radius: 4px;
                }
                
                .commit-hash {
                    font-family: 'Consolas', 'Monaco', monospace;
                    font-size: 12px;
                    background-color: var(--vscode-textCodeBlock-background);
                    color: var(--vscode-textLink-foreground);
                    padding: 3px 8px;
                    border-radius: 4px;
                    font-weight: 500;
                }
                
                .commit-branch {
                    font-size: 11px;
                    color: var(--vscode-descriptionForeground);
                    background-color: var(--vscode-input-background);
                    padding: 2px 8px;
                    border-radius: 10px;
                }
                
                .commit-date {
                    font-size: 12px;
                    color: var(--vscode-descriptionForeground);
                    display: flex;
                    align-items: center;
                    gap: 4px;
                }
                
                .commit-body {
                    padding: 16px;
                }
                
                .commit-message {
                    font-size: 14px;
                    font-weight: 500;
                    color: var(--vscode-foreground);
                    margin-bottom: 12px;
                    line-height: 1.5;
                }
                
                .commit-author {
                    display: flex;
                    align-items: center;
                    gap: 6px;
                    font-size: 12px;
                    color: var(--vscode-descriptionForeground);
                }
                
                .author-icon {
                    opacity: 0.7;
                }
                
                .author-name {
                    font-weight: 500;
                }
                
                .commit-diff {
                    margin-top: 12px;
                    border-top: 1px solid var(--vscode-panel-border);
                }
                
                .diff-summary {
                    padding: 10px 16px;
                    cursor: pointer;
                    display: flex;
                    align-items: center;
                    gap: 8px;
                    font-size: 12px;
                    color: var(--vscode-textLink-foreground);
                    background-color: var(--vscode-editor-background);
                    transition: all 0.2s ease;
                    user-select: none;
                }
                
                .diff-summary:hover {
                    background-color: var(--vscode-list-hoverBackground);
                    color: var(--vscode-textLink-activeForeground);
                }
                
                .diff-icon {
                    flex-shrink: 0;
                }
                
                .chevron {
                    margin-left: auto;
                    transition: transform 0.2s ease;
                    opacity: 0.7;
                }
                
                details[open] .chevron {
                    transform: rotate(180deg);
                }
                
                .diff-content {
                    background-color: var(--vscode-textCodeBlock-background);
                    padding: 16px;
                    margin: 0;
                    overflow-x: auto;
                    font-family: 'Consolas', 'Monaco', monospace;
                    font-size: 11px;
                    line-height: 1.5;
                    color: var(--vscode-editor-foreground);
                    border-top: 1px solid var(--vscode-panel-border);
                }
                
                .diff-content code {
                    font-family: inherit;
                }
                
                /* Scrollbar styling */
                ::-webkit-scrollbar {
                    width: 10px;
                    height: 10px;
                }
                
                ::-webkit-scrollbar-track {
                    background: var(--vscode-editor-background);
                }
                
                ::-webkit-scrollbar-thumb {
                    background: var(--vscode-scrollbarSlider-background);
                    border-radius: 5px;
                }
                
                ::-webkit-scrollbar-thumb:hover {
                    background: var(--vscode-scrollbarSlider-hoverBackground);
                }
                
                /* Empty state */
                .empty-state {
                    text-align: center;
                    padding: 60px 20px;
                    color: var(--vscode-descriptionForeground);
                }
            </style>
        </head>
        <body>
            <div class=`header`>
                <h1>".

(** From the heading to the count of commits. *)
Definition docStats : str :=
  tpl "</h1>
                <div class=`stats-badge`>
                    <svg width=`14` height=`14` viewBox=`0 0 16 16` fill=`currentColor`>
                        <path d=`M8 15A7 7 0 1 1 8 1a7 7 0 0 1 0 14zm0 1A8 8 0 1 0 8 0a8 8 0 0 0 0 16z`/>
                        <path d=`M5.255 5.786a.237.237 0 0 0 .241.247h.825c.138 0 .248-.113.266-.25.09-.656.54-1.134 1.342-1.134.686 0 1.314.343 1.314 1.168 0 .635-.374.927-.965 1.371-.673.489-1.206 1.06-1.168 1.987l.003.217a.25.25 0 0 0 .25.246h.811a.25.25 0 0 0 .25-.25v-.105c0-.718.273-.927 1.01-1.486.609-.463 1.244-.977 1.244-2.056 0-1.511-1.276-2.241-2.673-2.241-1.267 0-2.655.59-2.75 2.286zm1.557 5.763c0 .533.425.927 1.01.927.609 0 1.028-.394 1.028-.927 0-.552-.42-.94-1.029-.94-.584 0-1.009.388-1.009.94z`/>
                    </svg>
                    <span>Found ".

(** The word after the count. *)
Definition docCommitWord : str :=
  lit " commit".

(** From the count to the list of cards. *)
Definition docToList : str :=
  tpl "</span>
                </div>
            </div>
            
            <div class=`commits-list`>
                ".

(** Populated document, after the list of cards. *)
Definition docTail : str :=
  lit "
            </div>
        </body>
        </html>
    ".

(** [commit.branch ? ... : ''] *)
Definition branchElement (commit : Commit) : str :=
  if truthy (branch commit)
  then branchOpen ++ escapeHTML (trim (hd [] (split (branch commit) (lit ","))))
         ++ branchClose
  else [].

(** [commit.diff ? ... : ''] *)
Definition diffSection (commit : Commit) : str :=
  if truthy (diff commit)
  then diffOpen ++ escapeHTML (diff commit) ++ diffClose
  else [].

(** The block of one record: the callback of [commits.map]; [total]
    is [commits.length]. *)
Definition commitCard (total : nat) (commit : Commit) (index : nat) : str :=
  cardOpen ++ ofNat (total - index) ++ cardToHash
    ++ substring0 (hash commit) 7 ++ cardAfterHash
    ++ branchElement commit ++ cardToDate
    ++ escapeHTML (date commit) ++ cardToMessage
    ++ escapeHTML (message commit) ++ cardToAuthor
    ++ escapeHTML (author commit) ++ cardToDiff
    ++ diffSection commit ++ cardClose.

(** [Array.prototype.map] with the index passed to the callback. *)
Fixpoint mapi_from {A B : Type} (f : A -> nat -> B) (i : nat) (l : list A) : list B :=
  match l with
  | [] => []
  | x :: l' => f x i :: mapi_from f (S i) l'
  end.

Definition mapi {A B : Type} (f : A -> nat -> B) (l : list A) : list B :=
  mapi_from f 0 l.

Definition commitCards (commits : list Commit) : list str :=
  mapi (commitCard (List.length commits)) commits.

Definition plural (n : nat) : str := if negb (n =? 1) then lit "s" else [].

Definition formatCommitsHTML (commits : list Commit) (title : str) : str :=
  match commits with
  | [] =>
    emptyHead ++ escapeHTML title ++ emptyStyle ++ escapeHTML title ++ emptyTail
  | _ :: _ =>
    let commitHTML := join [] (commitCards commits) in
    docHead ++ escapeHTML title ++ docStyle ++ escapeHTML title ++ docStats
      ++ ofNat (List.length commits) ++ docCommitWord
      ++ plural (List.length commits) ++ docToList
      ++ commitHTML ++ docTail
  end.

End Render.

Import Render.

(* ================================================================== *)
(** ** Notions used to state the properties                            *)
(* ================================================================== *)

Module Text.

(** [needle] occurs in [s] as a contiguous substring. *)
Definition occurs (needle s : str) : Prop :=
  exists a b, s = a ++ needle ++ b.

Definition endsWith (s p : str) : Prop := exists a, s = a ++ p.

(** [String.prototype.includes], the decision procedure for [occurs]. *)
Fixpoint includes (s needle : str) : bool :=
  startsWith s needle
  || match s with
     | [] => false
     | _ :: s' => includes s' needle
     end.

(** The number of positions of [s] at which [sep] starts. *)
Fixpoint occurrences (sep s : str) : nat :=
  (if startsWith s sep then 1 else 0)
  + match s with
    | [] => 0
    | _ :: s' => occurrences sep s'
    end.

(** The record markers of a text: its lines that begin with
    [commit ]. *)
Definition markerLines (output : str) : nat :=
  List.length (filter (fun l => startsWith l commitPrefix) (split output (lit "
"))).

(** A fragment that [parseGitLog] drops: nothing but white space. *)
Definition blank (b : str) : bool := negb (truthy (trim b)).

(** A line with one of the four header prefixes. *)
Definition isHeader (line : str) : bool :=
  startsWith line commitPrefix || startsWith line authorPrefix
  || startsWith line datePrefix || startsWith line branchesPrefix.

(** A line with neither a header prefix nor a diff-marker prefix. *)
Definition isPlain (line : str) : bool :=
  negb (isHeader line) && negb (isDiffMarker line).

Definition bullet : str := lit "•".

(** The first code units of the seven prefixes that [parseLine]
    tests. *)
Definition initials : list char := map ch ["c"; "A"; "D"; "B"; "d"; "-"; "+"]%string.

(** The code units of [s] before its first comma. *)
Fixpoint firstToken (s : str) : str :=
  match s with
  | [] => []
  | c :: s' => if ceq c (ch ",") then [] else c :: firstToken s'
  end.

(** The command lines of the three log queries, as [execSync]
    receives them. *)
Definition rangeCommand (startLine endLine : nat) (relativePath : str) : str :=
  tpl "git log --pretty=format:`commit %H%nAuthor: %an <%ae>%nDate: %ad%nBranches: %D%n%n%s%n` --date=relative -L "
    ++ ofNat startLine ++ lit "," ++ ofNat endLine
    ++ tpl ":`" ++ relativePath ++ tpl "`".

Definition functionCommand (functionName relativePath : str) : str :=
  tpl "git log --pretty=format:`commit %H%nAuthor: %an <%ae>%nDate: %ad%nBranches: %D%n%n%s%n` --date=relative -L :"
    ++ functionName ++ tpl ":`" ++ relativePath ++ tpl "`".

Definition searchCommand (codeSnippet relativePath : str) : str :=
  tpl "git log -S `" ++ codeSnippet
    ++ tpl "` --pretty=format:`commit %H%nAuthor: %an <%ae>%nDate: %ad%nBranches: %D%n%n%s%n` --date=relative -- `"
    ++ relativePath ++ tpl "`".

End Text.

Import Text.

(** *** Scanning a text for a needle

    The scanner keeps the set of the lengths [k] such that the text
    read so far ends with the first [k] code units of the needle; a
    text that is only known in part (an escaped field, a truncated
    identifier) is scanned by over-approximating this set. *)
Module Scan.

Section Scanner.

Variable needle : str.

Definition state := list nat.

Definition top : state := seq 0 (List.length needle).

(** Reading [c] completes an occurrence of the needle. *)
Definition hit (st : state) (c : char) : bool :=
  existsb (fun k => (S k =? List.length needle) && ceq (nth k needle 0%N) c) st.

Definition advance (st : state) (c : char) : state :=
  0 :: map S (filter (fun k => ceq (nth k needle 0%N) c) st).

Definition step (st : state) (c : char) : option state :=
  if hit st c then None else Some (advance st c).

Fixpoint scan (st : state) (t : str) : option state :=
  match t with
  | [] => Some st
  | c :: t' =>
    match step st c with
    | Some st' => scan st' t'
    | None => None
    end
  end.

(** The pieces a rendered text is made of: a literal of the
    template, a text free of the last code unit of the needle, and
    a text of at most [n] code units. *)
Inductive piece : Type :=
| Fixed (t : str)
| Free (e : str)
| Short (n : nat) (h : str).

Definition textOf (p : piece) : str :=
  match p with
  | Fixed t => t
  | Free e => e
  | Short _ h => h
  end.

Definition lastUnit : char := last needle 0%N.

Definition wellFormed (p : piece) : Prop :=
  match p with
  | Fixed _ => True
  | Free e => Forall (fun c => ceq lastUnit c = false) e
  | Short n h => List.length h <= n
  end.

Definition bound (st : state) : nat := fold_right Nat.max 0 st.

Definition scanPiece (st : state) (p : piece) : option state :=
  match p with
  | Fixed t => scan st t
  | Free _ => Some top
  | Short n _ =>
    if bound st + n <? List.length needle
    then Some (seq 0 (S (bound st + n)))
    else None
  end.

Fixpoint scanPieces (st : state) (ps : list piece) : option state :=
  match ps with
  | [] => Some st
  | p :: ps' =>
    match scanPiece st p with
    | Some st' => scanPieces st' ps'
    | None => None
    end
  end.

(** The scanner passes the pieces without completing an
    occurrence. *)
Definition passes (st : state) (ps : list piece) : bool :=
  match scanPieces st ps with
  | Some _ => true
  | None => false
  end.

(** [st] accounts for the text [s]: the needle does not occur in
    [s], and every proper prefix of the needle that [s] ends with
    has its length in [st]. *)
Definition covers (st : state) (s : str) : Prop :=
  ~ occurs needle s
  /\ forall k, k < List.length needle -> endsWith s (firstn k needle) -> In k st.

End Scanner.

End Scan.

Import Scan.

(** *** The layout of the rendered texts *)
Module Layout.

(** The crafted summary of the round-trip property. *)
Definition scriptPayload : str := lit "<script>alert(1)</script>".

(** A record with the crafted summary. *)
Definition payloadCommit : Commit :=
  mkCommit (lit "abc1234def") (lit "Jane") (lit "2 days ago") scriptPayload [] [].

(** The four code units that [escapeHTML] removes for good (the
    ampersand comes back in the entities). *)
Definition specials : list char := [ch "<"; ch ">"; ch "'"; 34%N].

Definition isDigit (c : char) : bool := ((48 <=? c) && (c <=? 57))%N.

(** The markup around the sequence number and around the revision
    identifier, and the opening tags of the two optional elements. *)
Definition numberOpen : str := tpl "<span class=`commit-number`>#".
Definition spanClose : str := lit "</span>".
Definition hashOpen : str := tpl "<code class=`commit-hash`>".
Definition codeClose : str := lit "</code>".
Definition branchTag : str := tpl "<span class=`commit-branch`>".
Definition diffTag : str := tpl "<details class=`commit-diff`>".
Definition messageOpen : str := tpl "<p class=`commit-message`>".
Definition messageClose : str := lit "</p>".

(** The pieces of a commit card, of the head of the populated
    document and of the empty-state document. *)
Definition branchPieces (commit : Commit) : list piece :=
  if truthy (branch commit)
  then [Fixed branchOpen;
        Free (escapeHTML (trim (hd [] (split (branch commit) (lit ",")))));
        Fixed branchClose]
  else [].

Definition diffPieces (commit : Commit) : list piece :=
  if truthy (diff commit)
  then [Fixed diffOpen; Free (escapeHTML (diff commit)); Fixed diffClose]
  else [].

Definition cardPieces (total : nat) (commit : Commit) (index : nat) : list piece :=
  [Fixed cardOpen; Free (ofNat (total - index)); Fixed cardToHash;
   Short 7 (substring0 (hash commit) 7); Fixed cardAfterHash]
  ++ branchPieces commit
  ++ [Fixed cardToDate; Free (escapeHTML (date commit));
      Fixed cardToMessage; Free (escapeHTML (message commit));
      Fixed cardToAuthor; Free (escapeHTML (author commit)); Fixed cardToDiff]
  ++ diffPieces commit
  ++ [Fixed cardClose].

Definition docOpenPieces (n : nat) (title : str) : list piece :=
  [Fixed docHead; Free (escapeHTML title); Fixed docStyle; Free (escapeHTML title);
   Fixed docStats; Free (ofNat n); Fixed docCommitWord; Free (plural n);
   Fixed docToList].

Definition emptyPieces (title : str) : list piece :=
  [Fixed emptyHead; Free (escapeHTML title); Fixed emptyStyle;
   Free (escapeHTML title); Fixed emptyTail].

End Layout.

Import Layout.

(** *** Sample environments for the history queries *)
Module Sample.

(** A tool that always fails: the file is outside any repository. *)
Definition failingTool (cmd dir : str) (w : unit) : (str + str) * unit :=
  (inl (lit "fatal: not a git repository"), w).

(** A tool that resolves the root, rejects the first range query and
    answers the next one; the world counts the invocations. *)
Definition flakyTool (cmd dir : str) (w : nat) : (str + str) * nat :=
  match w with
  | 0 => (inr (lit "/repo
"), 1)
  | 1 => (inl (lit "fatal: file a.js has only 4 lines"), 2)
  | _ => (inr (lit "commit abc
Author: Jane"), S w)
  end.

Definition sampleDirname (filePath : str) : str := lit "/repo".
Definition sampleRelative (gitRoot filePath : str) : str := lit "a.js".
Definition samplePath : str := lit "/repo/a.js".

End Sample.

Import Sample.

(** *** The shape of the tool's output, line by line *)
Module Shape.

Definition newline : str := lit "
".

(** A text without a line feed: one line. *)
Definition oneLine (l : str) : Prop := Forall (fun c => ceq 10%N c = false) l.

(** The number of places where an empty line that is not the first
    line is followed by a line that begins with the marker. *)
Fixpoint separatorLines (lines : list str) : nat :=
  match lines with
  | [] => 0
  | _ :: rest =>
    match rest with
    | l1 :: l2 :: _ =>
      if negb (truthy l1) && startsWith l2 commitPrefix then 1 else 0
    | _ => 0
    end
    + separatorLines rest
  end.

(** The first line of a block once the marker is restored on it. *)
Definition restoreMarker (l : str) : str :=
  if negb (startsWith l commitPrefix) then commitPrefix ++ l else l.

(** The lines that introduce a record in the format the queries ask
    for: the four header lines, an empty line and the subject. *)
Definition headerLines (h a d b subject : str) : list str :=
  [commitPrefix ++ h; authorPrefix ++ a; datePrefix ++ d; branchesPrefix ++ b;
   []; subject].

(** A text is all white space. *)
Definition allSpace (s : str) : Prop := Forall (fun c => isSpace c = true) s.

End Shape.

Import Shape.

(** *** Records as the tool prints them *)
Module Entry.

(** One record of a log: the header values, the subject, then the
    blank lines, the diff-marker lines and the lines of the diff that
    follow it. *)
Record Entry : Type := mkEntry {
  eHash : str;
  eAuthor : str;
  eDate : str;
  eBranch : str;
  eSubject : str;
  eBlanks : list str;
  eMarkers : list str;
  eHunk : list str
}.

Definition truthy_list {A : Type} (l : list A) : bool :=
  match l with [] => false | _ :: _ => true end.

Definition entryLines (e : Entry) : list str :=
  headerLines (eHash e) (eAuthor e) (eDate e) (eBranch e) (eSubject e)
  ++ eBlanks e ++ eMarkers e ++ eHunk e.

Definition entryText (e : Entry) : str := join newline (entryLines e).

(** The lines of a record that is not the first of its log, once the
    separator before it is cut away: the marker is gone from the
    first line. *)
Definition bodyLines (e : Entry) : list str := eHash e :: tl (entryLines e).

(** The records of a log are separated by an empty line. *)
Definition logText (es : list Entry) : str :=
  join (newline ++ newline) (map entryText es).

(** The record the parser is expected to give back. *)
Definition entryCommit (e : Entry) : Commit :=
  mkCommit (trim (eHash e)) (trim (eAuthor e)) (trim (eDate e)) (trim (eSubject e))
           (trim (eBranch e)) (join newline (eHunk e)).

(** The records the parser reads back as they stand: every line is
    one line (it holds no line feed); the revision identifier does
    not begin with the marker [commit ] again; the subject is not
    blank, does not begin with a space and begins with none of the
    four header prefixes and none of the three diff-marker prefixes;
    the blank lines are blank; the marker lines begin with a
    diff-marker prefix; the lines of the diff begin with none of the
    seven prefixes; and the lines of a diff come only after a marker
    line. *)
Definition wellFormedEntry (e : Entry) : Prop :=
  Forall oneLine (entryLines e)
  /\ startsWith (eHash e) commitPrefix = false
  /\ isPlain (eSubject e) = true
  /\ truthy (trim (eSubject e)) = true
  /\ startsWith (eSubject e) (lit " ") = false
  /\ Forall (fun l => trim l = []) (eBlanks e)
  /\ Forall (fun l => isDiffMarker l = true) (eMarkers e)
  /\ Forall (fun l => isPlain l = true) (eHunk e)
  /\ (eMarkers e = [] -> eHunk e = []).

(** The decision procedure for [wellFormedEntry]. *)
Definition wellFormedEntryb (e : Entry) : bool :=
  forallb (forallb (fun c => negb (ceq 10%N c))) (entryLines e)
  && negb (startsWith (eHash e) commitPrefix)
  && isPlain (eSubject e)
  && truthy (trim (eSubject e))
  && negb (startsWith (eSubject e) (lit " "))
  && forallb (fun l => negb (truthy (trim l))) (eBlanks e)
  && forallb isDiffMarker (eMarkers e)
  && forallb isPlain (eHunk e)
  && (truthy_list (eMarkers e) || negb (truthy_list (eHunk e))).

(** Two records as [git log -L] prints them. *)
Definition sampleEntries : list Entry :=
  [ mkEntry (lit "abc1234") (lit "Jane Doe <jane@example.com>") (lit "2 days ago")
            (lit "main, origin/main") (lit "Fix bug") [ [] ]
            [lit "diff --git a/f b/f"; lit "--- a/f"; lit "+++ b/f"]
            [lit "@@ -1 +1 @@"; lit "-old"; lit "+new"];
    mkEntry (lit "def5678") (lit "Bob <bob@example.com>") (lit "3 weeks ago")
            (lit "") (lit "Initial import") [ [] ] [] [] ].

End Entry.

Import Entry.

(** *** Markup of the rendered texts *)
Module Markup.

(** The five code units that [escapeHTML] replaces. *)
Definition replaced : list char := [ch "&"; ch "<"; ch ">"; ch "'"; 34%N].

Definition isReplaced (c : char) : bool := existsb (ceq c) replaced.

(** The number of code units of [s] equal to [c]. *)
Definition countUnit (c : char) (s : str) : nat := List.length (filter (ceq c) s).

(** A record with the same optional elements and no text. *)
Definition skeleton (commit : Commit) : Commit :=
  mkCommit [] [] [] []
           (if truthy (branch commit) then lit "x" else [])
           (if truthy (diff commit) then lit "x" else []).

Definition cardTag : str := tpl "<div class=`commit-card`>".
Definition noResultsTag : str := tpl "<div class=`no-results`>".
Definition noResultsText : str := lit "No commits found in history.".
Definition scriptTag : str := lit "<script>".

(** The text of the badge that counts the records. *)
Definition foundText (n : nat) : str :=
  lit "Found " ++ ofNat n ++ lit " commit" ++ (if n =? 1 then [] else lit "s")
    ++ lit "</span>".

End Markup.

Import Markup.

(** *** The failures of the queries *)
Module Failures.

Definition gitFailure : str := lit "Git command failed: ".

(** The two kinds of error a query throws. *)
Definition typedFailure (msg : str) : Prop :=
  msg = notARepository \/ exists e, msg = gitFailure ++ e.

(** A tool that answers every query with white space. *)
Definition blankTool (cmd dir : str) (w : unit) : (str + str) * unit :=
  (inr (lit "
"), w).

End Failures.

Import Failures.

(** *** Names the cursor heuristic can capture *)
Module Names.

(** Every capture group of the pattern is [(\w+)]. *)
Fixpoint wordCaptures (r : regex) : Prop :=
  match r with
  | Chr _ | Set_ _ | Rep _ _ | Bol => True
  | Seq r1 r2 | Alt r1 r2 => wordCaptures r1 /\ wordCaptures r2
  | Opt r1 => wordCaptures r1
  | Cap r1 => r1 = Rep 1 isWord
  end.

(** A non-empty run of word characters. *)
Definition wordName (name : str) : Prop :=
  name <> [] /\ Forall (fun c => isWord c = true) name.

Definition goodCapture (cap : capture) : Prop :=
  match cap with
  | None => True
  | Some name => wordName name
  end.

Definition goodResult (r : option capture) : Prop :=
  match r with
  | None => True
  | Some cap => goodCapture cap
  end.

End Names.

Import Names.

(* ================================================================== *)
(** ** The hover provider and the commands                             *)
(* ================================================================== *)

(** The handlers that [activate] registers.  The editor's interface
    is modelled by what the handlers do with it: the messages, the
    input box and the panels they show are recorded in order; the
    answer to the input box comes from the outside world; a
    [MarkdownString] is the text appended to it. *)
Module Extension.

Inductive UiEvent : Type :=
| ErrorMessage (text : str)
| InformationMessage (text : str)
| InputBox
| WebviewPanel (title html : str).

(** The active editor: the file of its document, the text of its
    lines and the line of the cursor (from 0). *)
Record Editor : Type := mkEditor {
  fileName : str;
  lineAt : nat -> str;
  cursorLine : nat
}.

(** [!functionName]: [null], [undefined] and the empty string are
    falsy. *)
Definition noName (name : option str) : bool :=
  match name with
  | None => true
  | Some n => negb (truthy n)
  end.

Definition nameOf (name : option str) : str :=
  match name with Some n => n | None => [] end.

(** The text of the hover for the newest record and the number of
    records. *)
Definition hoverMarkdown (latestCommit : Commit) (totalCommits : nat) : str :=
  lit "### 📝 Line History

"
  ++ (lit "**Last modified:** " ++ date latestCommit ++ lit "

")
  ++ (lit "**Commit:** `" ++ substring0 (hash latestCommit) 8 ++ lit "`

")
  ++ (lit "**Author:** " ++ author latestCommit ++ lit "

")
  ++ (lit "**Message:** " ++ message latestCommit ++ lit "

")
  ++ lit "---

"
  ++ (lit "*Total commits affecting this line: " ++ ofNat totalCommits ++ lit "*

")
  ++ lit "Right-click for full history".

Section Handlers.

Variable World : Type.
Variable execSync : str -> str -> World -> (str + str) * World.
Variable dirname : str -> str.
Variable relative : str -> str -> str.

(** [path.basename]. *)
Variable basename : str -> str.

(** The answer of the user to [showInputBox]: [None] is [undefined],
    the box dismissed. *)
Variable showInputBox : World -> option str * World.

Notation "x <- c1 ;; c2" := (bind c1 (fun x => c2))
  (at level 61, c1 at next level, right associativity).

(** [provideHover]: [None] is [undefined], no hover. *)
Definition provideHover (file : str) (positionLine : nat) : M World (option str) :=
  try_catch
    (gitRoot <- getGitRoot execSync dirname file ;;
     if noRoot gitRoot then ret None
     else
       let line := positionLine + 1 in
       commits <- getLineHistory execSync dirname relative file line line ;;
       match commits with
       | [] => ret None
       | latestCommit :: _ =>
         let totalCommits := List.length commits in
         ret (Some (hoverMarkdown latestCommit totalCommits))
       end)
    (fun _ => ret None).

(** The state of the host: the outside world with the trace of the
    tool, and what the window has shown. *)
Record Host : Type := mkHost { sys : Sys World; shown : list UiEvent }.

Definition H (A : Type) : Type := Host -> outcome A * Host.

Definition retH {A} (a : A) : H A := fun h => (Ok a, h).
Definition bindH {A B} (c : H A) (f : A -> H B) : H B :=
  fun h => match c h with
           | (Ok a, h') => f a h'
           | (Throw e, h') => (Throw e, h')
           end.
Definition tryH {A} (c : H A) (handler : str -> H A) : H A :=
  fun h => match c h with
           | (Ok a, h') => (Ok a, h')
           | (Throw e, h') => handler e h'
           end.

Notation "x <~ c1 ;; c2" := (bindH c1 (fun x => c2))
  (at level 61, c1 at next level, right associativity).

(** A query, run from a handler. *)
Definition query {A} (c : M World A) : H A :=
  fun h => let '(r, s') := c (sys h) in (r, mkHost s' (shown h)).

Definition show (e : UiEvent) : H unit :=
  fun h => (Ok tt, mkHost (sys h) (shown h ++ [e])).

Definition askName : H (option str) :=
  fun h =>
    let '(answer, w) := showInputBox (world (sys h)) in
    (Ok answer, mkHost (mkSys w (calls (sys h))) (shown h ++ [InputBox])).

Definition showCommitsPanel (commits : list Commit) (title : str) : H unit :=
  show (WebviewPanel title (formatCommitsHTML commits title)).

(** The command [codeHistoryTracker.showLineHistory]; [None] is no
    active editor. *)
Definition lineHistoryCommand (editor : option Editor) : H unit :=
  match editor with
  | None => show (ErrorMessage (lit "No active editor"))
  | Some editor =>
    tryH
      (let line := cursorLine editor + 1 in
       _ <~ show (InformationMessage (lit "Searching git history...")) ;;
       commits <~ query (getLineHistory execSync dirname relative
                           (fileName editor) line line) ;;
       let title :=
         lit "History for Line " ++ ofNat line ++ lit " in "
           ++ basename (fileName editor) in
       showCommitsPanel commits title)
      (fun message => show (ErrorMessage (lit "Error: " ++ message)))
  end.

(** The command [codeHistoryTracker.showFunctionHistory]. *)
Definition functionHistoryCommand (editor : option Editor) : H unit :=
  match editor with
  | None => show (ErrorMessage (lit "No active editor"))
  | Some editor =>
    tryH
      (let detected := getFunctionNameAtCursor (lineAt editor) (cursorLine editor) in
       functionName <~ (if noName detected then askName else retH detected) ;;
       if noName functionName then retH tt
       else
         let functionName := nameOf functionName in
         _ <~ show (InformationMessage
                      (lit "Tracking history for function: " ++ functionName)) ;;
         commits <~ query (getFunctionHistory execSync dirname relative
                             (fileName editor) functionName) ;;
         let title :=
           tpl "History for function `" ++ functionName ++ tpl "` in "
             ++ basename (fileName editor) in
         showCommitsPanel commits title)
      (fun message => show (ErrorMessage (lit "Error: " ++ message)))
  end.

End Handlers.

Arguments mkHost {World} _ _.
Arguments sys {World} _.
Arguments shown {World} _.
Arguments provideHover {World} _ _ _ _ _ _.
Arguments lineHistoryCommand {World} _ _ _ _ _ _.
Arguments functionHistoryCommand {World} _ _ _ _ _ _ _.

(** Sample surroundings: an editor with the cursor on a declaration,
    and a user who dismisses the input box. *)
Definition sampleEditor : Editor :=
  mkEditor (lit "/repo/a.js") (fun _ => lit "const total = 1;") 4.

Definition dismissed {World : Type} (w : World) : option str * World := (None, w).

Definition sampleBasename (file : str) : str := lit "a.js".

(** A tool that resolves the root and answers every log query with
    one record. *)
Definition steadyTool (cmd dir : str) (w : nat) : (str + str) * nat :=
  if startsWith cmd (lit "git rev-parse")
  then (inr (lit "/repo
"), S w)
  else (inr (lit "commit abc1234def
Author: Jane
Date: 2 days ago
Branches: main

Fix bug"), S w).

End Extension.

Import Extension.

(* ================================================================== *)
(** ** Facts about strings                                             *)
(* ================================================================== *)

Lemma ceq_eq a b : ceq a b = true <-> a = b.
Proof. apply N.eqb_eq. Qed.

Lemma ceq_refl a : ceq a a = true.
Proof. apply N.eqb_refl. Qed.

Lemma startsWith_app s p : startsWith s p = true <-> exists r, s = p ++ r.
Proof.
  revert s. induction p as [|x p IH]; intros s.
  - split; [ intros _; exists s; reflexivity | reflexivity ].
  - destruct s as [|y s]; simpl.
    + split; [ discriminate | intros [r E]; discriminate ].
    + rewrite andb_true_iff, ceq_eq, IH. split.
      * intros [-> [r ->]]. exists r. reflexivity.
      * intros [r E]. injection E as -> ->. split; [ reflexivity | exists r; reflexivity ].
Qed.

Lemma startsWith_first c s p :
  startsWith (c :: s) p = true -> p <> [] -> hd 0%N p = c.
Proof.
  destruct p as [|x p]; [ congruence | ]. simpl.
  intros H _. apply andb_true_iff in H. destruct H as [H _].
  now apply ceq_eq in H.
Qed.

Lemma truthy_nonempty s : truthy s = true <-> s <> [].
Proof. destruct s; simpl; split; congruence. Qed.

Lemma trimStart_snoc l c :
  isSpace c = false -> exists l', trimStart (l ++ [c]) = l' ++ [c].
Proof.
  intros Hc. induction l as [|a l IH]; simpl.
  - rewrite Hc. exists []. reflexivity.
  - destruct (isSpace a).
    + exact IH.
    + exists (a :: l). reflexivity.
Qed.

(** A text that begins with a code unit that is not white space keeps
    it when trimmed. *)
Lemma trim_keeps_head c s :
  isSpace c = false -> exists t, trim (c :: s) = c :: t.
Proof.
  intros Hc. unfold trim, trimEnd. simpl trimStart. rewrite Hc. simpl rev.
  destruct (trimStart_snoc (rev s) c Hc) as [l' E]. rewrite E.
  rewrite rev_app_distr. exists (rev l'). reflexivity.
Qed.

(* ================================================================== *)
(** ** Properties of the record parser                                 *)
(* ================================================================== *)

(** The line prefixes begin with seven distinct code units, none of
    which is white space or the bullet. *)
Lemma prefixed_initial c s :
  isHeader (c :: s) = true \/ isDiffMarker (c :: s) = true -> In c initials.
Proof.
  unfold isHeader, isDiffMarker. rewrite !orb_true_iff.
  intros H.
  repeat match type of H with _ \/ _ => destruct H as [H | H] end;
    apply startsWith_first in H; try discriminate;
    vm_compute in H; subst c; vm_compute; tauto.
Qed.

Lemma initial_not_space c : In c initials -> isSpace c = false /\ c <> hd 0%N bullet.
Proof.
  intros H. vm_compute in H.
  repeat match type of H with _ \/ _ => destruct H as [H | H] end;
    try contradiction; subst c; split; (reflexivity || discriminate).
Qed.

Lemma unprefixed_cases line :
  isHeader line = false ->
  startsWith line commitPrefix = false /\ startsWith line authorPrefix = false
  /\ startsWith line datePrefix = false /\ startsWith line branchesPrefix = false.
Proof.
  unfold isHeader. rewrite !orb_false_iff. tauto.
Qed.

Lemma isDiffMarker_not_header m : isDiffMarker m = true -> isHeader m = false.
Proof.
  destruct m as [|c m]; [ discriminate | ].
  intros H. unfold isDiffMarker in H. rewrite !orb_true_iff in H.
  repeat match type of H with _ \/ _ => destruct H as [H | H] end;
    apply startsWith_first in H; try discriminate;
    vm_compute in H; subst c; vm_compute; reflexivity.
Qed.

(** What [parseLine] does to a line without a header prefix. *)
Lemma parseLine_unprefixed st line :
  isHeader line = false ->
  parseLine st line =
  if isDiffMarker line then mkLoop (commit st) true (diffLines st)
  else if inDiff st then mkLoop (commit st) (inDiff st) (diffLines st ++ [line])
  else if truthy (trim line) && negb (startsWith line (lit " ")) then
    if truthy (message (commit st))
    then onCommit (set_message (message (commit st) ++ lit " " ++ trim line)) st
    else onCommit (set_message (trim line)) st
  else if startsWith (trim line) (lit "•") || matches (trim line) indentedWord then
    onCommit (set_message (message (commit st) ++ lit " " ++ trim line)) st
  else st.
Proof.
  intros H. apply unprefixed_cases in H. destruct H as (H1 & H2 & H3 & H4).
  unfold parseLine. rewrite H1, H2, H3, H4. reflexivity.
Qed.

(** A line whose trimmed text is empty or begins with the bullet has
    none of the seven prefixes. *)
Lemma blank_unprefixed line :
  trim line = [] -> isHeader line = false /\ isDiffMarker line = false.
Proof.
  destruct line as [|c s]; [ intros _; split; reflexivity | ].
  intros T.
  destruct (isHeader (c :: s)) eqn:Hh; destruct (isDiffMarker (c :: s)) eqn:Hd;
    try (split; reflexivity);
    (assert (Hi : In c initials) by (apply (prefixed_initial c s); auto);
     apply initial_not_space in Hi; destruct Hi as [Hs _];
     destruct (trim_keeps_head c s Hs) as [t E]; congruence).
Qed.

Lemma bullet_unprefixed line :
  startsWith (trim line) bullet = true ->
  isHeader line = false /\ isDiffMarker line = false.
Proof.
  destruct line as [|c s]; [ discriminate | ].
  intros T.
  destruct (isHeader (c :: s)) eqn:Hh; destruct (isDiffMarker (c :: s)) eqn:Hd;
    try (split; reflexivity);
    (assert (Hi : In c initials) by (apply (prefixed_initial c s); auto);
     apply initial_not_space in Hi; destruct Hi as [Hs Hb];
     destruct (trim_keeps_head c s Hs) as [t E]; rewrite E in T;
     apply startsWith_first in T; [ | discriminate ]; congruence).
Qed.


(** Invariants of the loop over the lines. *)
Lemma parseLines_invariant (P : Loop -> Prop) lines st :
  P st ->
  Forall (fun line => forall st', P st' -> P (parseLine st' line)) lines ->
  P (fold_left parseLine lines st).
Proof.
  revert st. induction lines as [|l lines IH]; intros st H0 Hs; simpl.
  - exact H0.
  - inversion Hs; subst. apply IH; auto.
Qed.

Lemma parseLine_cases st line :
  let c := commit st in
  let st' := parseLine st line in
  (startsWith line commitPrefix = true /\ exists v, st' = onCommit (set_hash v) st)
  \/ (startsWith line authorPrefix = true /\ exists v, st' = onCommit (set_author v) st)
  \/ (startsWith line datePrefix = true /\ exists v, st' = onCommit (set_date v) st)
  \/ (startsWith line branchesPrefix = true /\ exists v, st' = onCommit (set_branch v) st)
  \/ (isDiffMarker line = true /\ st' = mkLoop c true (diffLines st))
  \/ (isPlain line = true /\ inDiff st = true
      /\ st' = mkLoop c true (diffLines st ++ [line]))
  \/ (isPlain line = true /\ inDiff st = false
      /\ exists v, st' = onCommit (set_message v) st).
Proof.
  intros c st'. subst c st'. unfold parseLine, isPlain, isHeader.
  destruct (startsWith line commitPrefix); [ left; eauto | right ].
  destruct (startsWith line authorPrefix); [ left; eauto | right ].
  destruct (startsWith line datePrefix); [ left; eauto | right ].
  destruct (startsWith line branchesPrefix); [ left; eauto | right ].
  destruct (isDiffMarker line); [ left; eauto | right ].
  destruct (inDiff st) eqn:D; [ left; rewrite <- D at 2; auto | right ].
  repeat split.
  destruct (truthy (trim line) && negb (startsWith line (lit " "))).
  - destruct (truthy (message (commit st))); eauto.
  - destruct (startsWith (trim line) (lit "•") || matches (trim line) indentedWord);
      eauto.
    exists (message (commit st)). destruct st as [[] ? ?]. reflexivity.
Qed.

(** A header field keeps its value over the lines that do not carry
    its prefix. *)
Lemma author_default lines st :
  Forall (fun l => startsWith l authorPrefix = false) lines ->
  author (commit (fold_left parseLine lines st)) = author (commit st).
Proof.
  intros H.
  apply (parseLines_invariant (fun s => author (commit s) = author (commit st)));
    [ reflexivity | ].
  eapply Forall_impl; [ | exact H ]. cbv beta. intros l Hl st' E.
  destruct (parseLine_cases st' l)
    as [[_ [v ->]]|[[? _]|[[_ [v ->]]|[[_ [v ->]]|[[_ ->]|[(_ & _ & ->)|(_ & _ & [v ->])]]]]]];
    try exact E; congruence.
Qed.

Lemma date_default lines st :
  Forall (fun l => startsWith l datePrefix = false) lines ->
  date (commit (fold_left parseLine lines st)) = date (commit st).
Proof.
  intros H.
  apply (parseLines_invariant (fun s => date (commit s) = date (commit st)));
    [ reflexivity | ].
  eapply Forall_impl; [ | exact H ]. cbv beta. intros l Hl st' E.
  destruct (parseLine_cases st' l)
    as [[_ [v ->]]|[[_ [v ->]]|[[? _]|[[_ [v ->]]|[[_ ->]|[(_ & _ & ->)|(_ & _ & [v ->])]]]]]];
    try exact E; congruence.
Qed.

Lemma branch_default lines st :
  Forall (fun l => startsWith l branchesPrefix = false) lines ->
  branch (commit (fold_left parseLine lines st)) = branch (commit st).
Proof.
  intros H.
  apply (parseLines_invariant (fun s => branch (commit s) = branch (commit st)));
    [ reflexivity | ].
  eapply Forall_impl; [ | exact H ]. cbv beta. intros l Hl st' E.
  destruct (parseLine_cases st' l)
    as [[_ [v ->]]|[[_ [v ->]]|[[_ [v ->]]|[[? _]|[[_ ->]|[(_ & _ & ->)|(_ & _ & [v ->])]]]]]];
    try exact E; congruence.
Qed.

Lemma message_default lines st :
  Forall (fun l => isPlain l = false) lines ->
  message (commit (fold_left parseLine lines st)) = message (commit st).
Proof.
  intros H.
  apply (parseLines_invariant (fun s => message (commit s) = message (commit st)));
    [ reflexivity | ].
  eapply Forall_impl; [ | exact H ]. cbv beta. intros l Hl st' E.
  destruct (parseLine_cases st' l)
    as [[_ [v ->]]|[[_ [v ->]]|[[_ [v ->]]|[[_ [v ->]]|[[_ ->]|[(? & _ & ->)|(? & _ & [v ->])]]]]]];
    try exact E; congruence.
Qed.

Lemma diff_default lines st :
  Forall (fun l => isDiffMarker l = false) lines ->
  inDiff st = false ->
  diffLines (fold_left parseLine lines st) = diffLines st
  /\ inDiff (fold_left parseLine lines st) = false.
Proof.
  intros H D.
  apply (parseLines_invariant
           (fun s => diffLines s = diffLines st /\ inDiff s = false));
    [ auto | ].
  eapply Forall_impl; [ | exact H ]. cbv beta. intros l Hl st' [E1 E2].
  destruct (parseLine_cases st' l)
    as [[_ [v ->]]|[[_ [v ->]]|[[_ [v ->]]|[[_ [v ->]]|[[? _]|[(_ & ? & _)|(_ & _ & [v ->])]]]]]];
    auto; congruence.
Qed.

(** The diff text never mentions the record it is stored in. *)
Lemma finish_fields st :
  hash (finish st) = hash (commit st) /\ author (finish st) = author (commit st)
  /\ date (finish st) = date (commit st) /\ message (finish st) = message (commit st)
  /\ branch (finish st) = branch (commit st)
  /\ diff (finish st) = join (lit "
") (diffLines st).
Proof. repeat split. Qed.

(** C10: [parseGitLog] is a total function from strings to sequences
    of records (the empty string gives the empty sequence); every
    record it emits is the record of one block, all six fields of
    which are strings, and a field that no line of the block assigns
    is the empty string: the author, date and branch when no line has
    their prefix, the message when every line has a header or
    diff-marker prefix, the diff when no line is a diff marker. *)
Theorem parseGitLog_total_defaults output r :
  In r (parseGitLog output) ->
  parseGitLog [] = []
  /\ exists block,
      In block (commitBlocks output) /\ r = parseBlock block
      /\ let lines := blockLines block in
         (Forall (fun l => startsWith l authorPrefix = false) lines -> author r = [])
         /\ (Forall (fun l => startsWith l datePrefix = false) lines -> date r = [])
         /\ (Forall (fun l => startsWith l branchesPrefix = false) lines -> branch r = [])
         /\ (Forall (fun l => isPlain l = false) lines -> message r = [])
         /\ (Forall (fun l => isDiffMarker l = false) lines -> diff r = []).
Proof.
  intros H. split; [ reflexivity | ].
  unfold parseGitLog in H. apply in_map_iff in H. destruct H as (block & <- & Hb).
  exists block. split; [ exact Hb | ]. split; [ reflexivity | ].
  intros lines. unfold parseBlock. fold lines.
  destruct (finish_fields (parseLines lines)) as (_ & Ea & Ed & Em & Eb & Ef).
  rewrite Ea, Ed, Em, Eb, Ef. unfold parseLines.
  repeat split; intros F.
  - now rewrite author_default.
  - now rewrite date_default.
  - now rewrite branch_default.
  - now rewrite message_default.
  - destruct (diff_default lines initLoop F eq_refl) as [-> _]. reflexivity.
Qed.

(** In diff mode a plain line is appended to the diff lines as it is. *)
Lemma parseLine_plain_inDiff st line :
  isPlain line = true -> inDiff st = true ->
  parseLine st line = mkLoop (commit st) true (diffLines st ++ [line]).
Proof.
  intros Hp D. unfold isPlain in Hp. apply andb_true_iff in Hp.
  destruct Hp as [Hh Hd]. apply negb_true_iff in Hh, Hd.
  rewrite (parseLine_unprefixed st line Hh), Hd, D. reflexivity.
Qed.

Lemma parseLines_plain_inDiff rest st :
  Forall (fun l => isPlain l = true) rest -> inDiff st = true ->
  fold_left parseLine rest st = mkLoop (commit st) true (diffLines st ++ rest).
Proof.
  revert st. induction rest as [|l rest IH]; intros st F D.
  - simpl. rewrite app_nil_r. destruct st; simpl in *; congruence.
  - inversion F; subst. simpl.
    rewrite (parseLine_plain_inDiff st l) by assumption.
    rewrite IH by auto. simpl. rewrite <- app_assoc. reflexivity.
Qed.

Lemma header_not_plain l : isHeader l = true -> isPlain l = false.
Proof. intros H. unfold isPlain. now rewrite H. Qed.

Lemma marker_not_plain l : isDiffMarker l = true -> isPlain l = false.
Proof. intros H. unfold isPlain. rewrite H. apply andb_false_r. Qed.

Lemma prefixed_is_header l :
  startsWith l commitPrefix = true \/ startsWith l authorPrefix = true
  \/ startsWith l datePrefix = true \/ startsWith l branchesPrefix = true ->
  isHeader l = true.
Proof.
  unfold isHeader. intros [H | [H | [H | H]]]; rewrite H, ?orb_true_r; reflexivity.
Qed.

(** Diff mode is never left: from a state in diff mode, whatever
    the lines, the state stays in diff mode, the plain lines are
    appended to the diff lines as they are and in their order, no
    other line is, the message is kept, and the record changes only
    at lines with a header prefix. *)
Lemma parseLines_inDiff rest : forall st,
  inDiff st = true ->
  inDiff (fold_left parseLine rest st) = true
  /\ diffLines (fold_left parseLine rest st) = diffLines st ++ filter isPlain rest
  /\ message (commit (fold_left parseLine rest st)) = message (commit st)
  /\ (Forall (fun l => isHeader l = false) rest ->
      commit (fold_left parseLine rest st) = commit st).
Proof.
  induction rest as [|l rest IH]; intros st D.
  - cbn [fold_left filter]. rewrite app_nil_r. auto.
  - cbn [fold_left filter].
    assert (K : inDiff (parseLine st l) = true
                /\ diffLines (parseLine st l)
                   = diffLines st ++ (if isPlain l then [l] else [])
                /\ message (commit (parseLine st l)) = message (commit st)
                /\ (isHeader l = false -> commit (parseLine st l) = commit st)).
    { destruct (parseLine_cases st l)
        as [[P [v ->]]|[[P [v ->]]|[[P [v ->]]|[[P [v ->]]
           |[[P ->]|[(P & _ & ->)|(_ & D' & _)]]]]]]; [ .. | congruence ].
      1-4: assert (Hh : isHeader l = true) by (apply prefixed_is_header; auto);
           rewrite (header_not_plain l Hh), app_nil_r;
           repeat split; try assumption; try reflexivity;
           intros Hn; congruence.
      - rewrite (marker_not_plain l P), app_nil_r. repeat split.
      - rewrite P. repeat split. }
    destruct K as (K1 & K2 & K3 & K4).
    destruct (IH (parseLine st l) K1) as (I1 & I2 & I3 & I4).
    split; [ exact I1 | split; [ | split ] ].
    + rewrite I2, K2, <- app_assoc. destruct (isPlain l); reflexivity.
    + now rewrite I3.
    + intros F. inversion F as [|? ? Fl Fr]; subst.
      rewrite (I4 Fr). now apply K4.
Qed.

(** C2, as the code has it: once a line with a diff-marker prefix has
    been seen, the fragment stays in diff mode, whatever the lines
    that follow.  Every following line that has neither a header
    prefix nor a diff-marker prefix is appended to the diff lines, as
    it is and in its order (blank lines included), also when lines
    with a header or a diff-marker prefix come in between; no other
    line is appended; none of the appended lines changes a header
    field or the message.  When the marker is the first of the
    fragment, the diff text is exactly these lines joined by
    newlines. *)
Theorem diff_mode_appends_plain_lines before marker rest :
  isDiffMarker marker = true ->
  let st := parseLines before in
  let st' := parseLines (before ++ marker :: rest) in
  inDiff st' = true
  /\ diffLines st' = diffLines st ++ filter isPlain rest
  /\ message (commit st') = message (commit st)
  /\ (Forall (fun l => isHeader l = false) rest -> commit st' = commit st)
  /\ (Forall (fun l => isPlain l = true) rest ->
      st' = mkLoop (commit st) true (diffLines st ++ rest))
  /\ (Forall (fun l => isDiffMarker l = false) before ->
      diff (finish st') = join (lit "
") (filter isPlain rest))
  /\ (forall st0 line,
         inDiff st0 = true -> isPlain line = true ->
         parseLine st0 line = mkLoop (commit st0) true (diffLines st0 ++ [line])).
Proof.
  intros Hm st st'.
  assert (E : st' = fold_left parseLine rest (mkLoop (commit st) true (diffLines st))).
  { unfold st', parseLines. rewrite fold_left_app. cbn [fold_left].
    fold (parseLines before). fold st.
    now rewrite (parseLine_unprefixed st marker (isDiffMarker_not_header marker Hm)), Hm. }
  destruct (parseLines_inDiff rest (mkLoop (commit st) true (diffLines st)) eq_refl)
    as (I1 & I2 & I3 & I4).
  rewrite <- E in I1, I2, I3, I4. cbn [diffLines commit] in I2, I3, I4.
  split; [ exact I1 | split; [ exact I2 | split; [ exact I3 | split; [ exact I4 | ] ] ] ].
  split; [ | split ].
  - intros Hr. rewrite E.
    exact (parseLines_plain_inDiff rest (mkLoop (commit st) true (diffLines st))
             Hr eq_refl).
  - intros Hb. unfold finish. cbn [diff set_diff]. rewrite I2.
    destruct (diff_default before initLoop Hb eq_refl) as [Db _].
    unfold st, parseLines. rewrite Db. reflexivity.
  - intros st0 line D P. now apply parseLine_plain_inDiff.
Qed.

(** C3, as the code has it: before diff mode, a line whose trimmed
    text begins with the bullet is appended, trimmed and after one
    space, to the message (when the message is still empty and the
    line does not begin with a space, the trimmed line becomes the
    message); a blank line changes nothing. *)
Theorem bullet_line_continues_message st line :
  inDiff st = false ->
  (startsWith (trim line) bullet = true ->
   parseLine st line
   = onCommit
       (set_message
          (if startsWith line (lit " ") || truthy (message (commit st))
           then message (commit st) ++ lit " " ++ trim line
           else trim line)) st)
  /\ (trim line = [] -> parseLine st line = st).
Proof.
  intros D. split.
  - intros B. destruct (bullet_unprefixed line B) as [Hh Hd].
    rewrite (parseLine_unprefixed st line Hh), Hd, D.
    assert (T : truthy (trim line) = true).
    { destruct (trim line); [ discriminate | reflexivity ]. }
    rewrite T. fold bullet. rewrite B.
    destruct (startsWith line (lit " ")); simpl; [ reflexivity | ].
    destruct (truthy (message (commit st))); reflexivity.
  - intros B. destruct (blank_unprefixed line B) as [Hh Hd].
    rewrite (parseLine_unprefixed st line Hh), Hd, D, B. reflexivity.
Qed.

(** *** Counting the records *)

(** No occurrence of the block separator starts inside another one. *)
Lemma blockSeparator_unbordered k r :
  0 < k < List.length blockSeparator ->
  startsWith (skipn k (blockSeparator ++ r)) blockSeparator = false.
Proof.
  intros [Hk Hl]. vm_compute in Hl.
  do 9 (destruct k as [|k]; [ try lia; vm_compute; reflexivity | ]).
  lia.
Qed.

Section SplitCount.

Variable sep : str.
Hypothesis sep_nonempty : sep <> [].
Hypothesis sep_unbordered :
  forall k r, 0 < k < List.length sep -> startsWith (skipn k (sep ++ r)) sep = false.

Lemma startsWith_nil_sep : startsWith [] sep = false.
Proof. destruct sep; [ congruence | reflexivity ]. Qed.

(** [split_go] yields one fragment more than there are occurrences
    of the separator, when none starts in the part still to skip. *)
Lemma split_go_length s :
  forall skip cur,
    (forall j, j < skip -> startsWith (skipn j s) sep = false) ->
    List.length (split_go sep skip cur s) = S (occurrences sep s).
Proof.
  induction s as [|c s IH]; intros skip cur Hskip.
  - simpl. rewrite startsWith_nil_sep. reflexivity.
  - cbn [split_go occurrences]. destruct skip as [|k].
    + destruct (startsWith (c :: s) sep) eqn:E.
      * cbn [List.length]. rewrite IH; [ reflexivity | ].
        intros j Hj. apply startsWith_app in E. destruct E as [r E].
        change (skipn j s) with (skipn (S j) (c :: s)). rewrite E.
        apply sep_unbordered. lia.
      * rewrite IH; [ reflexivity | intros j Hj; lia ].
    + pose proof (Hskip 0 ltac:(lia)) as E0. cbn [skipn] in E0. rewrite E0.
      rewrite IH; [ reflexivity | ].
      intros j Hj. apply (Hskip (S j)). lia.
Qed.

Lemma split_length s : List.length (split s sep) = S (occurrences sep s).
Proof. apply split_go_length. intros j Hj. lia. Qed.

End SplitCount.

Lemma filter_partition {A} (f : A -> bool) l :
  List.length (filter f l) + List.length (filter (fun x => negb (f x)) l)
  = List.length l.
Proof.
  induction l as [|x l IH]; simpl; [ reflexivity | ].
  destruct (f x); simpl; lia.
Qed.

(** C1, as the code has it: the records are the fragments of the text
    cut at the occurrences of the separator (an empty line followed by
    the marker) that are not blank; with [K] occurrences of the
    separator there are [K + 1] fragments, so [K + 1] records less the
    blank fragments. *)
Theorem record_count_is_fragment_count output :
  List.length (parseGitLog output)
  + List.length (filter blank (split output blockSeparator))
  = S (occurrences blockSeparator output)
  /\ List.length (parseGitLog output) <= S (occurrences blockSeparator output).
Proof.
  assert (E : List.length (parseGitLog output)
              + List.length (filter blank (split output blockSeparator))
              = S (occurrences blockSeparator output)).
  { unfold parseGitLog, commitBlocks. rewrite length_map.
    rewrite <- (split_length blockSeparator) with (s := output).
    - apply (filter_partition (fun b => truthy (trim b))).
    - discriminate.
    - exact blockSeparator_unbordered. }
  split; [ exact E | lia ].
Qed.

(** C1 fails as stated: this text has two marker lines, the second
    inside the diff body of the first record, and gives one record. *)
Lemma marker_count_counterexample :
  let output := lit "commit a

fix

diff --git a/f b/f
commit b" in
  markerLines output = 2
  /\ parseGitLog output = [mkCommit (lit "b") [] [] (lit "fix") [] []]
  /\ List.length (parseGitLog output) <> markerLines output.
Proof.
  vm_compute. repeat split. discriminate.
Qed.

(** C2 fails as stated: after the diff marker, the line with the
    author prefix is assigned to the author and the second marker line
    is dropped; neither reaches the diff text. *)
Lemma diff_mode_counterexample :
  let output := lit "commit abc
diff --git a/f b/f
Author: Eve
+++ b/f
kept" in
  parseGitLog output = [mkCommit (lit "abc") (lit "Eve") [] [] [] (lit "kept")]
  /\ ~ (exists r, parseGitLog output = [r]
                  /\ author r = []
                  /\ diff r = lit "Author: Eve
+++ b/f
kept").
Proof.
  split; [ vm_compute; reflexivity | ].
  intros (r & E & Ha & _). vm_compute in E. injection E as <-. discriminate Ha.
Qed.

(** C3 fails as stated: before diff mode, the blank line and the
    indented line are dropped; the message is the subject alone. *)
Lemma continuation_counterexample :
  let st := parseLines [lit "commit abc"; lit "Subject"] in
  inDiff st = false
  /\ parseLine st [] = st
  /\ parseLine st (lit "    body text") = st
  /\ parseGitLog (lit "commit abc
Subject

    body text") = [mkCommit (lit "abc") [] [] (lit "Subject") [] []].
Proof.
  vm_compute. repeat split.
Qed.

Lemma parseGitLog_total_defaults_witness :
  let output := lit "commit abc

Fix bug" in
  let r := mkCommit (lit "abc") [] [] (lit "Fix bug") [] [] in
  In r (parseGitLog output)
  /\ exists block,
      In block (commitBlocks output) /\ r = parseBlock block
      /\ (Forall (fun l => startsWith l authorPrefix = false) (blockLines block)
          -> author r = []).
Proof.
  intros output r.
  assert (H : In r (parseGitLog output)) by (vm_compute; auto).
  split; [ exact H | ].
  destruct (parseGitLog_total_defaults output r H) as (_ & block & Hb & E & Ha & _).
  exists block. auto.
Defined.

Lemma diff_mode_appends_plain_lines_witness :
  let before := [lit "commit abc"; lit "Fix bug"] in
  let marker := lit "diff --git a/f b/f" in
  let rest := [lit "@@ -1 +1 @@"; lit "Author: Eve"; lit ""; lit "+++ b/f"; lit "+new"] in
  isDiffMarker marker = true
  /\ inDiff (parseLines (before ++ marker :: rest)) = true
  /\ diffLines (parseLines (before ++ marker :: rest))
     = [lit "@@ -1 +1 @@"; lit ""; lit "+new"].
Proof.
  intros before marker rest.
  assert (Hm : isDiffMarker marker = true) by reflexivity.
  split; [ exact Hm | ].
  destruct (diff_mode_appends_plain_lines before marker rest Hm) as (H1 & H2 & _).
  split; [ exact H1 | ].
  rewrite H2. reflexivity.
Defined.

Lemma bullet_line_continues_message_witness :
  let st := parseLines [lit "commit abc"; lit "Subject"] in
  inDiff st = false
  /\ parseLine st (lit "  • item")
     = onCommit (set_message (lit "Subject • item")) st.
Proof.
  intros st.
  assert (D : inDiff st = false) by reflexivity.
  split; [ exact D | ].
  exact (proj1 (bullet_line_continues_message st (lit "  • item") D) eq_refl).
Defined.

(* ================================================================== *)
(** ** Soundness of the scanner                                        *)
(* ================================================================== *)

Lemma firstn_succ_snoc {A} (l : list A) k d :
  k < List.length l -> firstn (S k) l = firstn k l ++ [nth k l d].
Proof.
  revert k. induction l as [|x l IH]; intros k H; simpl in H; [ lia | ].
  destruct k as [|k]; [ reflexivity | ].
  change (x :: firstn (S k) l = (x :: firstn k l) ++ [nth k l d]).
  rewrite (IH k) by lia. reflexivity.
Qed.

Lemma nth_last {A} (l : list A) k d :
  S k = List.length l -> nth k l d = last l d.
Proof.
  revert k. induction l as [|x l IH]; intros k H; simpl in H; [ lia | ].
  destruct l as [|y l].
  - simpl in H. assert (k = 0) by lia. subst. reflexivity.
  - destruct k as [|k]; [ simpl in H; lia | ].
    change (nth k (y :: l) d = last (y :: l) d).
    apply IH. simpl in *; lia.
Qed.

Section ScannerSound.

Variable needle : str.
Hypothesis needle_nonempty : needle <> [].

Lemma occurs_snoc s c :
  occurs needle (s ++ [c]) -> occurs needle s \/ endsWith (s ++ [c]) needle.
Proof.
  intros (a & b & E).
  destruct (rev b) as [|x b'] eqn:R.
  - right. exists a. apply (f_equal (@rev _)) in R. rewrite rev_involutive in R.
    subst b. rewrite E, app_nil_r. reflexivity.
  - left. apply (f_equal (@rev _)) in R. rewrite rev_involutive in R.
    simpl in R. subst b. exists a, (rev b').
    rewrite !app_assoc in E. apply app_inj_tail in E. destruct E as [E _].
    rewrite E, <- app_assoc. reflexivity.
Qed.

Lemma endsWith_snoc s c k :
  k < List.length needle ->
  endsWith (s ++ [c]) (firstn (S k) needle) ->
  endsWith s (firstn k needle) /\ c = nth k needle 0%N.
Proof.
  intros Hk [a E]. rewrite (firstn_succ_snoc needle k 0%N Hk) in E.
  rewrite app_assoc in E. apply app_inj_tail in E. destruct E as [E1 E2].
  split; [ exists a; exact E1 | exact E2 ].
Qed.

Lemma covers_nil : covers needle [0] [].
Proof.
  split.
  - intros (a & b & E). symmetry in E. apply app_eq_nil in E. destruct E as [_ E].
    apply app_eq_nil in E. destruct E as [E _]. contradiction.
  - intros k Hk [a E]. symmetry in E. apply app_eq_nil in E. destruct E as [_ E].
    destruct k as [|k]; [ left; reflexivity | ].
    destruct needle; [ contradiction | discriminate ].
Qed.

Lemma covers_clean st s : covers needle st s -> ~ occurs needle s.
Proof. intros [H _]. exact H. Qed.

Lemma covers_weaken st st' s : covers needle st s -> incl st st' -> covers needle st' s.
Proof. intros [H1 H2] I. split; [ exact H1 | intros k Hk E; apply I; auto ]. Qed.

Lemma covers_top st s : covers needle st s -> covers needle (top needle) s.
Proof.
  intros [H1 _]. split; [ exact H1 | ].
  intros k Hk _. apply in_seq. lia.
Qed.

Lemma advance_sound st s c :
  covers needle st s -> hit needle st c = false -> covers needle (advance needle st c) (s ++ [c]).
Proof.
  intros [H1 H2] Hh. split.
  - intros O. apply occurs_snoc in O. destruct O as [O | O]; [ exact (H1 O) | ].
    destruct (List.length needle) as [|k] eqn:L.
    { destruct needle; [ contradiction | discriminate ]. }
    rewrite <- (firstn_all needle), L in O.
    apply endsWith_snoc in O; [ | lia ]. destruct O as [O1 O2].
    assert (I : In k st) by (apply H2; [ lia | exact O1 ]).
    unfold hit in Hh.
    assert (X : existsb (fun k0 => (S k0 =? List.length needle)
                                   && ceq (nth k0 needle 0%N) c) st = true).
    { apply existsb_exists. exists k. split; [ exact I | ].
      rewrite L, Nat.eqb_refl, <- O2. apply ceq_refl. }
    congruence.
  - intros k Hk E. destruct k as [|k]; [ left; reflexivity | right ].
    apply endsWith_snoc in E; [ | lia ]. destruct E as [E1 E2].
    apply in_map, filter_In. split.
    + apply H2; [ lia | exact E1 ].
    + rewrite <- E2. apply ceq_refl.
Qed.

Lemma step_sound st st' s c :
  covers needle st s -> step needle st c = Some st' -> covers needle st' (s ++ [c]).
Proof.
  intros C E. unfold step in E. destruct (hit needle st c) eqn:Hh; [ discriminate | ].
  injection E as <-. now apply advance_sound.
Qed.

Lemma scan_sound t : forall st st' s,
  covers needle st s -> scan needle st t = Some st' -> covers needle st' (s ++ t).
Proof.
  induction t as [|c t IH]; intros st st' s C E; simpl in E.
  - injection E as <-. now rewrite app_nil_r.
  - destruct (step needle st c) as [st1|] eqn:E1; [ | discriminate ].
    replace (s ++ c :: t) with ((s ++ [c]) ++ t) by (rewrite <- app_assoc; reflexivity).
    eapply IH; [ | exact E ]. eapply step_sound; eauto.
Qed.

(** A text without the last code unit of the needle completes no
    occurrence. *)
Lemma free_no_hit st c :
  ceq (lastUnit needle) c = false -> hit needle st c = false.
Proof.
  intros F. unfold hit.
  destruct (existsb _ st) eqn:X; [ | reflexivity ].
  apply existsb_exists in X. destruct X as (k & _ & X).
  apply andb_true_iff in X. destruct X as [X1 X2].
  apply Nat.eqb_eq in X1. rewrite (nth_last needle k 0%N X1) in X2.
  unfold lastUnit in F. congruence.
Qed.

Lemma free_sound e : forall st s,
  covers needle st s -> Forall (fun c => ceq (lastUnit needle) c = false) e ->
  covers needle (top needle) (s ++ e).
Proof.
  induction e as [|c e IH]; intros st s C F.
  - rewrite app_nil_r. eapply covers_top; eauto.
  - inversion F; subst.
    replace (s ++ c :: e) with ((s ++ [c]) ++ e) by (rewrite <- app_assoc; reflexivity).
    apply (IH (advance needle st c)); [ | assumption ].
    apply advance_sound; [ exact C | now apply free_no_hit ].
Qed.

Lemma bound_cons x st : bound (x :: st) = Nat.max x (bound st).
Proof. reflexivity. Qed.

Lemma bound_ge st k : In k st -> k <= bound st.
Proof.
  induction st as [|x st IH]; [ contradiction | ].
  rewrite bound_cons. intros [-> | H]; [ lia | ]. specialize (IH H). lia.
Qed.

Lemma bound_map_S st : bound (map S st) <= S (bound st).
Proof.
  induction st as [|x st IH]; [ simpl; lia | ].
  cbn [map]. rewrite !bound_cons. lia.
Qed.

Lemma bound_filter f st : bound (filter f st) <= bound st.
Proof.
  induction st as [|x st IH]; [ simpl; lia | ].
  cbn [filter]. destruct (f x); rewrite !bound_cons; lia.
Qed.

Lemma bound_advance st c : bound (advance needle st c) <= S (bound st).
Proof.
  unfold advance.
  change (bound (map S (filter (fun k => ceq (nth k needle 0%N) c) st))
          <= S (bound st)).
  pose proof (bound_map_S (filter (fun k => ceq (nth k needle 0%N) c) st)).
  pose proof (bound_filter (fun k => ceq (nth k needle 0%N) c) st).
  lia.
Qed.

Lemma short_no_hit st c :
  S (bound st) < List.length needle -> hit needle st c = false.
Proof.
  intros B. unfold hit.
  destruct (existsb _ st) eqn:X; [ | reflexivity ].
  apply existsb_exists in X. destruct X as (k & I & X).
  apply andb_true_iff in X. destruct X as [X1 _].
  apply Nat.eqb_eq in X1. apply bound_ge in I. lia.
Qed.

(** A text of at most [n] code units moves the scanner by at most
    [n]. *)
Lemma short_sound h : forall n st s,
  covers needle st s -> List.length h <= n -> bound st + n < List.length needle ->
  covers needle (seq 0 (S (bound st + n))) (s ++ h).
Proof.
  induction h as [|c h IH]; intros n st s C L B.
  - rewrite app_nil_r. apply (covers_weaken st); [ exact C | ].
    intros k I. apply bound_ge in I. apply in_seq. lia.
  - simpl in L. destruct n as [|n]; [ lia | ].
    replace (s ++ c :: h) with ((s ++ [c]) ++ h) by (rewrite <- app_assoc; reflexivity).
    pose proof (bound_advance st c) as BA.
    apply (covers_weaken (seq 0 (S (bound (advance needle st c) + n)))).
    + apply IH; [ | lia | lia ].
      apply advance_sound; [ exact C | apply short_no_hit; lia ].
    + intros k I. apply in_seq in I. apply in_seq. lia.
Qed.

Lemma scanPiece_sound p st st' s :
  wellFormed needle p -> covers needle st s -> scanPiece needle st p = Some st' ->
  covers needle st' (s ++ textOf p).
Proof.
  destruct p as [t | e | n h]; simpl; intros W C E.
  - eapply scan_sound; eauto.
  - injection E as <-. eapply free_sound; eauto.
  - destruct (bound st + n <? List.length needle) eqn:B; [ | discriminate ].
    injection E as <-. apply Nat.ltb_lt in B. now apply short_sound.
Qed.

Lemma scanPieces_sound ps : forall st st' s,
  Forall (wellFormed needle) ps -> covers needle st s ->
  scanPieces needle st ps = Some st' ->
  covers needle st' (s ++ List.concat (map textOf ps)).
Proof.
  induction ps as [|p ps IH]; intros st st' s W C E; simpl in E.
  - injection E as <-. simpl. now rewrite app_nil_r.
  - destruct (scanPiece needle st p) as [st1|] eqn:E1; [ | discriminate ].
    inversion W; subst. cbn [map List.concat]. rewrite app_assoc.
    eapply IH; [ assumption | | exact E ].
    eapply scanPiece_sound; eauto.
Qed.

(** The needle does not occur in a text made of pieces that the
    scanner passes from the start. *)
Lemma pieces_start ps :
  Forall (wellFormed needle) ps ->
  passes needle [0] ps = true ->
  covers needle (top needle) (List.concat (map textOf ps)).
Proof.
  intros W E. unfold passes in E.
  destruct (scanPieces needle [0] ps) as [st'|] eqn:E'; [ | discriminate ].
  apply (covers_top st').
  apply (scanPieces_sound ps [0] st' [] W covers_nil E').
Qed.

Lemma pieces_clean ps :
  Forall (wellFormed needle) ps ->
  passes needle [0] ps = true ->
  ~ occurs needle (List.concat (map textOf ps)).
Proof.
  intros W E. apply (covers_clean (top needle)). now apply pieces_start.
Qed.

(** Pieces that the scanner passes from any state extend a clean
    text to a clean text. *)
Lemma pieces_extend ps s :
  Forall (wellFormed needle) ps ->
  passes needle (top needle) ps = true ->
  covers needle (top needle) s ->
  covers needle (top needle) (s ++ List.concat (map textOf ps)).
Proof.
  intros W E C. unfold passes in E.
  destruct (scanPieces needle (top needle) ps) as [st'|] eqn:E'; [ | discriminate ].
  apply (covers_top st'). eapply scanPieces_sound; eauto.
Qed.

Lemma fixed_extend t s :
  passes needle (top needle) [Fixed t] = true ->
  covers needle (top needle) s -> covers needle (top needle) (s ++ t).
Proof.
  intros E C.
  assert (W : Forall (wellFormed needle) [Fixed t])
    by (constructor; [ exact I | constructor ]).
  pose proof (pieces_extend [Fixed t] s W E C) as H.
  cbn [map List.concat textOf] in H. now rewrite app_nil_r in H.
Qed.

End ScannerSound.

(* ================================================================== *)
(** ** Properties of the renderer                                      *)
(* ================================================================== *)

(** *** Occurrences *)

Lemma occurs_refl n : occurs n n.
Proof. exists [], []. simpl. now rewrite app_nil_r. Qed.

Lemma occurs_app_r n p t : occurs n t -> occurs n (p ++ t).
Proof.
  intros (a & b & ->). exists (p ++ a), b. now rewrite <- app_assoc.
Qed.

Lemma occurs_app_l n t q : occurs n t -> occurs n (t ++ q).
Proof.
  intros (a & b & ->). exists a, (b ++ q). now rewrite <- !app_assoc.
Qed.

Lemma occurs_trans a b c : occurs a b -> occurs b c -> occurs a c.
Proof.
  intros (x & y & ->) (u & v & ->).
  exists (u ++ x), (y ++ v). now rewrite <- !app_assoc.
Qed.

Lemma includes_occurs s needle : includes s needle = true <-> occurs needle s.
Proof.
  induction s as [|c s IH].
  - simpl. rewrite orb_false_r, startsWith_app. split.
    + intros [r E]. exists [], r. exact E.
    + intros (a & b & E). destruct a; [ exists b; exact E | discriminate ].
  - cbn [includes]. rewrite orb_true_iff, startsWith_app, IH. split.
    + intros [[r E] | O].
      * exists [], r. exact E.
      * now apply (occurs_app_r needle [c] s).
    + intros (a & b & E). destruct a as [|x a].
      * left. exists b. exact E.
      * right. injection E as _ E. exists a, b. exact E.
Qed.

(** A value between two literals occurs with the end of the first and
    the start of the second. *)
Lemma occurs_framed a v b post x1 x2 :
  startsWith (rev a) (rev x1) = true -> startsWith b x2 = true ->
  occurs (x1 ++ v ++ x2) (a ++ v ++ b ++ post).
Proof.
  intros Ha Hb. apply startsWith_app in Ha, Hb.
  destruct Ha as [ra Ea], Hb as [rb ->].
  apply (f_equal (@rev _)) in Ea. rewrite rev_involutive, rev_app_distr, rev_involutive in Ea.
  subst a. exists (rev ra), (rb ++ post). now rewrite <- !app_assoc.
Qed.

Lemma join_nil_cons x l : join [] (x :: l) = x ++ join [] l.
Proof. destruct l; simpl; [ now rewrite app_nil_r | reflexivity ]. Qed.

Lemma occurs_join_member x l : In x l -> occurs x (join [] l).
Proof.
  induction l as [|y l IH]; [ contradiction | ].
  rewrite join_nil_cons. intros [-> | H].
  - apply occurs_app_l, occurs_refl.
  - apply occurs_app_r, IH, H.
Qed.

(** *** The interpolated values *)

Lemma escapeChar_safe c :
  Forall (fun x => existsb (ceq x) specials = false) (escapeChar c).
Proof.
  unfold escapeChar.
  destruct (ceq c (ch "&")) eqn:E1; [ repeat constructor | ].
  destruct (ceq c (ch "<")) eqn:E2; [ repeat constructor | ].
  destruct (ceq c (ch ">")) eqn:E3; [ repeat constructor | ].
  destruct (ceq c (ch "'")) eqn:E4; [ repeat constructor | ].
  destruct (ceq c 34%N) eqn:E5; [ repeat constructor | ].
  constructor; [ | constructor ].
  cbn [existsb specials]. rewrite E2, E3, E4, E5. reflexivity.
Qed.

(** The output of [escapeHTML] holds none of [<], [>], ['] and the
    double quote. *)
Lemma escapeHTML_safe s :
  Forall (fun x => existsb (ceq x) specials = false) (escapeHTML s).
Proof.
  induction s as [|c s IH]; [ constructor | ].
  unfold escapeHTML. cbn [flat_map]. apply Forall_app. split.
  - apply escapeChar_safe.
  - exact IH.
Qed.

Lemma escapeHTML_no_gt s : Forall (fun c => ceq 62%N c = false) (escapeHTML s).
Proof.
  eapply Forall_impl; [ | apply escapeHTML_safe ].
  intros c H. cbn [existsb specials] in H.
  rewrite !orb_false_iff in H. destruct H as (_ & H & _).
  unfold ceq in *. rewrite N.eqb_sym. exact H.
Qed.

Lemma digits_of_uint d :
  Forall (fun c => isDigit c = true) (lit (NilEmpty.string_of_uint d)).
Proof.
  induction d; [ constructor | .. ]; constructor; (reflexivity || exact IHd).
Qed.

Lemma ofNat_digits n : Forall (fun c => isDigit c = true) (ofNat n).
Proof.
  unfold ofNat, NilZero.string_of_uint.
  destruct (Nat.to_uint n) eqn:E; try (rewrite <- E; apply digits_of_uint).
  repeat constructor.
Qed.

Lemma ofNat_no_gt n : Forall (fun c => ceq 62%N c = false) (ofNat n).
Proof.
  eapply Forall_impl; [ | apply ofNat_digits ].
  intros c H. unfold isDigit in H. apply andb_true_iff in H. destruct H as [H1 H2].
  apply N.leb_le in H1, H2. apply N.eqb_neq. lia.
Qed.

Lemma plural_no_gt n : Forall (fun c => ceq 62%N c = false) (plural n).
Proof. unfold plural. destruct (negb (n =? 1)); repeat constructor. Qed.

(** [split(',')[0]] is the text before the first comma. *)
Lemma split_comma_first s : forall cur,
  hd [] (split_go (lit ",") 0 cur s) = rev cur ++ firstToken s.
Proof.
  induction s as [|c s IH]; intros cur.
  - simpl. now rewrite app_nil_r.
  - cbn [split_go firstToken].
    change (startsWith (c :: s) (lit ",")) with (ceq (ch ",") c && true).
    rewrite andb_true_r. unfold ceq at 1. rewrite N.eqb_sym. fold (ceq c (ch ",")).
    destruct (ceq c (ch ",")).
    + simpl. now rewrite app_nil_r.
    + rewrite IH. simpl. now rewrite <- app_assoc.
Qed.

Lemma first_token_is_split s : hd [] (split s (lit ",")) = firstToken s.
Proof. unfold split. now rewrite split_comma_first. Qed.

(** *** The cards *)

Lemma commitCard_pieces total commit index :
  commitCard total commit index
  = List.concat (map textOf (cardPieces total commit index)).
Proof.
  unfold commitCard, cardPieces, branchElement, diffSection, branchPieces, diffPieces.
  generalize cardOpen, cardToHash, cardAfterHash, branchOpen, branchClose,
    cardToDate, cardToMessage, cardToAuthor, cardToDiff, diffOpen, diffClose,
    cardClose.
  intros a0 a1 a2 b0 b1 a3 a4 a5 a6 d0 d1 a7.
  destruct (truthy (branch commit)), (truthy (diff commit));
    cbn [map List.concat textOf app]; rewrite ?app_nil_r, <- ?app_assoc; reflexivity.
Qed.

Ltac needle_nonempty := let H := fresh in intro H; vm_compute in H; discriminate H.

Ltac well_formed :=
  repeat (apply Forall_cons || apply Forall_nil);
  cbn [wellFormed];
  first [ exact I
        | exact (escapeHTML_no_gt _)
        | exact (ofNat_no_gt _)
        | exact (plural_no_gt _)
        | apply firstn_le_length ].

Ltac scanned := vm_compute; reflexivity.

Lemma cardPieces_well_formed needle total commit index :
  lastUnit needle = 62%N ->
  Forall (wellFormed needle) (cardPieces total commit index).
Proof.
  intros L. unfold cardPieces, branchPieces, diffPieces.
  destruct (truthy (branch commit)), (truthy (diff commit));
    repeat (apply Forall_cons || apply Forall_nil || apply Forall_app || split);
    cbn [wellFormed]; rewrite ?L;
    first [ exact I
          | apply escapeHTML_no_gt
          | apply ofNat_no_gt
          | apply firstn_le_length ].
Qed.

(** A card never completes, nor helps to complete, an occurrence of
    the crafted summary. *)
Lemma card_extends_clean total commit index s :
  covers scriptPayload (top scriptPayload) s ->
  covers scriptPayload (top scriptPayload) (s ++ commitCard total commit index).
Proof.
  intros C. rewrite commitCard_pieces.
  apply pieces_extend; [ needle_nonempty | now apply cardPieces_well_formed | | exact C ].
  unfold cardPieces, branchPieces, diffPieces.
  destruct (truthy (branch commit)), (truthy (diff commit)); scanned.
Qed.

Lemma cards_extend_clean total cards : forall index s,
  covers scriptPayload (top scriptPayload) s ->
  covers scriptPayload (top scriptPayload)
         (s ++ join [] (mapi_from (commitCard total) index cards)).
Proof.
  induction cards as [|c cards IH]; intros index s C.
  - simpl. now rewrite app_nil_r.
  - cbn [mapi_from]. rewrite join_nil_cons, app_assoc.
    apply IH. now apply card_extends_clean.
Qed.

(** *** The documents *)

Lemma empty_document_pieces title :
  formatCommitsHTML [] title = List.concat (map textOf (emptyPieces title)).
Proof.
  unfold formatCommitsHTML, emptyPieces.
  generalize emptyHead, emptyStyle, emptyTail. intros e0 e1 e2.
  cbn [map List.concat textOf]. now rewrite app_nil_r.
Qed.

Lemma document_pieces c cs title :
  formatCommitsHTML (c :: cs) title
  = List.concat (map textOf (docOpenPieces (List.length (c :: cs)) title))
      ++ join [] (commitCards (c :: cs)) ++ docTail.
Proof.
  unfold formatCommitsHTML, docOpenPieces. cbv zeta.
  generalize (join [] (commitCards (c :: cs))), (List.length (c :: cs)).
  generalize docHead, docStyle, docStats, docCommitWord, docToList, docTail.
  intros d0 d1 d2 d3 d4 d5 cards n.
  cbn [map List.concat textOf]. rewrite app_nil_r, <- !app_assoc. reflexivity.
Qed.

Lemma docOpenPieces_well_formed n title :
  Forall (wellFormed scriptPayload) (docOpenPieces n title).
Proof. unfold docOpenPieces. well_formed. Qed.

Lemma emptyPieces_well_formed title :
  Forall (wellFormed scriptPayload) (emptyPieces title).
Proof. unfold emptyPieces. well_formed. Qed.

(** The crafted summary occurs in no rendered document, whatever the
    records and the title. *)
Lemma document_clean commits title :
  ~ occurs scriptPayload (formatCommitsHTML commits title).
Proof.
  destruct commits as [|c cs].
  - rewrite empty_document_pieces.
    apply pieces_clean; [ needle_nonempty | apply emptyPieces_well_formed | scanned ].
  - rewrite document_pieces.
    assert (N : scriptPayload <> []) by needle_nonempty.
    rewrite app_assoc.
    apply (covers_clean scriptPayload (top scriptPayload)).
    apply (fixed_extend scriptPayload N); [ scanned | ].
    unfold commitCards, mapi. apply cards_extend_clean.
    apply pieces_start; [ exact N | apply docOpenPieces_well_formed | scanned ].
Qed.

Lemma in_mapi_from {A B} (f : A -> nat -> B) l : forall k x,
  In x l -> exists i, In (f x i) (mapi_from f k l).
Proof.
  induction l as [|y l IH]; intros k x H; [ contradiction | ].
  destruct H as [-> | H].
  - exists k. left. reflexivity.
  - destruct (IH (S k) x H) as [i Hi]. exists i. right. exact Hi.
Qed.

Lemma nth_error_mapi_from {A B} (f : A -> nat -> B) l : forall k i x,
  nth_error l i = Some x -> nth_error (mapi_from f k l) i = Some (f x (k + i)).
Proof.
  induction l as [|y l IH]; intros k i x H; destruct i as [|i]; try discriminate.
  - injection H as ->. simpl. now rewrite Nat.add_0_r.
  - simpl in *. rewrite (IH (S k) i x H). f_equal. f_equal. lia.
Qed.

Lemma cards_in_document c cs title :
  occurs (join [] (commitCards (c :: cs))) (formatCommitsHTML (c :: cs) title).
Proof.
  rewrite document_pieces. apply occurs_app_r, occurs_app_l, occurs_refl.
Qed.

Lemma message_in_card total commit index :
  occurs (messageOpen ++ escapeHTML (message commit) ++ messageClose)
         (commitCard total commit index).
Proof.
  unfold commitCard. do 8 apply occurs_app_r.
  apply occurs_framed; scanned.
Qed.

(** C5: when a record has the summary [<script>alert(1)</script>],
    the rendered document contains no occurrence of that text; the
    summary is embedded in its escaped form, which holds none of [<],
    [>], ['] and the double quote. *)
Theorem script_payload_is_escaped commits title commit :
  In commit commits ->
  message commit = scriptPayload ->
  ~ occurs scriptPayload (formatCommitsHTML commits title)
  /\ occurs (messageOpen ++ lit "&lt;script&gt;alert(1)&lt;/script&gt;" ++ messageClose)
            (formatCommitsHTML commits title)
  /\ Forall (fun c => existsb (ceq c) specials = false) (escapeHTML (message commit)).
Proof.
  intros Hin Hm. split; [ apply document_clean | split; [ | apply escapeHTML_safe ] ].
  destruct commits as [|c cs]; [ contradiction | ].
  apply (occurs_trans _ (join [] (commitCards (c :: cs)))); [ | apply cards_in_document ].
  destruct (in_mapi_from (commitCard (List.length (c :: cs))) (c :: cs) 0 commit Hin)
    as [i Hi].
  apply (occurs_trans _ (commitCard (List.length (c :: cs)) commit i)).
  - pose proof (message_in_card (List.length (c :: cs)) commit i) as M.
    rewrite Hm in M. exact M.
  - apply occurs_join_member. exact Hi.
Qed.

(** *** The blocks *)

Lemma number_in_card total commit index :
  occurs (numberOpen ++ ofNat (total - index) ++ spanClose)
         (commitCard total commit index).
Proof. unfold commitCard. apply occurs_framed; scanned. Qed.

Lemma hash_in_card total commit index :
  occurs (hashOpen ++ firstn 7 (hash commit) ++ codeClose)
         (commitCard total commit index).
Proof.
  unfold commitCard, substring0. do 2 apply occurs_app_r.
  apply occurs_framed; scanned.
Qed.

Lemma branch_in_card total commit index :
  branch commit <> [] ->
  occurs (branchOpen ++ escapeHTML (trim (firstToken (branch commit))) ++ branchClose)
         (commitCard total commit index).
Proof.
  intros Hb. apply truthy_nonempty in Hb.
  unfold commitCard, branchElement. rewrite Hb, first_token_is_split.
  do 5 apply occurs_app_r. apply occurs_app_l, occurs_refl.
Qed.

Lemma no_branch_in_card total commit index :
  branch commit = [] -> ~ occurs branchTag (commitCard total commit index).
Proof.
  intros Hb. rewrite commitCard_pieces.
  apply pieces_clean;
    [ needle_nonempty | apply cardPieces_well_formed; reflexivity | ].
  unfold cardPieces, branchPieces, diffPieces. rewrite Hb. cbn [truthy].
  destruct (truthy (diff commit)); scanned.
Qed.

Lemma diff_in_card total commit index :
  diff commit <> [] ->
  occurs (diffOpen ++ escapeHTML (diff commit) ++ diffClose)
         (commitCard total commit index).
Proof.
  intros Hd. apply truthy_nonempty in Hd.
  unfold commitCard, diffSection. rewrite Hd.
  do 13 apply occurs_app_r. apply occurs_app_l, occurs_refl.
Qed.

Lemma diffTag_in_diffOpen : occurs diffTag diffOpen.
Proof. apply includes_occurs. scanned. Qed.

Lemma no_diff_in_card total commit index :
  diff commit = [] -> ~ occurs diffTag (commitCard total commit index).
Proof.
  intros Hd. rewrite commitCard_pieces.
  apply pieces_clean;
    [ needle_nonempty | apply cardPieces_well_formed; reflexivity | ].
  unfold cardPieces, branchPieces, diffPieces. rewrite Hd. cbn [truthy].
  destruct (truthy (branch commit)); scanned.
Qed.

(** C8: in the document of a non-empty sequence of records, the
    block of the record at index [i] shows the sequence number
    [totalCount - i] and the first seven code units of the revision
    identifier; it shows the first comma-separated token of the
    branch label (trimmed and escaped) when the label is not empty and
    has no branch element when it is empty; and it has the expandable
    diff section, around the escaped diff text, exactly when the diff
    text is not empty.  The blocks are in the document in the order
    of the records. *)
Theorem block_of_record commits title i commit :
  nth_error commits i = Some commit ->
  let totalCount := List.length commits in
  let block := commitCard totalCount commit i in
  nth_error (commitCards commits) i = Some block
  /\ occurs (join [] (commitCards commits)) (formatCommitsHTML commits title)
  /\ occurs (numberOpen ++ ofNat (totalCount - i) ++ spanClose) block
  /\ occurs (hashOpen ++ firstn 7 (hash commit) ++ codeClose) block
  /\ (branch commit <> [] ->
      occurs (branchOpen ++ escapeHTML (trim (firstToken (branch commit))) ++ branchClose)
             block)
  /\ (branch commit = [] -> ~ occurs branchTag block)
  /\ (diff commit <> [] ->
      occurs (diffOpen ++ escapeHTML (diff commit) ++ diffClose) block)
  /\ (occurs diffTag block <-> diff commit <> []).
Proof.
  intros Hn totalCount block.
  split; [ | split; [ | split; [ | split; [ | split; [ | split; [ | split ] ] ] ] ] ].
  - unfold commitCards, mapi.
    rewrite (nth_error_mapi_from (commitCard (List.length commits)) commits 0 i commit Hn).
    reflexivity.
  - destruct commits as [|c cs]; [ destruct i; discriminate | ].
    apply cards_in_document.
  - apply number_in_card.
  - apply hash_in_card.
  - apply branch_in_card.
  - apply no_branch_in_card.
  - apply diff_in_card.
  - split.
    + intros O E. exact (no_diff_in_card totalCount commit i E O).
    + intros Hd. apply (occurs_trans _ (diffOpen ++ escapeHTML (diff commit) ++ diffClose)).
      * apply occurs_app_l, diffTag_in_diffOpen.
      * now apply diff_in_card.
Qed.

Lemma block_of_record_witness :
  let c1 := mkCommit (lit "abc1234def") (lit "Jane") (lit "2 days ago")
                     (lit "Fix bug") (lit "main, origin/main") (lit "+new") in
  let c2 := mkCommit (lit "9990000111") (lit "Bob") (lit "3 days ago")
                     (lit "Init") [] [] in
  nth_error [c1; c2] 1 = Some c2
  /\ occurs (numberOpen ++ lit "1" ++ spanClose) (commitCard 2 c2 1)
  /\ occurs (hashOpen ++ lit "9990000" ++ codeClose) (commitCard 2 c2 1)
  /\ ~ occurs branchTag (commitCard 2 c2 1).
Proof.
  intros c1 c2.
  pose proof (block_of_record [c1; c2] (lit "History") 1 c2 eq_refl) as H.
  destruct H as (_ & _ & Hnum & Hhash & _ & Hb & _).
  split; [ reflexivity | split; [ exact Hnum | split; [ exact Hhash | ] ] ].
  apply Hb. reflexivity.
Defined.

Lemma script_payload_is_escaped_witness :
  In payloadCommit [payloadCommit] /\ message payloadCommit = scriptPayload
  /\ ~ occurs scriptPayload (formatCommitsHTML [payloadCommit] (lit "History")).
Proof.
  assert (Hin : In payloadCommit [payloadCommit]) by (left; reflexivity).
  assert (Hm : message payloadCommit = scriptPayload) by reflexivity.
  split; [ exact Hin | split; [ exact Hm | ] ].
  destruct (script_payload_is_escaped [payloadCommit] (lit "History") payloadCommit Hin Hm)
    as [H _].
  exact H.
Defined.

(** C4 fails on the code: the revision identifier is interpolated
    without [escapeHTML].  The output [commit <img>] of the tool gives
    a record whose identifier is [<img>], and the document shows it
    raw, not in its escaped form. *)
Theorem hash_is_not_escaped :
  let commits := parseGitLog (lit "commit <img>") in
  let document := formatCommitsHTML commits (lit "History") in
  commits = [mkCommit (lit "<img>") [] [] [] [] []]
  /\ occurs (hashOpen ++ lit "<img>" ++ codeClose) document
  /\ escapeHTML (lit "<img>") = lit "&lt;img&gt;"
  /\ ~ occurs (lit "&lt;img&gt;") document.
Proof.
  intros commits document.
  split; [ scanned | split; [ | split; [ scanned | ] ] ].
  - apply includes_occurs. scanned.
  - intros O. apply (proj2 (includes_occurs _ _)) in O.
    vm_compute in O. discriminate O.
Qed.

(* ================================================================== *)
(** ** Properties of the cursor heuristic                              *)
(* ================================================================== *)

(** C9: on the line [function calculateTotal(items) {] the heuristic
    answers [calculateTotal]; on the line [const x = 5;] no pattern of
    the list matches and it answers nothing. *)
Theorem guessSymbolName_scenario :
  guessSymbolName (lit "function calculateTotal(items) {") = Some (lit "calculateTotal")
  /\ guessSymbolName (lit "const x = 5;") = None
  /\ Forall (fun p => match_ (lit "const x = 5;") p = None) patterns.
Proof.
  split; [ | split ].
  - vm_compute. reflexivity.
  - vm_compute. reflexivity.
  - repeat constructor.
Qed.

(* ================================================================== *)
(** ** Properties of the history queries                               *)
(* ================================================================== *)

(** The command a range query runs is the text of the source:
    [git log], the format, [-L start,end:] and the quoted path. *)
Lemma rangeCommand_text startLine endLine rel :
  lit "git " ++ rangeArgs startLine endLine rel = rangeCommand startLine endLine rel.
Proof.
  unfold rangeArgs, rangeCommand, prettyFormat.
  generalize (ofNat startLine), (ofNat endLine). intros a b.
  vm_compute. reflexivity.
Qed.

Section QueryProperties.

Variable World : Type.
Variable execSync : str -> str -> World -> (str + str) * World.
Variable dirname : str -> str.
Variable relative : str -> str -> str.

Let getGitRoot := getGitRoot execSync dirname.
Let getLineHistory := getLineHistory execSync dirname relative.
Let getFunctionHistory := getFunctionHistory execSync dirname relative.
Let searchCodeHistory := searchCodeHistory execSync dirname relative.

Lemma getGitRoot_failure filePath s msg w :
  execSync revParse (dirname filePath) (world s) = (inl msg, w) ->
  getGitRoot filePath s
  = (Ok None, mkSys w (calls s ++ [mkCall revParse (dirname filePath)])).
Proof.
  intros E. unfold getGitRoot, History.getGitRoot, try_catch, bind, runExecSync.
  fold revParse. rewrite E. reflexivity.
Qed.

Lemma getGitRoot_success filePath s output w :
  execSync revParse (dirname filePath) (world s) = (inr output, w) ->
  getGitRoot filePath s
  = (Ok (Some (trim output)),
     mkSys w (calls s ++ [mkCall revParse (dirname filePath)])).
Proof.
  intros E. unfold getGitRoot, History.getGitRoot, try_catch, bind, runExecSync.
  fold revParse. rewrite E. reflexivity.
Qed.

Lemma executeGit_failure dir args s msg w :
  execSync (lit "git " ++ args) dir (world s) = (inl msg, w) ->
  executeGit execSync dir args s
  = (Throw (lit "Git command failed: " ++ msg),
     mkSys w (calls s ++ [mkCall (lit "git " ++ args) dir])).
Proof.
  intros E. unfold executeGit, try_catch, runExecSync. rewrite E. reflexivity.
Qed.

Lemma executeGit_success dir args s output w :
  execSync (lit "git " ++ args) dir (world s) = (inr output, w) ->
  executeGit execSync dir args s
  = (Ok output, mkSys w (calls s ++ [mkCall (lit "git " ++ args) dir])).
Proof.
  intros E. unfold executeGit, try_catch, runExecSync. rewrite E. reflexivity.
Qed.

(** C7: when the resolution of the repository root fails, [getGitRoot]
    answers [null] without throwing, and the three queries throw the
    error [Not a git repository] after that single invocation: the
    message of the tool is not propagated and the tool is not run
    again. *)
Theorem no_root_is_not_a_repository filePath s msg w :
  execSync revParse (dirname filePath) (world s) = (inl msg, w) ->
  let s' := mkSys w (calls s ++ [mkCall revParse (dirname filePath)]) in
  getGitRoot filePath s = (Ok None, s')
  /\ (forall startLine endLine,
         getLineHistory filePath startLine endLine s = (Throw notARepository, s'))
  /\ (forall functionName,
         getFunctionHistory filePath functionName s = (Throw notARepository, s'))
  /\ (forall codeSnippet,
         searchCodeHistory filePath codeSnippet s = (Throw notARepository, s')).
Proof.
  intros E s'. pose proof (getGitRoot_failure filePath s msg w E) as G.
  fold s' in G. unfold getGitRoot in G.
  repeat split; try exact G; intros;
    unfold getLineHistory, History.getLineHistory,
           getFunctionHistory, History.getFunctionHistory,
           searchCodeHistory, History.searchCodeHistory, bind;
    rewrite G; reflexivity.
Qed.

(** The fallback of [getLineHistory], on the arguments the source
    builds. *)
Lemma getLineHistory_fallback_args filePath startLine endLine s output w1 msg w2 :
  let root := trim output in
  let rel := relative root filePath in
  let first := mkCall revParse (dirname filePath) in
  let ranged := mkCall (lit "git " ++ rangeArgs startLine endLine rel) root in
  let single := mkCall (lit "git " ++ rangeArgs startLine startLine rel) root in
  execSync revParse (dirname filePath) (world s) = (inr output, w1) ->
  truthy root = true ->
  execSync (lit "git " ++ rangeArgs startLine endLine rel) root w1 = (inl msg, w2) ->
  (startLine = endLine ->
     getLineHistory filePath startLine endLine s
     = (Throw (lit "Git command failed: " ++ msg),
        mkSys w2 (calls s ++ [first; ranged])))
  /\ (startLine <> endLine ->
      forall r3 w3,
        execSync (lit "git " ++ rangeArgs startLine startLine rel) root w2 = (r3, w3) ->
        getLineHistory filePath startLine endLine s
        = (match r3 with
           | inr output3 => Ok (parseGitLog output3)
           | inl msg3 => Throw (lit "Git command failed: " ++ msg3)
           end,
           mkSys w3 (calls s ++ [first; ranged; single]))).
Proof.
  intros root rel first ranged single E1 T E2.
  pose proof (getGitRoot_success filePath s output w1 E1) as G. unfold getGitRoot in G.
  assert (X : forall c, (calls s ++ [first]) ++ c = calls s ++ first :: c)
    by (intros; rewrite <- app_assoc; reflexivity).
  split.
  - intros ->.
    unfold getLineHistory, History.getLineHistory, bind, try_catch.
    rewrite G. fold first. cbn [noRoot rootOf]. fold root. rewrite T. cbn [negb].
    unfold getRelativePath. fold rel.
    rewrite (executeGit_failure root (rangeArgs endLine endLine rel)
                 (mkSys w1 (calls s ++ [first])) msg w2 E2).
    rewrite Nat.eqb_refl. cbn [negb calls]. unfold throw.
    rewrite X. reflexivity.
  - intros D r3 w3 E3.
    unfold getLineHistory, History.getLineHistory, bind, try_catch.
    rewrite G. fold first. cbn [noRoot rootOf]. fold root. rewrite T. cbn [negb].
    unfold getRelativePath. fold rel.
    rewrite (executeGit_failure root (rangeArgs startLine endLine rel)
                 (mkSys w1 (calls s ++ [first])) msg w2 E2).
    apply Nat.eqb_neq in D. rewrite D. cbn [negb calls].
    rewrite X. fold ranged.
    destruct r3 as [msg3 | output3].
    + rewrite (executeGit_failure root (rangeArgs startLine startLine rel)
                 (mkSys w2 (calls s ++ [first; ranged])) _ w3 E3).
      cbn [calls]. rewrite <- app_assoc. reflexivity.
    + rewrite (executeGit_success root (rangeArgs startLine startLine rel)
                 (mkSys w2 (calls s ++ [first; ranged])) _ w3 E3).
      cbn [calls]. unfold ret. rewrite <- app_assoc. reflexivity.
Qed.

(** C6: once the root is resolved, if the invocation for the range
    [startLine,endLine] fails then, when the two lines differ, the
    tool is run exactly once more, with [-L startLine,startLine] for
    the same path in the same root, and the query answers what that
    run gives (its records, or its failure); when the two lines are
    equal the first failure is thrown and the tool is not run again. *)
Theorem getLineHistory_fallback filePath startLine endLine s output w1 msg w2 :
  let root := trim output in
  let rel := relative root filePath in
  let first := mkCall revParse (dirname filePath) in
  let ranged := mkCall (rangeCommand startLine endLine rel) root in
  let single := mkCall (rangeCommand startLine startLine rel) root in
  execSync revParse (dirname filePath) (world s) = (inr output, w1) ->
  truthy root = true ->
  execSync (command ranged) root w1 = (inl msg, w2) ->
  (startLine = endLine ->
     getLineHistory filePath startLine endLine s
     = (Throw (lit "Git command failed: " ++ msg),
        mkSys w2 (calls s ++ [first; ranged])))
  /\ (startLine <> endLine ->
      forall r3 w3,
        execSync (command single) root w2 = (r3, w3) ->
        getLineHistory filePath startLine endLine s
        = (match r3 with
           | inr output3 => Ok (parseGitLog output3)
           | inl msg3 => Throw (lit "Git command failed: " ++ msg3)
           end,
           mkSys w3 (calls s ++ [first; ranged; single]))).
Proof.
  cbv zeta. cbn [command]. rewrite <- !rangeCommand_text.
  exact (getLineHistory_fallback_args filePath startLine endLine s output w1 msg w2).
Qed.

End QueryProperties.

Lemma no_root_is_not_a_repository_witness :
  failingTool revParse (sampleDirname samplePath) tt
  = (inl (lit "fatal: not a git repository"), tt)
  /\ getLineHistory failingTool sampleDirname sampleRelative samplePath 3 5 (mkSys tt [])
     = (Throw notARepository, mkSys tt [mkCall revParse (lit "/repo")]).
Proof.
  assert (E : failingTool revParse (sampleDirname samplePath) (world (mkSys tt []))
              = (inl (lit "fatal: not a git repository"), tt)) by reflexivity.
  split; [ exact E | ].
  destruct (no_root_is_not_a_repository unit failingTool sampleDirname sampleRelative
              samplePath (mkSys tt []) _ tt E) as (_ & H & _).
  exact (H 3 5).
Defined.

Lemma getLineHistory_fallback_witness :
  let ranged :=
    tpl "git log --pretty=format:`commit %H%nAuthor: %an <%ae>%nDate: %ad%nBranches: %D%n%n%s%n` --date=relative -L 3,5:`a.js`" in
  let single :=
    tpl "git log --pretty=format:`commit %H%nAuthor: %an <%ae>%nDate: %ad%nBranches: %D%n%n%s%n` --date=relative -L 3,3:`a.js`" in
  flakyTool revParse (sampleDirname samplePath) 0 = (inr (lit "/repo
"), 1)
  /\ truthy (trim (lit "/repo
")) = true
  /\ flakyTool ranged (lit "/repo") 1
     = (inl (lit "fatal: file a.js has only 4 lines"), 2)
  /\ getLineHistory flakyTool sampleDirname sampleRelative samplePath 3 5 (mkSys 0 [])
     = (Ok [mkCommit (lit "abc") (lit "Jane") [] [] [] []],
        mkSys 3 [mkCall revParse (lit "/repo");
                 mkCall ranged (lit "/repo");
                 mkCall single (lit "/repo")]).
Proof.
  intros ranged single.
  assert (E1 : flakyTool revParse (sampleDirname samplePath) (world (mkSys 0 []))
               = (inr (lit "/repo
"), 1)) by reflexivity.
  assert (T : truthy (trim (lit "/repo
")) = true) by reflexivity.
  assert (E2 : flakyTool ranged (lit "/repo") 1
               = (inl (lit "fatal: file a.js has only 4 lines"), 2)) by reflexivity.
  split; [ exact E1 | split; [ exact T | split; [ exact E2 | ] ] ].
  destruct (getLineHistory_fallback nat flakyTool sampleDirname sampleRelative
              samplePath 3 5 (mkSys 0 []) _ 1 _ 2 E1 T E2) as [_ H].
  assert (D : 3 <> 5) by discriminate.
  exact (H D (inr (lit "commit abc
Author: Jane")) 3 eq_refl).
Defined.

(* ================================================================== *)
(** ** Further properties of the record parser                         *)
(* ================================================================== *)

(** *** Lines *)

Lemma replace_unfold s pat by_ :
  replace s pat by_
  = if startsWith s pat then by_ ++ skipn (List.length pat) s
    else match s with
         | [] => []
         | c :: s' => c :: replace s' pat by_
         end.
Proof. destruct s; reflexivity. Qed.

Lemma replace_prefix p r : replace (p ++ r) p [] = r.
Proof.
  rewrite replace_unfold.
  assert (E : startsWith (p ++ r) p = true) by (apply startsWith_app; eauto).
  rewrite E. simpl. rewrite skipn_app, skipn_all, Nat.sub_diag. reflexivity.
Qed.

Lemma split_go_one_line l : forall cur,
  oneLine l -> split_go newline 0 cur l = [rev cur ++ l].
Proof.
  induction l as [|c l IH]; intros cur H.
  - simpl. now rewrite app_nil_r.
  - inversion H as [|? ? Hc Hl]; subst. cbn [split_go].
    change (startsWith (c :: l) newline) with (ceq 10%N c && true).
    rewrite Hc. cbn [andb]. rewrite IH by assumption.
    simpl. now rewrite <- app_assoc.
Qed.

Lemma split_go_first_line l : forall cur rest,
  oneLine l ->
  split_go newline 0 cur (l ++ newline ++ rest)
  = (rev cur ++ l) :: split_go newline 0 [] rest.
Proof.
  induction l as [|c l IH]; intros cur rest H.
  - simpl. now rewrite app_nil_r.
  - inversion H as [|? ? Hc Hl]; subst.
    change ((c :: l) ++ newline ++ rest) with (c :: (l ++ newline ++ rest)).
    cbn [split_go].
    change (startsWith (c :: l ++ newline ++ rest) newline) with (ceq 10%N c && true).
    rewrite Hc. cbn [andb]. rewrite IH by assumption.
    simpl. now rewrite <- app_assoc.
Qed.

Lemma join_cons sep x y l : join sep (x :: y :: l) = x ++ sep ++ join sep (y :: l).
Proof. reflexivity. Qed.

(** Cutting at the line feeds gives back the lines that were joined
    by line feeds. *)
Lemma split_join_lines lines :
  lines <> [] -> Forall oneLine lines -> split (join newline lines) newline = lines.
Proof.
  unfold split. induction lines as [|l lines IH]; [ congruence | ].
  intros _ H. inversion H as [|? ? Hl Hr]; subst.
  destruct lines as [|l' lines].
  - simpl. now apply split_go_one_line.
  - rewrite join_cons, split_go_first_line by assumption.
    cbn [rev app]. rewrite IH; [ reflexivity | discriminate | assumption ].
Qed.

(** A prefix without line feed is found in the first line alone. *)
Lemma startsWith_first_line p : forall l rest,
  oneLine p -> (rest = [] \/ exists r, rest = newline ++ r) ->
  startsWith (l ++ rest) p = startsWith l p.
Proof.
  induction p as [|x p IH]; intros l rest Hp Hr; [ reflexivity | ].
  inversion Hp as [|? ? Hx Hp']; subst.
  destruct l as [|c l].
  - destruct Hr as [-> | [r ->]]; [ reflexivity | ].
    simpl. unfold ceq in *. rewrite N.eqb_sym, Hx. reflexivity.
  - simpl. rewrite IH by assumption. reflexivity.
Qed.

Lemma join_tail_shape l lines :
  exists rest,
    join newline (l :: lines) = l ++ rest
    /\ (rest = [] \/ exists r, rest = newline ++ r).
Proof.
  destruct lines as [|l' lines].
  - exists []. split; [ simpl; now rewrite app_nil_r | now left ].
  - exists (newline ++ join newline (l' :: lines)).
    split; [ reflexivity | right; eauto ].
Qed.

Lemma commitPrefix_oneLine : oneLine commitPrefix.
Proof. repeat constructor. Qed.

(** The lines of a block are the lines it was joined from, the
    marker restored on the first one. *)
Lemma blockLines_join l lines :
  Forall oneLine (l :: lines) ->
  blockLines (join newline (l :: lines)) = restoreMarker l :: lines.
Proof.
  intros H. unfold blockLines, restoreMarker.
  destruct (join_tail_shape l lines) as (rest & E & Hr).
  assert (S : startsWith (join newline (l :: lines)) commitPrefix
              = startsWith l commitPrefix).
  { rewrite E. apply startsWith_first_line; [ apply commitPrefix_oneLine | exact Hr ]. }
  rewrite S. inversion H as [|? ? Hl Hls]; subst.
  destruct (startsWith l commitPrefix) eqn:P; cbn [negb].
  - fold newline. apply split_join_lines; [ discriminate | exact H ].
  - assert (J : commitPrefix ++ join newline (l :: lines)
                = join newline ((commitPrefix ++ l) :: lines)).
    { destruct lines; cbn [join]; [ reflexivity | now rewrite <- app_assoc ]. }
    rewrite J. fold newline. apply split_join_lines; [ discriminate | ].
    constructor; [ | exact Hls ].
    apply Forall_app. split; [ apply commitPrefix_oneLine | exact Hl ].
Qed.

(** *** Records *)

Lemma hash_default lines st :
  Forall (fun l => startsWith l commitPrefix = false) lines ->
  hash (commit (fold_left parseLine lines st)) = hash (commit st).
Proof.
  intros H.
  apply (parseLines_invariant (fun s => hash (commit s) = hash (commit st)));
    [ reflexivity | ].
  eapply Forall_impl; [ | exact H ]. cbv beta. intros l Hl st' E.
  destruct (parseLine_cases st' l)
    as [[? _]|[[_ [v ->]]|[[_ [v ->]]|[[_ [v ->]]|[[_ ->]|[(_ & _ & ->)|(_ & _ & [v ->])]]]]]];
    try exact E; congruence.
Qed.

Lemma parseLine_commit st v :
  parseLine st (commitPrefix ++ v) = onCommit (set_hash (trim v)) st.
Proof.
  unfold parseLine.
  assert (E : startsWith (commitPrefix ++ v) commitPrefix = true)
    by (apply startsWith_app; eauto).
  rewrite E, replace_prefix. reflexivity.
Qed.

Lemma parseLine_author st v :
  parseLine st (authorPrefix ++ v) = onCommit (set_author (trim v)) st.
Proof.
  unfold parseLine.
  assert (E : startsWith (authorPrefix ++ v) authorPrefix = true)
    by (apply startsWith_app; eauto).
  change (startsWith (authorPrefix ++ v) commitPrefix) with false.
  cbv iota. rewrite E, replace_prefix. reflexivity.
Qed.

Lemma parseLine_date st v :
  parseLine st (datePrefix ++ v) = onCommit (set_date (trim v)) st.
Proof.
  unfold parseLine.
  assert (E : startsWith (datePrefix ++ v) datePrefix = true)
    by (apply startsWith_app; eauto).
  change (startsWith (datePrefix ++ v) commitPrefix) with false.
  change (startsWith (datePrefix ++ v) authorPrefix) with false.
  cbv iota. rewrite E, replace_prefix. reflexivity.
Qed.

Lemma parseLine_branches st v :
  parseLine st (branchesPrefix ++ v) = onCommit (set_branch (trim v)) st.
Proof.
  unfold parseLine.
  assert (E : startsWith (branchesPrefix ++ v) branchesPrefix = true)
    by (apply startsWith_app; eauto).
  change (startsWith (branchesPrefix ++ v) commitPrefix) with false.
  change (startsWith (branchesPrefix ++ v) authorPrefix) with false.
  change (startsWith (branchesPrefix ++ v) datePrefix) with false.
  cbv iota. rewrite E, replace_prefix. reflexivity.
Qed.

(** When a header line is repeated within a fragment, the last one
    decides the field: each header field is the trimmed remainder of
    the last line that carries its prefix. *)
Theorem last_header_wins before v rest :
  (Forall (fun l => startsWith l commitPrefix = false) rest ->
   hash (finish (parseLines (before ++ (commitPrefix ++ v) :: rest))) = trim v)
  /\ (Forall (fun l => startsWith l authorPrefix = false) rest ->
      author (finish (parseLines (before ++ (authorPrefix ++ v) :: rest))) = trim v)
  /\ (Forall (fun l => startsWith l datePrefix = false) rest ->
      date (finish (parseLines (before ++ (datePrefix ++ v) :: rest))) = trim v)
  /\ (Forall (fun l => startsWith l branchesPrefix = false) rest ->
      branch (finish (parseLines (before ++ (branchesPrefix ++ v) :: rest))) = trim v).
Proof.
  unfold parseLines.
  repeat split; intros H; rewrite fold_left_app; cbn [fold_left].
  - rewrite parseLine_commit.
    change (hash (commit (fold_left parseLine rest
              (onCommit (set_hash (trim v)) (fold_left parseLine before initLoop))))
            = trim v).
    now rewrite hash_default.
  - rewrite parseLine_author.
    change (author (commit (fold_left parseLine rest
              (onCommit (set_author (trim v)) (fold_left parseLine before initLoop))))
            = trim v).
    now rewrite author_default.
  - rewrite parseLine_date.
    change (date (commit (fold_left parseLine rest
              (onCommit (set_date (trim v)) (fold_left parseLine before initLoop))))
            = trim v).
    now rewrite date_default.
  - rewrite parseLine_branches.
    change (branch (commit (fold_left parseLine rest
              (onCommit (set_branch (trim v)) (fold_left parseLine before initLoop))))
            = trim v).
    now rewrite branch_default.
Qed.

Lemma last_header_wins_witness :
  Forall (fun l => startsWith l authorPrefix = false) [lit "Date: today"]
  /\ author (finish (parseLines ([lit "commit abc"; lit "Author: Ann"]
                                   ++ (authorPrefix ++ lit " Bob ") :: [lit "Date: today"])))
     = lit "Bob".
Proof.
  assert (H : Forall (fun l => startsWith l authorPrefix = false) [lit "Date: today"])
    by (repeat constructor).
  split; [ exact H | ].
  destruct (last_header_wins [lit "commit abc"; lit "Author: Ann"] (lit " Bob ")
              [lit "Date: today"]) as (_ & Ha & _).
  exact (Ha H).
Defined.

Lemma parseLine_blank st line :
  inDiff st = false -> trim line = [] -> parseLine st line = st.
Proof.
  intros D B. destruct (blank_unprefixed line B) as [Hh Hd].
  rewrite (parseLine_unprefixed st line Hh), Hd, D, B. reflexivity.
Qed.

Lemma parseLines_blanks blanks st :
  inDiff st = false -> Forall (fun l => trim l = []) blanks ->
  fold_left parseLine blanks st = st.
Proof.
  intros D H. induction H as [|l blanks Hl _ IH]; [ reflexivity | ].
  simpl. rewrite parseLine_blank by assumption. exact IH.
Qed.

Lemma parseLines_markers markers st :
  markers <> [] -> Forall (fun l => isDiffMarker l = true) markers ->
  fold_left parseLine markers st = mkLoop (commit st) true (diffLines st).
Proof.
  intros N H. revert st. induction H as [|l markers Hl Hr IH]; [ congruence | ].
  intros st. simpl.
  rewrite (parseLine_unprefixed st l (isDiffMarker_not_header l Hl)), Hl.
  destruct markers as [|l' markers]; [ reflexivity | ].
  rewrite IH by discriminate. reflexivity.
Qed.

Lemma parseLine_subject st subject :
  inDiff st = false -> message (commit st) = [] ->
  isPlain subject = true -> truthy (trim subject) = true ->
  startsWith subject (lit " ") = false ->
  parseLine st subject = onCommit (set_message (trim subject)) st.
Proof.
  intros D M P T S. unfold isPlain in P. apply andb_true_iff in P.
  destruct P as [Hh Hd]. apply negb_true_iff in Hh, Hd.
  rewrite (parseLine_unprefixed st subject Hh), Hd, D, T, S, M. reflexivity.
Qed.

(** The lines of a record in the format the queries ask for give the
    trimmed header values, the trimmed subject and the lines of the
    diff joined by line feeds. *)
Lemma parseLines_record h a d b subject blanks markers hunk :
  isPlain subject = true ->
  truthy (trim subject) = true ->
  startsWith subject (lit " ") = false ->
  Forall (fun l => trim l = []) blanks ->
  Forall (fun l => isDiffMarker l = true) markers ->
  Forall (fun l => isPlain l = true) hunk ->
  (markers = [] -> hunk = []) ->
  finish (parseLines (headerLines h a d b subject ++ blanks ++ markers ++ hunk))
  = mkCommit (trim h) (trim a) (trim d) (trim subject) (trim b) (join newline hunk).
Proof.
  intros P T S Hb Hm Hh Hn.
  unfold parseLines, headerLines. rewrite !fold_left_app. cbn [fold_left].
  rewrite parseLine_commit, parseLine_author, parseLine_date, parseLine_branches.
  rewrite (parseLine_blank _ []) by reflexivity.
  rewrite parseLine_subject by (reflexivity || assumption).
  rewrite (parseLines_blanks blanks) by (reflexivity || assumption).
  destruct markers as [|m markers].
  - rewrite (Hn eq_refl). reflexivity.
  - rewrite (parseLines_markers (m :: markers)) by (discriminate || assumption).
    rewrite (parseLines_plain_inDiff hunk) by (reflexivity || assumption).
    reflexivity.
Qed.

(** *** Blank output *)

Lemma trimStart_nil s : trimStart s = [] -> allSpace s.
Proof.
  induction s as [|c s IH]; [ constructor | ].
  simpl. destruct (isSpace c) eqn:E; [ | discriminate ].
  intros H. apply Forall_cons; [ exact E | exact (IH H) ].
Qed.

Lemma allSpace_trimStart s : allSpace s -> trimStart s = [].
Proof.
  induction 1 as [|c s Hc _ IH]; [ reflexivity | ].
  simpl. now rewrite Hc.
Qed.

Lemma trim_nil_iff s : trim s = [] <-> allSpace s.
Proof.
  split.
  - intros H. unfold trim, trimEnd in H.
    apply (f_equal (@rev _)) in H. rewrite rev_involutive in H. simpl in H.
    apply trimStart_nil in H. apply Forall_rev in H. rewrite rev_involutive in H.
    destruct (trimStart s) as [|c t] eqn:E.
    + now apply trimStart_nil.
    + exfalso. inversion H as [|? ? Hc _]; subst.
      clear H. revert E. induction s as [|x s IH]; [ discriminate | ].
      simpl. destruct (isSpace x) eqn:Ex; [ exact IH | ].
      intros E. injection E as -> _. congruence.
  - intros H. unfold trim. rewrite allSpace_trimStart by assumption. reflexivity.
Qed.

Lemma split_go_allSpace sep s : forall skip cur,
  allSpace cur -> allSpace s -> Forall allSpace (split_go sep skip cur s).
Proof.
  induction s as [|c s IH]; intros skip cur Hc Hs.
  - simpl. constructor; [ now apply Forall_rev | constructor ].
  - inversion Hs; subst. cbn [split_go]. destruct skip as [|k].
    + destruct (startsWith (c :: s) sep).
      * constructor; [ now apply Forall_rev | ]. apply IH; [ constructor | assumption ].
      * apply IH; [ constructor; assumption | assumption ].
    + now apply IH.
Qed.

(** An output that is empty or all white space gives no record. *)
Theorem parseGitLog_blank output : trim output = [] -> parseGitLog output = [].
Proof.
  intros H. apply trim_nil_iff in H.
  unfold parseGitLog, commitBlocks.
  assert (F : Forall allSpace (split output blockSeparator))
    by (apply split_go_allSpace; [ constructor | exact H ]).
  induction F as [|b bs Hb _ IH]; [ reflexivity | ].
  cbn [filter]. apply trim_nil_iff in Hb. rewrite Hb. exact IH.
Qed.

Lemma parseGitLog_blank_witness :
  trim (lit "  
	
") = [] /\ parseGitLog (lit "  
	
") = [].
Proof.
  assert (H : trim (lit "  
	
") = []) by reflexivity.
  split; [ exact H | exact (parseGitLog_blank _ H) ].
Defined.

(** *** Separators, line by line *)

Lemma startsWith_separator c s :
  startsWith (c :: s) blockSeparator
  = ceq 10%N c && startsWith s (newline ++ commitPrefix).
Proof. reflexivity. Qed.

Lemma startsWith_newline_prefix c s :
  startsWith (c :: s) (newline ++ commitPrefix)
  = ceq 10%N c && startsWith s commitPrefix.
Proof. reflexivity. Qed.

Lemma occurrences_skip_line l rest :
  oneLine l ->
  occurrences blockSeparator (l ++ rest) = occurrences blockSeparator rest.
Proof.
  induction 1 as [|c l Hc _ IH]; [ reflexivity | ].
  change ((c :: l) ++ rest) with (c :: (l ++ rest)).
  cbn [occurrences]. rewrite startsWith_separator, Hc, IH. reflexivity.
Qed.

Lemma not_marker_nil : startsWith [] commitPrefix = false.
Proof. reflexivity. Qed.

Lemma occurrences_by_lines lines :
  Forall oneLine lines ->
  occurrences blockSeparator (join newline lines) = separatorLines lines.
Proof.
  intros H. induction H as [|l lines Hl Hls IH]; [ reflexivity | ].
  destruct lines as [|l1 t2].
  - cbn [join separatorLines].
    rewrite <- (app_nil_r l), occurrences_skip_line by assumption. reflexivity.
  - rewrite join_cons, occurrences_skip_line by assumption.
    change (newline ++ join newline (l1 :: t2)) with (10%N :: join newline (l1 :: t2)).
    cbn [occurrences]. rewrite IH. cbn [separatorLines].
    f_equal.
    rewrite startsWith_separator. cbn [ceq]. rewrite N.eqb_refl. cbn [andb].
    inversion Hls as [|? ? Hl1 Ht2]; subst.
    destruct l1 as [|c l1].
    + destruct t2 as [|l2 t3]; [ reflexivity | ].
      rewrite join_cons. cbn [app truthy negb andb].
      change (startsWith (newline ++ join newline (l2 :: t3)) (newline ++ commitPrefix))
        with (startsWith (join newline (l2 :: t3)) commitPrefix).
      destruct (join_tail_shape l2 t3) as (rest & -> & Hr).
      pose proof (startsWith_first_line commitPrefix l2 rest commitPrefix_oneLine Hr)
        as Y.
      match goal with
      | |- (if ?b then _ else _) = _ =>
        replace b with (startsWith l2 commitPrefix) by (symmetry; exact Y)
      end.
      reflexivity.
    + inversion Hl1 as [|? ? Hc _]; subst.
      assert (X : startsWith (join newline ((c :: l1) :: t2)) (newline ++ commitPrefix)
                  = false).
      { destruct t2; cbn [join app]; rewrite startsWith_newline_prefix, Hc; reflexivity. }
      match goal with
      | |- (if ?b then _ else _) = _ => replace b with false by (symmetry; exact X)
      end.
      destruct t2; reflexivity.
Qed.

(** In a text made of lines, the separator occurs exactly where an
    empty line that is not the first line is followed by a line that
    begins with the marker; the text is cut in one fragment more than
    there are such places. *)
Theorem separator_occurrences_by_lines lines :
  Forall oneLine lines ->
  occurrences blockSeparator (join newline lines) = separatorLines lines
  /\ List.length (split (join newline lines) blockSeparator)
     = S (separatorLines lines).
Proof.
  intros H. pose proof (occurrences_by_lines lines H) as E.
  split; [ exact E | ].
  rewrite <- E. apply split_length; [ discriminate | exact blockSeparator_unbordered ].
Qed.

Lemma separator_occurrences_by_lines_witness :
  Forall oneLine [lit "commit a"; lit ""; lit "fix"; lit ""; lit "commit b"; lit "commit c"]
  /\ occurrences blockSeparator (lit "commit a

fix

commit b
commit c") = 1.
Proof.
  assert (H : Forall oneLine
                [lit "commit a"; lit ""; lit "fix"; lit ""; lit "commit b"; lit "commit c"])
    by (repeat constructor).
  split; [ exact H | ].
  exact (proj1 (separator_occurrences_by_lines _ H)).
Defined.

(** *** Fragments *)

Lemma occurrences_unfold sep s :
  occurrences sep s
  = (if startsWith s sep then 1 else 0)
    + match s with
      | [] => 0
      | _ :: s' => occurrences sep s'
      end.
Proof. destruct s; reflexivity. Qed.

Lemma startsWith_extend x p r : startsWith x p = true -> startsWith (x ++ r) p = true.
Proof.
  intros H. apply startsWith_app in H. destruct H as [q ->].
  apply startsWith_app. exists (q ++ r). now rewrite app_assoc.
Qed.

Lemma startsWith_long p : forall x r,
  List.length p <= List.length x -> startsWith (x ++ r) p = startsWith x p.
Proof.
  induction p as [|a p IH]; intros x r L; [ reflexivity | ].
  destruct x as [|c x]; simpl in L; [ lia | ].
  simpl. rewrite IH by lia. reflexivity.
Qed.

Section FragmentSplit.

Variable sep : str.
Hypothesis sep_nonempty : sep <> [].

Lemma occurrences_closed x : 1 <= occurrences sep (x ++ sep).
Proof.
  induction x as [|c x IH].
  - rewrite occurrences_unfold.
    assert (E : startsWith ([] ++ sep) sep = true)
      by (apply startsWith_app; exists []; now rewrite app_nil_r).
    rewrite E. lia.
  - change ((c :: x) ++ sep) with (c :: (x ++ sep)). cbn [occurrences]. lia.
Qed.

Lemma split_go_skip pre : forall k cur rest,
  List.length pre = k -> split_go sep k cur (pre ++ rest) = split_go sep 0 cur rest.
Proof.
  induction pre as [|c pre IH]; intros k cur rest L; simpl in L; subst k.
  - reflexivity.
  - cbn [app split_go List.length]. now apply IH.
Qed.

(** A fragment that the separator does not touch is cut out as it
    is. *)
Lemma split_go_fragment f :
  occurrences sep (f ++ sep) = 1 ->
  forall cur,
    split_go sep 0 cur f = [rev cur ++ f]
    /\ forall rest,
        split_go sep 0 cur (f ++ sep ++ rest)
        = (rev cur ++ f) :: split_go sep 0 [] rest.
Proof.
  induction f as [|c f IH]; intros H cur.
  - split; [ simpl; now rewrite app_nil_r | ].
    intros rest. destruct sep as [|x sep'] eqn:E; [ congruence | ].
    cbn [app split_go]. rewrite <- E.
    assert (S : startsWith (x :: sep' ++ rest) sep = true).
    { apply startsWith_app. exists rest. rewrite E. reflexivity. }
    rewrite S, app_nil_r. f_equal.
    apply split_go_skip. rewrite E. simpl. lia.
  - change ((c :: f) ++ sep) with (c :: (f ++ sep)) in H.
    cbn [occurrences] in H. pose proof (occurrences_closed f) as G.
    destruct (startsWith (c :: f ++ sep) sep) eqn:S; [ lia | ].
    assert (H' : occurrences sep (f ++ sep) = 1) by lia.
    destruct (IH H' (c :: cur)) as [I1 I2].
    assert (R : rev (c :: cur) ++ f = rev cur ++ c :: f)
      by (simpl; now rewrite <- app_assoc).
    split.
    + cbn [split_go].
      destruct (startsWith (c :: f) sep) eqn:S1.
      * apply (startsWith_extend _ _ sep) in S1. simpl in S1. congruence.
      * rewrite I1, R. reflexivity.
    + intros rest.
      change ((c :: f) ++ sep ++ rest) with (c :: (f ++ sep ++ rest)).
      cbn [split_go].
      assert (S2 : startsWith (c :: f ++ sep ++ rest) sep = false).
      { rewrite <- S.
        change (c :: f ++ sep ++ rest) with ((c :: f) ++ sep ++ rest).
        rewrite app_assoc.
        apply startsWith_long. cbn [app List.length]. rewrite length_app. lia. }
      rewrite S2, I2, R. reflexivity.
Qed.

(** Cutting at the separator gives back the fragments that were
    joined by it, when the separator occurs in none of them and does
    not straddle their ends. *)
Lemma split_join_fragments frags :
  frags <> [] ->
  Forall (fun f => occurrences sep (f ++ sep) = 1) frags ->
  split (join sep frags) sep = frags.
Proof.
  unfold split. induction frags as [|f frags IH]; [ congruence | ].
  intros _ H. inversion H as [|? ? Hf Hr]; subst.
  destruct (split_go_fragment f Hf []) as [I1 I2].
  destruct frags as [|f' frags].
  - simpl. exact I1.
  - rewrite join_cons, I2. cbn [rev app].
    f_equal. apply IH; [ discriminate | assumption ].
Qed.

End FragmentSplit.

(** *** A log of records *)

Lemma separatorLines_open lines :
  Forall (fun l => startsWith l commitPrefix = false) (tl lines) ->
  lines <> [] ->
  separatorLines (lines ++ [ []; commitPrefix ]) = 1.
Proof.
  induction lines as [|l0 lines IH]; [ congruence | ].
  intros H _. destruct lines as [|l1 t].
  - reflexivity.
  - cbn [tl] in H. inversion H as [|? ? H1 Ht]; subst.
    change ((l0 :: l1 :: t) ++ [ []; commitPrefix ])
      with (l0 :: (l1 :: t) ++ [ []; commitPrefix ]).
    cbn [separatorLines]. fold separatorLines.
    change (separatorLines ((l1 :: t) ++ [ []; commitPrefix ]))
      with (separatorLines ((l1 :: t) ++ [ []; commitPrefix ])).
    rewrite IH; [ | exact Ht | discriminate ].
    destruct t as [|l2 t'].
    + cbn [app]. rewrite not_marker_nil, andb_false_r. reflexivity.
    + inversion Ht; subst. cbn [app].
      match goal with
      | H2 : startsWith l2 commitPrefix = false |- _ => rewrite H2
      end.
      rewrite andb_false_r. reflexivity.
Qed.

Lemma join_snoc_separator lines :
  lines <> [] ->
  join newline (lines ++ [ []; commitPrefix ]) = join newline lines ++ blockSeparator.
Proof.
  induction lines as [|l lines IH]; [ congruence | ].
  intros _. destruct lines as [|l' lines].
  - reflexivity.
  - change ((l :: l' :: lines) ++ [ []; commitPrefix ])
      with (l :: (l' :: lines) ++ [ []; commitPrefix ]).
    change ((l' :: lines) ++ [ []; commitPrefix ])
      with (l' :: lines ++ [ []; commitPrefix ]).
    rewrite !join_cons.
    change (l' :: lines ++ [ []; commitPrefix ])
      with ((l' :: lines) ++ [ []; commitPrefix ]).
    rewrite IH by discriminate. now rewrite <- !app_assoc.
Qed.

(** A fragment made of lines of which only the first may begin with
    the marker is closed by the next separator and by nothing
    before. *)
Lemma fragment_of_lines lines :
  lines <> [] -> Forall oneLine lines ->
  Forall (fun l => startsWith l commitPrefix = false) (tl lines) ->
  occurrences blockSeparator (join newline lines ++ blockSeparator) = 1.
Proof.
  intros N H T. rewrite <- join_snoc_separator by exact N.
  rewrite occurrences_by_lines.
  - now apply separatorLines_open.
  - apply Forall_app. split; [ exact H | repeat constructor ].
Qed.

Lemma join_marked_head sep h t :
  join sep ((commitPrefix ++ h) :: t) = commitPrefix ++ join sep (h :: t).
Proof. destruct t; cbn [join]; [ reflexivity | now rewrite <- app_assoc ]. Qed.

Lemma entryText_marked e : entryText e = commitPrefix ++ join newline (bodyLines e).
Proof. exact (join_marked_head newline (eHash e) (tl (entryLines e))). Qed.

Lemma join_marked {A} (g : A -> str) l : forall x,
  join (newline ++ newline) (x :: map (fun e => commitPrefix ++ g e) l)
  = join blockSeparator (x :: map g l).
Proof.
  induction l as [|e l IH]; intros x; [ reflexivity | ].
  cbn [map]. rewrite !join_cons.
  change (join (newline ++ newline) ((commitPrefix ++ g e)
            :: map (fun e0 => commitPrefix ++ g e0) l))
    with (join (newline ++ newline)
            ((fun y => (commitPrefix ++ y) :: map (fun e0 => commitPrefix ++ g e0) l) (g e))).
  cbv beta. rewrite join_marked_head, IH.
  change blockSeparator with ((newline ++ newline) ++ commitPrefix).
  now rewrite <- !app_assoc.
Qed.

Lemma logText_fragments e es :
  logText (e :: es)
  = join blockSeparator
         (entryText e :: map (fun e' => join newline (bodyLines e')) es).
Proof.
  unfold logText. cbn [map].
  rewrite (map_ext entryText (fun e' => commitPrefix ++ join newline (bodyLines e')))
    by apply entryText_marked.
  apply join_marked.
Qed.

Lemma unmarked_line l : isHeader l = false -> startsWith l commitPrefix = false.
Proof. intros H. now apply unprefixed_cases in H. Qed.

Lemma plain_unmarked l : isPlain l = true -> startsWith l commitPrefix = false.
Proof.
  intros H. unfold isPlain in H. apply andb_true_iff in H. destruct H as [H _].
  apply negb_true_iff in H. now apply unmarked_line.
Qed.

(** Only the first line of a well-formed record begins with the
    marker. *)
Lemma entry_tail_unmarked e :
  wellFormedEntry e ->
  Forall (fun l => startsWith l commitPrefix = false) (tl (entryLines e)).
Proof.
  intros (_ & _ & Hs & _ & _ & Hb & Hm & Hh & _).
  unfold entryLines, headerLines. cbn [app tl].
  repeat (apply Forall_cons; [ reflexivity || now apply plain_unmarked | ]).
  repeat (apply Forall_app; split).
  - eapply Forall_impl; [ | exact Hb ]. cbv beta. intros l B.
    apply unmarked_line. now destruct (blank_unprefixed l B).
  - eapply Forall_impl; [ | exact Hm ]. cbv beta. intros l M.
    apply unmarked_line. now apply isDiffMarker_not_header.
  - eapply Forall_impl; [ | exact Hh ]. cbv beta. intros l P.
    now apply plain_unmarked.
Qed.

Lemma oneLine_app_r a b : oneLine (a ++ b) -> oneLine b.
Proof. intros H. now apply Forall_app in H. Qed.

(** A text that holds a code unit that is not white space is not
    blank. *)
Lemma nonblank_text x c y : isSpace c = false -> truthy (trim (x ++ c :: y)) = true.
Proof.
  intros Hc. destruct (trim (x ++ c :: y)) eqn:E; [ | reflexivity ].
  apply trim_nil_iff in E. apply Forall_app in E. destruct E as [_ E].
  inversion E; subst. congruence.
Qed.

Lemma entry_fragment_nonblank l0 a rest :
  truthy (trim (join newline (l0 :: (authorPrefix ++ a) :: rest))) = true.
Proof.
  rewrite join_cons.
  destruct (join_tail_shape (authorPrefix ++ a) rest) as (r & -> & _).
  change (l0 ++ newline ++ (authorPrefix ++ a) ++ r)
    with (l0 ++ newline ++ hd 0%N authorPrefix :: (tl authorPrefix ++ a) ++ r).
  rewrite app_assoc. now apply nonblank_text.
Qed.

(** What the parser makes of the fragment of a well-formed record,
    with or without the marker on its first line. *)
Lemma entry_fragment e lines :
  wellFormedEntry e ->
  lines = entryLines e \/ lines = bodyLines e ->
  occurrences blockSeparator (join newline lines ++ blockSeparator) = 1
  /\ truthy (trim (join newline lines)) = true
  /\ parseBlock (join newline lines) = entryCommit e.
Proof.
  intros W Hl. pose proof (entry_tail_unmarked e W) as T.
  destruct W as (H1 & Hh & Hs & Ht & Hsp & Hb & Hm & Hk & Hn).
  assert (L : exists l0, lines = l0 :: tl (entryLines e)
                         /\ restoreMarker l0 = commitPrefix ++ eHash e
                         /\ oneLine l0).
  { destruct Hl as [-> | ->].
    - exists (commitPrefix ++ eHash e). split; [ reflexivity | split ].
      + unfold restoreMarker.
        assert (E : startsWith (commitPrefix ++ eHash e) commitPrefix = true)
          by (apply startsWith_app; eauto).
        now rewrite E.
      + inversion H1; assumption.
    - exists (eHash e). split; [ reflexivity | split ].
      + unfold restoreMarker. now rewrite Hh.
      + inversion H1 as [|? ? H0 _]; subst.
        exact (oneLine_app_r commitPrefix (eHash e) H0). }
  destruct L as (l0 & -> & R & O).
  assert (F : Forall oneLine (l0 :: tl (entryLines e))).
  { constructor; [ exact O | ]. inversion H1; assumption. }
  split; [ | split ].
  - apply fragment_of_lines; [ discriminate | exact F | exact T ].
  - apply entry_fragment_nonblank.
  - unfold parseBlock. rewrite blockLines_join by exact F. rewrite R.
    change ((commitPrefix ++ eHash e) :: tl (entryLines e)) with (entryLines e).
    now apply parseLines_record.
Qed.

(** Fragments that the separator does not touch and that are not
    blank are parsed one by one. *)
Lemma parseGitLog_fragments frags commits :
  frags <> [] ->
  Forall2 (fun f c =>
             occurrences blockSeparator (f ++ blockSeparator) = 1
             /\ truthy (trim f) = true
             /\ parseBlock f = c) frags commits ->
  parseGitLog (join blockSeparator frags) = commits.
Proof.
  intros N H. unfold parseGitLog, commitBlocks.
  rewrite split_join_fragments; [ | discriminate | exact N | ].
  - clear N. induction H as [|f c frags commits (_ & T & P) _ IH]; [ reflexivity | ].
    cbn [filter]. rewrite T. cbn [map]. rewrite P, IH. reflexivity.
  - clear N. induction H as [|f c frags commits (O & _ & _) _ IH]; constructor;
      assumption.
Qed.

(** A log of records in the format the queries ask for, separated by
    empty lines, is read back record by record, in order, provided
    every record is well formed: no line of it holds a line feed, its
    revision identifier does not begin with [commit ], its subject
    is not blank, does not begin with a space and begins with none
    of the prefixes [commit ], [Author: ], [Date: ], [Branches: ],
    [diff --git], [---] and [+++], its blank lines are blank, its
    marker lines begin with [diff --git], [---] or [+++], the lines
    of its diff begin with none of the seven prefixes, and it has
    lines of diff only after a marker line.  Each record then holds
    the trimmed header values and subject of its entry and the lines
    of its diff joined by line feeds.  (A subject such as
    [commit hooks: add lint] is outside this: it begins with a
    header prefix.) *)
Theorem parseGitLog_log_of_entries es :
  Forall wellFormedEntry es ->
  parseGitLog (logText es) = map entryCommit es.
Proof.
  intros W. destruct es as [|e es]; [ reflexivity | ].
  rewrite logText_fragments.
  inversion W as [|? ? We Wes]; subst.
  apply parseGitLog_fragments; [ discriminate | ].
  cbn [map]. constructor.
  - exact (entry_fragment e (entryLines e) We (or_introl eq_refl)).
  - clear - Wes. induction Wes as [|e' es We' _ IH]; cbn [map]; constructor.
    + exact (entry_fragment e' (bodyLines e') We' (or_intror eq_refl)).
    + exact IH.
Qed.

Lemma wellFormedEntry_decide e : wellFormedEntryb e = true -> wellFormedEntry e.
Proof.
  unfold wellFormedEntryb, wellFormedEntry. rewrite !andb_true_iff.
  intros ((((((((H1 & H2) & H3) & H4) & H5) & H6) & H7) & H8) & H9).
  repeat split.
  - rewrite forallb_forall in H1. apply Forall_forall. intros l Hl.
    specialize (H1 l Hl). rewrite forallb_forall in H1. apply Forall_forall.
    intros c Hc. specialize (H1 c Hc). now apply negb_true_iff in H1.
  - now apply negb_true_iff in H2.
  - exact H3.
  - exact H4.
  - now apply negb_true_iff in H5.
  - rewrite forallb_forall in H6. apply Forall_forall. intros l Hl.
    specialize (H6 l Hl). apply negb_true_iff in H6.
    destruct (trim l); [ reflexivity | discriminate ].
  - rewrite forallb_forall in H7. now apply Forall_forall.
  - rewrite forallb_forall in H8. now apply Forall_forall.
  - intros E. rewrite E in H9. cbn in H9.
    destruct (eHunk e); [ reflexivity | discriminate ].
Qed.

Lemma wellFormedEntries_decide es :
  forallb wellFormedEntryb es = true -> Forall wellFormedEntry es.
Proof.
  intros H. rewrite forallb_forall in H. apply Forall_forall.
  intros e He. apply wellFormedEntry_decide. now apply H.
Qed.

Lemma parseGitLog_log_of_entries_witness :
  Forall wellFormedEntry sampleEntries
  /\ parseGitLog (lit "commit abc1234
Author: Jane Doe <jane@example.com>
Date: 2 days ago
Branches: main, origin/main

Fix bug

diff --git a/f b/f
--- a/f
+++ b/f
@@ -1 +1 @@
-old
+new

commit def5678
Author: Bob <bob@example.com>
Date: 3 weeks ago
Branches: 

Initial import
")
     = [ mkCommit (lit "abc1234") (lit "Jane Doe <jane@example.com>") (lit "2 days ago")
                  (lit "Fix bug") (lit "main, origin/main")
                  (lit "@@ -1 +1 @@
-old
+new");
         mkCommit (lit "def5678") (lit "Bob <bob@example.com>") (lit "3 weeks ago")
                  (lit "Initial import") [] [] ].
Proof.
  assert (W : Forall wellFormedEntry sampleEntries).
  { apply wellFormedEntries_decide. vm_compute. reflexivity. }
  split; [ exact W | ].
  exact (parseGitLog_log_of_entries sampleEntries W).
Defined.

(* ================================================================== *)
(** ** Further properties of the renderer                              *)
(* ================================================================== *)

(** *** Escaping *)

Lemma escapeHTML_cons c s : escapeHTML (c :: s) = escapeChar c ++ escapeHTML s.
Proof. reflexivity. Qed.

Lemma escapeChar_cases c :
  (c = ch "&" /\ escapeChar c = lit "&amp;")
  \/ (c = ch "<" /\ escapeChar c = lit "&lt;")
  \/ (c = ch ">" /\ escapeChar c = lit "&gt;")
  \/ (c = ch "'" /\ escapeChar c = lit "&#39;")
  \/ (c = 34%N /\ escapeChar c = lit "&quot;")
  \/ (isReplaced c = false /\ escapeChar c = [c]).
Proof.
  unfold escapeChar, isReplaced. cbn [existsb replaced].
  destruct (ceq c (ch "&")) eqn:E1; [ apply ceq_eq in E1; auto | ].
  destruct (ceq c (ch "<")) eqn:E2; [ apply ceq_eq in E2; auto | ].
  destruct (ceq c (ch ">")) eqn:E3; [ apply ceq_eq in E3; auto 6 | ].
  destruct (ceq c (ch "'")) eqn:E4; [ apply ceq_eq in E4; auto 6 | ].
  destruct (ceq c 34%N) eqn:E5; [ apply ceq_eq in E5; auto 7 | ].
  do 5 right. auto.
Qed.

Lemma escapeHTML_length s : List.length s <= List.length (escapeHTML s).
Proof.
  induction s as [|c s IH]; [ reflexivity | ].
  rewrite escapeHTML_cons, length_app. cbn [List.length].
  destruct (escapeChar_cases c)
    as [[_ ->]|[[_ ->]|[[_ ->]|[[_ ->]|[[_ ->]|[_ ->]]]]]]; simpl; lia.
Qed.

(** [escapeHTML] loses nothing: two texts with the same escaped form
    are the same text. *)
Theorem escapeHTML_injective a : forall b, escapeHTML a = escapeHTML b -> a = b.
Proof.
  induction a as [|x a IH]; intros b H.
  - destruct b as [|y b]; [ reflexivity | ].
    rewrite escapeHTML_cons in H. exfalso.
    destruct (escapeChar_cases y)
      as [[_ E]|[[_ E]|[[_ E]|[[_ E]|[[_ E]|[_ E]]]]]]; rewrite E in H; discriminate H.
  - destruct b as [|y b].
    + rewrite escapeHTML_cons in H. exfalso.
      destruct (escapeChar_cases x)
        as [[_ E]|[[_ E]|[[_ E]|[[_ E]|[[_ E]|[_ E]]]]]]; rewrite E in H; discriminate H.
    + rewrite !escapeHTML_cons in H.
      remember (escapeHTML a) as A eqn:EA. remember (escapeHTML b) as B eqn:EB.
      assert (K : x = y /\ A = B).
      { destruct (escapeChar_cases x)
          as [[Hx Ex]|[[Hx Ex]|[[Hx Ex]|[[Hx Ex]|[[Hx Ex]|[Hx Ex]]]]]];
        destruct (escapeChar_cases y)
          as [[Hy Ey]|[[Hy Ey]|[[Hy Ey]|[[Hy Ey]|[[Hy Ey]|[Hy Ey]]]]]];
        rewrite Ex, Ey in H; cbn in H; try discriminate H;
        try (injection H as H; subst; split; [ reflexivity | assumption ]);
        try (injection H as H0 _; subst; cbn in Hx; discriminate Hx);
        try (injection H as H0 _; subst; cbn in Hy; discriminate Hy). }
      destruct K as [-> K]. subst A B. f_equal. now apply IH.
Qed.

Lemma escapeHTML_injective_witness :
  escapeHTML (lit "a<b") = escapeHTML (lit "a<b") /\ lit "a<b" = lit "a<b".
Proof.
  assert (H : escapeHTML (lit "a<b") = escapeHTML (lit "a<b")) by reflexivity.
  split; [ exact H | exact (escapeHTML_injective _ _ H) ].
Defined.

(** [escapeHTML] leaves a text as it is exactly when the text holds
    none of the five code units it replaces. *)
Theorem escapeHTML_fixes_plain_text s :
  escapeHTML s = s <-> Forall (fun c => isReplaced c = false) s.
Proof.
  induction s as [|c s IH]; [ split; [ constructor | reflexivity ] | ].
  rewrite escapeHTML_cons. split.
  - intros H. pose proof (escapeHTML_length s) as L.
    destruct (escapeChar_cases c)
      as [[Hc E]|[[Hc E]|[[Hc E]|[[Hc E]|[[Hc E]|[Hc E]]]]]];
      rewrite E in H; cbn in H;
      try (injection H as H0 H; subst c;
           try discriminate H0;
           apply (f_equal (@List.length _)) in H; cbn in H; lia).
    injection H as H. constructor; [ exact Hc | now apply IH ].
  - intros H. inversion H as [|? ? Hc Hs]; subst.
    destruct (escapeChar_cases c)
      as [[Hx E]|[[Hx E]|[[Hx E]|[[Hx E]|[[Hx E]|[_ E]]]]]];
      try (subst c; discriminate Hc).
    rewrite E. cbn [app]. f_equal. now apply IH.
Qed.

(** *** Markup *)

Lemma countUnit_app c a b : countUnit c (a ++ b) = countUnit c a + countUnit c b.
Proof. unfold countUnit. now rewrite filter_app, length_app. Qed.

Lemma countUnit_zero c s : Forall (fun x => ceq c x = false) s -> countUnit c s = 0.
Proof.
  unfold countUnit. induction 1 as [|x s Hx _ IH]; [ reflexivity | ].
  cbn [filter]. now rewrite Hx.
Qed.

Lemma escapeHTML_no_lt s : Forall (fun c => ceq 60%N c = false) (escapeHTML s).
Proof.
  eapply Forall_impl; [ | apply escapeHTML_safe ].
  intros c H. cbn [existsb specials] in H.
  rewrite !orb_false_iff in H. destruct H as (H & _).
  unfold ceq in *. rewrite N.eqb_sym. exact H.
Qed.

Lemma ofNat_no_lt n : Forall (fun c => ceq 60%N c = false) (ofNat n).
Proof.
  eapply Forall_impl; [ | apply ofNat_digits ].
  intros c H. unfold isDigit in H. apply andb_true_iff in H. destruct H as [H1 H2].
  apply N.leb_le in H1, H2. apply N.eqb_neq. lia.
Qed.

Lemma angle_free_escaped c s :
  c = ch "<" \/ c = ch ">" -> countUnit c (escapeHTML s) = 0.
Proof.
  intros [-> | ->]; apply countUnit_zero;
    [ apply escapeHTML_no_lt | apply escapeHTML_no_gt ].
Qed.

Lemma angle_free_number c n : c = ch "<" \/ c = ch ">" -> countUnit c (ofNat n) = 0.
Proof.
  intros [-> | ->]; apply countUnit_zero; [ apply ofNat_no_lt | apply ofNat_no_gt ].
Qed.

(** The angle brackets of a card are those of the template: when the
    first seven code units of the revision identifier hold none, a
    card has as many [<] and as many [>] as the card of a record
    without any text that has the same optional elements. *)
Theorem card_markup_is_template total commit index c :
  c = ch "<" \/ c = ch ">" ->
  Forall (fun x => ceq c x = false) (substring0 (hash commit) 7) ->
  countUnit c (commitCard total commit index)
  = countUnit c (commitCard 1 (skeleton commit) 0).
Proof.
  intros Hc Hh. unfold commitCard, branchElement, diffSection, skeleton.
  cbn [hash author date message branch diff].
  destruct (truthy (branch commit)), (truthy (diff commit)); cbn [truthy];
    change (truthy (lit "x")) with true; cbv iota;
    rewrite !countUnit_app, ?angle_free_escaped, ?angle_free_number by exact Hc;
    rewrite (countUnit_zero c _ Hh);
    reflexivity.
Qed.

Lemma card_markup_is_template_witness :
  let commit := mkCommit (lit "abc1234def") (lit "<b>Jane</b>") (lit "2 days ago")
                         (lit "a < b > c") (lit "main") [] in
  Forall (fun x => ceq (ch "<") x = false) (substring0 (hash commit) 7)
  /\ countUnit (ch "<") (commitCard 3 commit 1)
     = countUnit (ch "<") (commitCard 1 (skeleton commit) 0).
Proof.
  intros commit.
  assert (H : Forall (fun x => ceq (ch "<") x = false) (substring0 (hash commit) 7))
    by (repeat constructor).
  split; [ exact H | ].
  exact (card_markup_is_template 3 commit 1 (ch "<") (or_introl eq_refl) H).
Defined.

(** *** The two documents *)

Section Absent.

Variable needle : str.
Hypothesis needle_nonempty : needle <> [].
Hypothesis needle_last : lastUnit needle = 62%N.
Hypothesis card_passes :
  forall total commit index,
    passes needle (top needle) (cardPieces total commit index) = true.
Hypothesis open_passes :
  forall n title, passes needle [0] (docOpenPieces n title) = true.
Hypothesis tail_passes : passes needle (top needle) [Fixed docTail] = true.

Lemma docOpenPieces_free n title : Forall (wellFormed needle) (docOpenPieces n title).
Proof.
  unfold docOpenPieces.
  repeat (apply Forall_cons || apply Forall_nil);
    cbn [wellFormed]; rewrite ?needle_last;
    first [ exact I | apply escapeHTML_no_gt | apply ofNat_no_gt | apply plural_no_gt ].
Qed.

Lemma cards_extend_absent total cards : forall index s,
  covers needle (top needle) s ->
  covers needle (top needle) (s ++ join [] (mapi_from (commitCard total) index cards)).
Proof.
  induction cards as [|c cards IH]; intros index s C.
  - simpl. now rewrite app_nil_r.
  - cbn [mapi_from]. rewrite join_nil_cons, app_assoc.
    apply IH. rewrite commitCard_pieces.
    apply pieces_extend;
      [ exact needle_nonempty | now apply cardPieces_well_formed
      | apply card_passes | exact C ].
Qed.

(** A needle that ends with [>] and that the scanner passes over
    the literals of the templates occurs in no populated document. *)
Lemma populated_document_absent c cs title :
  ~ occurs needle (formatCommitsHTML (c :: cs) title).
Proof.
  rewrite document_pieces, app_assoc.
  apply (covers_clean needle (top needle)).
  apply (fixed_extend needle needle_nonempty); [ exact tail_passes | ].
  unfold commitCards, mapi. apply cards_extend_absent.
  apply pieces_start;
    [ exact needle_nonempty | apply docOpenPieces_free | apply open_passes ].
Qed.

End Absent.

Ltac cards_scanned :=
  intros; unfold cardPieces, branchPieces, diffPieces;
  match goal with
  | |- context [truthy (branch ?c)] =>
    destruct (truthy (branch c)), (truthy (diff c)); scanned
  end.

Lemma emptyPieces_free needle title :
  lastUnit needle = 62%N -> Forall (wellFormed needle) (emptyPieces title).
Proof.
  intros L. unfold emptyPieces.
  repeat (apply Forall_cons || apply Forall_nil);
    cbn [wellFormed]; rewrite ?L; first [ exact I | apply escapeHTML_no_gt ].
Qed.

Lemma occurs_framed_twice a v1 m v2 b post x1 x2 :
  startsWith (rev a) (rev x1) = true -> startsWith b x2 = true ->
  occurs (x1 ++ v1 ++ m ++ v2 ++ x2) (a ++ v1 ++ m ++ v2 ++ b ++ post).
Proof.
  intros Ha Hb. apply startsWith_app in Ha, Hb.
  destruct Ha as [ra Ea], Hb as [rb ->].
  apply (f_equal (@rev _)) in Ea. rewrite rev_involutive, rev_app_distr, rev_involutive in Ea.
  subst a. exists (rev ra), (rb ++ post). now rewrite <- !app_assoc.
Qed.

(** Without records the document is the empty state: it shows the
    message that no commit was found and holds no card. *)
Theorem empty_state_document title :
  occurs noResultsText (formatCommitsHTML [] title)
  /\ ~ occurs cardTag (formatCommitsHTML [] title).
Proof.
  split.
  - unfold formatCommitsHTML. do 4 apply occurs_app_r.
    apply includes_occurs. scanned.
  - rewrite empty_document_pieces.
    apply pieces_clean;
      [ needle_nonempty | apply emptyPieces_free; reflexivity | scanned ].
Qed.

(** With records the document is never the empty state: it holds no
    [no-results] element, it announces the number of records (with
    [commit] in the singular for one record) and it holds the cards
    of the records. *)
Theorem populated_document c cs title :
  let document := formatCommitsHTML (c :: cs) title in
  ~ occurs noResultsTag document
  /\ occurs (foundText (List.length (c :: cs))) document
  /\ occurs cardTag document.
Proof.
  intros document. split; [ | split ].
  - apply populated_document_absent;
      [ needle_nonempty | reflexivity | cards_scanned | intros; scanned | scanned ].
  - unfold document, formatCommitsHTML, foundText, plural. cbv zeta.
    do 4 apply occurs_app_r.
    destruct (List.length (c :: cs) =? 1); cbn [negb];
      apply occurs_framed_twice; scanned.
  - apply (occurs_trans _ (join [] (commitCards (c :: cs))));
      [ | apply cards_in_document ].
    unfold commitCards, mapi. cbn [mapi_from]. rewrite join_nil_cons.
    apply occurs_app_l. unfold commitCard. apply occurs_app_l.
    apply includes_occurs. scanned.
Qed.

(** No document, whatever the records and the title, holds the
    opening tag [<script>]: the escaped fields hold no [<], and the
    seven code units of the raw revision identifier are too few. *)
Theorem no_script_tag commits title :
  ~ occurs scriptTag (formatCommitsHTML commits title).
Proof.
  destruct commits as [|c cs].
  - rewrite empty_document_pieces.
    apply pieces_clean;
      [ needle_nonempty | apply emptyPieces_free; reflexivity | scanned ].
  - apply populated_document_absent;
      [ needle_nonempty | reflexivity | cards_scanned | intros; scanned | scanned ].
Qed.

(* ================================================================== *)
(** ** Further properties of the history queries                       *)
(* ================================================================== *)

Lemma functionCommand_text functionName rel :
  lit "git " ++ (lit "log " ++ prettyFormat ++ lit " -L :" ++ functionName ++ tpl ":`"
                   ++ rel ++ tpl "`")
  = functionCommand functionName rel.
Proof. unfold functionCommand, prettyFormat. vm_compute. reflexivity. Qed.

Lemma searchCommand_text codeSnippet rel :
  lit "git " ++ (tpl "log -S `" ++ codeSnippet ++ tpl "` " ++ prettyFormat
                   ++ tpl " -- `" ++ rel ++ tpl "`")
  = searchCommand codeSnippet rel.
Proof. unfold searchCommand, prettyFormat. vm_compute. reflexivity. Qed.

Section QueryRuns.

Variable World : Type.
Variable execSync : str -> str -> World -> (str + str) * World.
Variable dirname : str -> str.
Variable relative : str -> str -> str.

Ltac run_tool :=
  match goal with
  | |- context [execSync ?c ?d ?w] =>
    let e := fresh "e" in
    let o := fresh "o" in
    let w' := fresh "w" in
    destruct (execSync c d w) as [[e | o] w']
  end.

Ltac unfold_queries :=
  unfold getLineHistory, getFunctionHistory, searchCodeHistory, getGitRoot,
    executeGit, try_catch, bind, runExecSync, ret, throw.

Ltac settle :=
  intros H; injection H as <- <-;
  cbn [calls]; rewrite <- ?app_assoc.

(** Whatever the tool does, [getLineHistory] throws only the error
    [Not a git repository] or an error whose message begins with
    [Git command failed: ]; it runs the tool at least once and at most
    three times, first to resolve the root, in the directory of the
    file. *)
Theorem getLineHistory_runs filePath startLine endLine s r s' :
  getLineHistory execSync dirname relative filePath startLine endLine s = (r, s') ->
  (forall msg, r = Throw msg -> typedFailure msg)
  /\ exists more,
      calls s' = calls s ++ mkCall revParse (dirname filePath) :: more
      /\ List.length more <= 2.
Proof.
  unfold typedFailure, gitFailure. unfold_queries.
  run_tool; cbn [noRoot rootOf negb].
  - settle. split; [ intros msg [= <-]; now left | exists []; split; [ reflexivity | simpl; lia ] ].
  - destruct (truthy (trim o)); cbn [negb].
    + run_tool.
      * destruct (negb (startLine =? endLine)).
        -- run_tool; settle.
           ++ split; [ intros msg [= <-]; right; eexists; reflexivity | ].
              eexists [_; _]. split; [ reflexivity | simpl; lia ].
           ++ split; [ intros msg [= ] | ].
              eexists [_; _]. split; [ reflexivity | simpl; lia ].
        -- settle. split; [ intros msg [= <-]; right; eexists; reflexivity | ].
           eexists [_]. split; [ reflexivity | simpl; lia ].
      * settle. split; [ intros msg [= ] | ].
        eexists [_]. split; [ reflexivity | simpl; lia ].
    + settle. split; [ intros msg [= <-]; now left | exists []; split; [ reflexivity | simpl; lia ] ].
Qed.

(** [getFunctionHistory] and [searchCodeHistory] throw the same two
    kinds of error and run the tool at most twice: once to resolve
    the root and once for the log; they have no fallback. *)
Theorem other_queries_run filePath text s r s' :
  getFunctionHistory execSync dirname relative filePath text s = (r, s')
  \/ searchCodeHistory execSync dirname relative filePath text s = (r, s') ->
  (forall msg, r = Throw msg -> typedFailure msg)
  /\ exists more,
      calls s' = calls s ++ mkCall revParse (dirname filePath) :: more
      /\ List.length more <= 1.
Proof.
  unfold typedFailure, gitFailure. unfold_queries.
  intros [H | H]; revert H;
    (run_tool; cbn [noRoot rootOf negb];
     [ settle; split; [ intros msg [= <-]; now left
                      | exists []; split; [ reflexivity | simpl; lia ] ]
     | destruct (truthy (trim o)); cbn [negb];
       [ run_tool; settle;
         [ split; [ intros msg [= <-]; right; eexists; reflexivity | ];
           eexists [_]; split; [ reflexivity | simpl; lia ]
         | split; [ intros msg [= ] | ];
           eexists [_]; split; [ reflexivity | simpl; lia ] ]
       | settle; split; [ intros msg [= <-]; now left
                        | exists []; split; [ reflexivity | simpl; lia ] ] ] ]).
Qed.

(** The three queries on success, on the arguments the source
    builds. *)
Lemma queries_succeed_args filePath s output w1 :
  execSync revParse (dirname filePath) (world s) = (inr output, w1) ->
  truthy (trim output) = true ->
  let root := trim output in
  let rel := relative root filePath in
  let first := mkCall revParse (dirname filePath) in
  let answers args run :=
    forall log w2,
      execSync (lit "git " ++ args) root w1 = (inr log, w2) ->
      run = (Ok (parseGitLog log),
             mkSys w2 (calls s ++ [first; mkCall (lit "git " ++ args) root])) in
  (forall startLine endLine,
      answers (rangeArgs startLine endLine rel)
              (getLineHistory execSync dirname relative filePath startLine endLine s))
  /\ (forall functionName,
         answers (lit "log " ++ prettyFormat ++ lit " -L :" ++ functionName ++ tpl ":`"
                    ++ rel ++ tpl "`")
                 (getFunctionHistory execSync dirname relative filePath functionName s))
  /\ (forall codeSnippet,
         answers (tpl "log -S `" ++ codeSnippet ++ tpl "` " ++ prettyFormat
                    ++ tpl " -- `" ++ rel ++ tpl "`")
                 (searchCodeHistory execSync dirname relative filePath codeSnippet s)).
Proof.
  intros E T root rel first answers. subst answers root rel first. cbv beta.
  repeat split; intros; unfold_queries; rewrite E; cbn [noRoot rootOf];
    rewrite T; cbn [negb world calls]; unfold getRelativePath;
    match goal with
    | H : execSync _ _ _ = _ |- _ => rewrite H
    end;
    cbn [calls]; rewrite <- app_assoc; reflexivity.
Qed.

(** When the root is resolved and the tool answers the first log
    query, each of the three queries returns the records parsed from
    that answer after exactly two invocations, the second in the
    root: [git log] with the format, then [-L start,end:"path"] for
    the range, [-L :name:"path"] for the function and
    [-S "snippet" ... -- "path"] for the search, the path being that
    of the file relative to the root. *)
Theorem queries_succeed filePath s output w1 :
  execSync revParse (dirname filePath) (world s) = (inr output, w1) ->
  truthy (trim output) = true ->
  let root := trim output in
  let rel := relative root filePath in
  let first := mkCall revParse (dirname filePath) in
  let answers cmd run :=
    forall log w2,
      execSync cmd root w1 = (inr log, w2) ->
      run = (Ok (parseGitLog log), mkSys w2 (calls s ++ [first; mkCall cmd root])) in
  (forall startLine endLine,
      answers (rangeCommand startLine endLine rel)
              (getLineHistory execSync dirname relative filePath startLine endLine s))
  /\ (forall functionName,
         answers (functionCommand functionName rel)
                 (getFunctionHistory execSync dirname relative filePath functionName s))
  /\ (forall codeSnippet,
         answers (searchCommand codeSnippet rel)
                 (searchCodeHistory execSync dirname relative filePath codeSnippet s)).
Proof.
  intros E T root rel first answers. subst answers. cbv beta.
  destruct (queries_succeed_args filePath s output w1 E T) as (Hl & Hf & Hs).
  repeat split; intros.
  - rewrite <- rangeCommand_text in *. now apply Hl.
  - rewrite <- functionCommand_text in *. now apply Hf.
  - rewrite <- searchCommand_text in *. now apply Hs.
Qed.

(** When the tool answers the root query with nothing but white
    space, the root is the empty string, which counts as no root:
    each query throws [Not a git repository] without a log query. *)
Theorem blank_root_is_no_root filePath s output w1 :
  execSync revParse (dirname filePath) (world s) = (inr output, w1) ->
  trim output = [] ->
  let s' := mkSys w1 (calls s ++ [mkCall revParse (dirname filePath)]) in
  getGitRoot execSync dirname filePath s = (Ok (Some []), s')
  /\ (forall startLine endLine,
         getLineHistory execSync dirname relative filePath startLine endLine s
         = (Throw notARepository, s'))
  /\ (forall functionName,
         getFunctionHistory execSync dirname relative filePath functionName s
         = (Throw notARepository, s'))
  /\ (forall codeSnippet,
         searchCodeHistory execSync dirname relative filePath codeSnippet s
         = (Throw notARepository, s')).
Proof.
  intros E B s'. repeat split; intros; unfold_queries; rewrite E, B; reflexivity.
Qed.

End QueryRuns.

(* ================================================================== *)
(** ** Further properties of the cursor heuristic                      *)
(* ================================================================== *)

Lemma run_length_le cls s : run_length cls s <= List.length s.
Proof.
  induction s as [|c s IH]; simpl; [ lia | ].
  destruct (cls c); simpl; lia.
Qed.

Lemma firstn_run cls s : forall j,
  j <= run_length cls s -> Forall (fun c => cls c = true) (firstn j s).
Proof.
  induction s as [|c s IH]; intros j H.
  - rewrite firstn_nil. constructor.
  - destruct j as [|j]; [ constructor | ].
    simpl in H. destruct (cls c) eqn:E; [ | lia ].
    cbn [firstn]. constructor; [ exact E | apply IH; lia ].
Qed.

Lemma firstn_run_nonempty cls s j :
  1 <= j -> j <= run_length cls s -> firstn j s <> [].
Proof.
  intros H1 H2. pose proof (run_length_le cls s) as L.
  destruct s as [|c s]; [ simpl in *; lia | ].
  destruct j as [|j]; [ lia | ]. discriminate.
Qed.

Section Captures.

Variable k : cont.
Hypothesis k_good : forall pos s cap, goodCapture cap -> goodResult (k pos s cap).

Lemma rep_try_good min pos s cap : forall j,
  goodCapture cap -> goodResult (rep_try min j pos s cap k).
Proof.
  induction j as [|j IH]; intros G; cbn [rep_try].
  - destruct (k (pos + 0) (skipn 0 s) cap) eqn:E; [ | exact I ].
    rewrite <- E. now apply k_good.
  - destruct (k (pos + S j) (skipn (S j) s) cap) eqn:E.
    + rewrite <- E. now apply k_good.
    + destruct (min <=? j); [ now apply IH | exact I ].
Qed.

(** The repetition under the capture group hands the continuation
    a non-empty run of word characters. *)
Lemma rep_try_capture pos s cap : forall j,
  1 <= j -> j <= run_length isWord s ->
  goodResult
    (rep_try 1 j pos s cap
       (fun pos' s' _ => k pos' s' (Some (firstn (pos' - pos) s)))).
Proof.
  induction j as [|j IH]; intros H1 H2; [ lia | ].
  cbn [rep_try].
  replace (pos + S j - pos) with (S j) by lia.
  destruct (k (pos + S j) (skipn (S j) s) (Some (firstn (S j) s))) eqn:E.
  - rewrite <- E. apply k_good. split.
    + now apply (firstn_run_nonempty isWord).
    + now apply firstn_run.
  - destruct j as [|j]; [ exact I | ].
    cbn [Nat.leb]. apply IH; lia.
Qed.

End Captures.

Lemma m_good r : forall k pos s cap,
  wordCaptures r ->
  (forall pos' s' cap', goodCapture cap' -> goodResult (k pos' s' cap')) ->
  goodCapture cap -> goodResult (m r pos s cap k).
Proof.
  induction r as [c | cls | min cls | r1 IH1 r2 IH2 | r1 IH1 r2 IH2 | r1 IH1 | r1 IH1 | ];
    intros k pos s cap W K G; cbn [m].
  - destruct s as [|x s]; [ exact I | ]. destruct (ceq x c); [ now apply K | exact I ].
  - destruct s as [|x s]; [ exact I | ]. destruct (cls x); [ now apply K | exact I ].
  - destruct (min <=? run_length cls s); [ now apply rep_try_good | exact I ].
  - destruct W as [W1 W2]. apply IH1; [ exact W1 | | exact G ].
    intros pos' s' cap' G'. now apply IH2.
  - destruct W as [W1 W2].
    destruct (m r1 pos s cap k) eqn:E.
    + rewrite <- E. now apply IH1.
    + now apply IH2.
  - destruct (m r1 pos s cap k) eqn:E.
    + rewrite <- E. now apply IH1.
    + now apply K.
  - cbn [wordCaptures] in W. subst r1. cbn [m].
    destruct (1 <=? run_length isWord s) eqn:L; [ | exact I ].
    apply Nat.leb_le in L. now apply rep_try_capture.
  - destruct (pos =? 0); [ now apply K | exact I ].
Qed.

Lemma exec_from_good r s : forall pos,
  wordCaptures r -> goodResult (exec_from r pos s).
Proof.
  induction s as [|c s IH]; intros pos W; cbn [exec_from].
  - destruct (m r pos [] None (fun _ _ cap => Some cap)) eqn:E; [ | exact I ].
    rewrite <- E. apply m_good; [ exact W | intros ? ? ? G; exact G | exact I ].
  - destruct (m r pos (c :: s) None (fun _ _ cap => Some cap)) eqn:E.
    + rewrite <- E. apply m_good; [ exact W | intros ? ? ? G; exact G | exact I ].
    + now apply IH.
Qed.

Lemma patterns_capture_words : Forall wordCaptures patterns.
Proof. repeat constructor. Qed.

(** A name found by the heuristic is a non-empty run of word
    characters (letters, digits and underscores), whatever the line:
    the heuristic never answers the empty string nor a name with a
    space, a quote or any other punctuation. *)
Theorem guessSymbolName_is_word text name :
  guessSymbolName text = Some name -> wordName name.
Proof.
  unfold guessSymbolName. pose proof patterns_capture_words as W.
  induction W as [|p ps Wp _ IH]; cbn [firstMatch]; [ discriminate | ].
  pose proof (exec_from_good p text 0 Wp) as G. unfold match_.
  destruct (exec_from p 0 text) as [cap|]; [ | exact IH ].
  intros ->. exact G.
Qed.

Lemma guessSymbolName_is_word_witness :
  guessSymbolName (lit "  async fetchAll_2 (urls) {") = Some (lit "fetchAll_2")
  /\ wordName (lit "fetchAll_2").
Proof.
  assert (H : guessSymbolName (lit "  async fetchAll_2 (urls) {") = Some (lit "fetchAll_2"))
    by (vm_compute; reflexivity).
  split; [ exact H | exact (guessSymbolName_is_word _ _ H) ].
Defined.

(* ================================================================== *)
(** ** Properties of the hover provider and of the commands            *)
(* ================================================================== *)

Section HandlerProperties.

Variable World : Type.
Variable execSync : str -> str -> World -> (str + str) * World.
Variable dirname : str -> str.
Variable relative : str -> str -> str.
Variable basename : str -> str.
Variable showInputBox : World -> option str * World.

Ltac run_tool :=
  match goal with
  | |- context [execSync ?c ?d ?w] =>
    let e := fresh "e" in
    let o := fresh "o" in
    let w' := fresh "w" in
    destruct (execSync c d w) as [[e | o] w']
  end.

Ltac run_tool_eq :=
  match goal with
  | |- context [execSync ?c ?d ?w] =>
    let e := fresh "e" in
    let o := fresh "o" in
    let w' := fresh "w" in
    let E := fresh "E" in
    destruct (execSync c d w) as [[e | o] w'] eqn:E
  end.

Ltac unfold_handlers :=
  unfold provideHover, lineHistoryCommand, functionHistoryCommand, showCommitsPanel,
    tryH, bindH, retH, show, query, askName,
    getLineHistory, getFunctionHistory, getGitRoot,
    executeGit, try_catch, bind, runExecSync, ret, throw.

(** The hover provider never throws, and every failure ends in no
    hover: the result is a hover only when the root was resolved
    twice (two answers that are not blank), the log query for the
    single line [-L line,line] in the second root succeeded and its
    answer holds at least one record; the hover is then that of the
    first record.  In every other case - a tool that fails, a blank
    root, no record - the result is no hover.  The tool runs at most
    three times and nothing is retried: the root resolution, the
    root resolution again, and that one log query. *)
Theorem provideHover_is_silent file positionLine s r s' :
  provideHover execSync dirname relative file positionLine s = (r, s') ->
  let line := positionLine + 1 in
  let resolve := mkCall revParse (dirname file) in
  let logOf root := rangeCommand line line (relative root file) in
  (exists hover, r = Ok hover)
  /\ (exists more,
         calls s' = calls s ++ resolve :: more
         /\ List.length more <= 2
         /\ (more = [] \/ more = [resolve]
             \/ exists root, more = [resolve; mkCall (logOf root) root]))
  /\ (r = Ok None
      \/ exists out1 w1 out2 w2 log w3 latest older,
           execSync revParse (dirname file) (world s) = (inr out1, w1)
           /\ truthy (trim out1) = true
           /\ execSync revParse (dirname file) w1 = (inr out2, w2)
           /\ truthy (trim out2) = true
           /\ execSync (logOf (trim out2)) (trim out2) w2 = (inr log, w3)
           /\ parseGitLog log = latest :: older
           /\ r = Ok (Some (hoverMarkdown latest (S (List.length older))))
           /\ s' = mkSys w3 (calls s ++ [resolve; resolve;
                                         mkCall (logOf (trim out2)) (trim out2)])).
Proof.
  intros E line resolve logOf. revert E. subst line resolve logOf. cbv beta.
  unfold_handlers. rewrite Nat.eqb_refl. cbn [negb].
  run_tool_eq; cbn [noRoot rootOf negb world calls].
  - intros [= <- <-]. cbn [calls]. split; [ eauto | split; [ | now left ] ].
    exists []. split; [ reflexivity | split; [ simpl; lia | now left ] ].
  - destruct (truthy (trim o)) eqn:T1; cbn [negb].
    + run_tool_eq; cbn [noRoot rootOf negb world calls].
      * intros [= <- <-]. cbn [calls]. rewrite <- app_assoc.
        split; [ eauto | split; [ | now left ] ].
        eexists [_]. split; [ reflexivity | split; [ simpl; lia | right; now left ] ].
      * destruct (truthy (trim o0)) eqn:T2; cbn [negb].
        -- unfold getRelativePath. rewrite !rangeCommand_text.
           run_tool_eq; cbn [world calls].
           ++ intros [= <- <-]. cbn [calls]. rewrite <- !app_assoc.
              split; [ eauto | split; [ | now left ] ].
              eexists [_; _].
              split; [ reflexivity | split; [ simpl; lia | right; right; eauto ] ].
           ++ destruct (parseGitLog o1) as [ | latest older ] eqn:P;
                intros [= <- <-]; cbn [calls]; rewrite <- !app_assoc.
              ** split; [ eauto | split; [ | now left ] ].
                 eexists [_; _].
                 split; [ reflexivity | split; [ simpl; lia | right; right; eauto ] ].
              ** split; [ eauto | split ].
                 { eexists [_; _].
                   split; [ reflexivity | split; [ simpl; lia | right; right; eauto ] ]. }
                 right. exists o, w, o0, w0, o1, w1, latest, older.
                 repeat split; assumption || reflexivity.
        -- intros [= <- <-]. cbn [calls]. rewrite <- app_assoc.
           split; [ eauto | split; [ | now left ] ].
           eexists [_]. split; [ reflexivity | split; [ simpl; lia | right; now left ] ].
    + intros [= <- <-]. cbn [calls]. split; [ eauto | split; [ | now left ] ].
      exists []. split; [ reflexivity | split; [ simpl; lia | now left ] ].
Qed.

(** When the root is resolved (both times) and the log query
    answers with at least one record, the hover shows the newest
    record only: its date, the first eight code units of its
    revision identifier, its author and its message, with the number
    of records. *)
Theorem provideHover_shows_latest file positionLine s out1 w1 out2 w2 log w3 latest older :
  let line := positionLine + 1 in
  let root := trim out2 in
  let command := lit "git " ++ rangeArgs line line (relative root file) in
  execSync revParse (dirname file) (world s) = (inr out1, w1) ->
  truthy (trim out1) = true ->
  execSync revParse (dirname file) w1 = (inr out2, w2) ->
  truthy root = true ->
  execSync command root w2 = (inr log, w3) ->
  parseGitLog log = latest :: older ->
  provideHover execSync dirname relative file positionLine s
  = (Ok (Some (hoverMarkdown latest (S (List.length older)))),
     mkSys w3 (calls s ++ [mkCall revParse (dirname file);
                           mkCall revParse (dirname file);
                           mkCall command root]))
  /\ occurs (lit "**Commit:** `" ++ firstn 8 (hash latest) ++ lit "`")
            (hoverMarkdown latest (S (List.length older))).
Proof.
  intros line root command E1 T1 E2 T2 E3 P. subst line root command. split.
  - unfold_handlers. rewrite Nat.eqb_refl.
    rewrite E1. cbn [noRoot rootOf]. rewrite T1. cbn [negb world calls].
    rewrite E2. cbn [noRoot rootOf]. rewrite T2. cbn [negb world calls].
    unfold getRelativePath. rewrite E3, P.
    cbn [calls List.length]. rewrite <- !app_assoc. reflexivity.
  - unfold hoverMarkdown, substring0. do 2 apply occurs_app_r.
    apply occurs_app_l.
    exists [], (skipn 1 (lit "`

")).
    cbn [app]. rewrite <- !app_assoc. reflexivity.
Qed.

(** A query for the history of a line or of a function fails only
    with one of the two kinds of failure. *)
Lemma query_failure_typed filePath line name s msg s' :
  getLineHistory execSync dirname relative filePath line line s = (Throw msg, s')
  \/ getFunctionHistory execSync dirname relative filePath name s = (Throw msg, s') ->
  typedFailure msg.
Proof.
  unfold typedFailure, gitFailure.
  unfold getLineHistory, getFunctionHistory, getGitRoot,
    executeGit, try_catch, bind, runExecSync, ret, throw.
  rewrite Nat.eqb_refl. cbn [negb].
  intros [E | E]; revert E;
    (run_tool; cbn [noRoot rootOf negb];
     [ intros [= <- <-]; now left
     | destruct (truthy (trim o)); cbn [negb];
       [ run_tool; intros [= <- <-]; right; eexists; reflexivity
       | intros [= <- <-]; now left ] ]).
Qed.

(** The line-history command never throws.  Without an editor it
    shows one error and runs nothing.  With an editor it announces
    the search, runs the query for the line of the cursor (counted
    from 1) as a range of that one line, and then shows exactly one
    thing: when the query returns records, the panel whose title
    names the line and the file and whose document is that of
    exactly these records; when the query throws, the error message
    [Error: ] followed by the message thrown, which is one of the
    two kinds of failure.  The tool is run by the query only. *)
Theorem lineHistoryCommand_outcome editor h r h' :
  lineHistoryCommand execSync dirname relative basename editor h = (r, h') ->
  r = Ok tt
  /\ match editor with
     | None =>
       h' = mkHost (sys h) (shown h ++ [ErrorMessage (lit "No active editor")])
     | Some ed =>
       let line := cursorLine ed + 1 in
       let title :=
         lit "History for Line " ++ ofNat line ++ lit " in " ++ basename (fileName ed) in
       let answer :=
         getLineHistory execSync dirname relative (fileName ed) line line (sys h) in
       let searching := InformationMessage (lit "Searching git history...") in
       sys h' = snd answer
       /\ match fst answer with
          | Ok commits =>
            shown h'
            = shown h ++ [searching; WebviewPanel title (formatCommitsHTML commits title)]
          | Throw msg =>
            shown h' = shown h ++ [searching; ErrorMessage (lit "Error: " ++ msg)]
            /\ typedFailure msg
          end
     end.
Proof.
  destruct editor as [ed|]; [ | intros [= <- <-]; split; reflexivity ].
  intros E. cbv zeta.
  pose proof (query_failure_typed (fileName ed) (cursorLine ed + 1) [] (sys h)) as F.
  revert E F.
  unfold lineHistoryCommand, tryH, bindH, query, showCommitsPanel, show.
  cbn [sys shown].
  destruct (getLineHistory execSync dirname relative (fileName ed)
              (cursorLine ed + 1) (cursorLine ed + 1) (sys h)) as [[commits | msg] s1];
    cbn [fst snd sys shown]; intros [= <- <-] F; cbn [sys shown];
    rewrite <- app_assoc; cbn [app].
  - repeat split.
  - repeat split. apply (F msg s1). now left.
Qed.

(** The function-history command never throws.  Without an editor
    it shows one error and runs nothing.  With an editor, the input
    box is shown exactly when the heuristic finds no name on the
    line of the cursor, and the name is then the answer of the user.
    With no name (the box dismissed or left empty) the command stops
    there: no message, no panel, and the tool is not run.  With a
    name it announces the search for that name, runs the query for
    the function of that name, and then shows exactly one thing:
    when the query returns records, the panel whose title names the
    function and the file and whose document is that of exactly
    these records; when the query throws, the error message
    [Error: ] followed by the message thrown, which is one of the
    two kinds of failure. *)
Theorem functionHistoryCommand_outcome editor h r h' :
  functionHistoryCommand execSync dirname relative basename showInputBox editor h
  = (r, h') ->
  r = Ok tt
  /\ match editor with
     | None =>
       h' = mkHost (sys h) (shown h ++ [ErrorMessage (lit "No active editor")])
     | Some ed =>
       let detected := getFunctionNameAtCursor (lineAt ed) (cursorLine ed) in
       let asked := noName detected in
       let reply := showInputBox (world (sys h)) in
       let name := if asked then fst reply else detected in
       let before := if asked then [InputBox] else [] in
       let s0 := if asked then mkSys (snd reply) (calls (sys h)) else sys h in
       if noName name then h' = mkHost s0 (shown h ++ before)
       else
         let functionName := nameOf name in
         let title :=
           tpl "History for function `" ++ functionName ++ tpl "` in "
             ++ basename (fileName ed) in
         let answer :=
           getFunctionHistory execSync dirname relative (fileName ed) functionName s0 in
         let tracking :=
           InformationMessage (lit "Tracking history for function: " ++ functionName) in
         sys h' = snd answer
         /\ match fst answer with
            | Ok commits =>
              shown h'
              = shown h ++ before
                  ++ [tracking; WebviewPanel title (formatCommitsHTML commits title)]
            | Throw msg =>
              shown h'
              = shown h ++ before ++ [tracking; ErrorMessage (lit "Error: " ++ msg)]
              /\ typedFailure msg
            end
     end.
Proof.
  destruct editor as [ed|]; [ | intros [= <- <-]; split; reflexivity ].
  intros E. cbv zeta. revert E.
  unfold functionHistoryCommand, tryH, bindH, query, showCommitsPanel, show, askName, retH.
  set (detected := getFunctionNameAtCursor (lineAt ed) (cursorLine ed)).
  destruct (noName detected) eqn:D.
  - destruct (showInputBox (world (sys h))) as [reply w] eqn:A.
    cbn [fst snd sys shown world calls].
    destruct (noName reply) eqn:N.
    + intros [= <- <-]. split; reflexivity.
    + cbn [fst snd sys shown world calls].
      pose proof (query_failure_typed (fileName ed) 0 (nameOf reply)
                    (mkSys w (calls (sys h)))) as F. revert F.
      destruct (getFunctionHistory execSync dirname relative (fileName ed)
                  (nameOf reply) (mkSys w (calls (sys h)))) as [[commits | msg] s1];
        cbn [fst snd sys shown]; intros F [= <- <-]; cbn [sys shown];
        rewrite <- !app_assoc; cbn [app].
      * repeat split.
      * repeat split. apply (F msg s1). now right.
  - cbn [fst snd sys shown world calls]. rewrite D.
    cbn [fst snd sys shown world calls].
    pose proof (query_failure_typed (fileName ed) 0 (nameOf detected) (sys h)) as F.
    revert F.
    destruct (getFunctionHistory execSync dirname relative (fileName ed)
                (nameOf detected) (sys h)) as [[commits | msg] s1];
      cbn [fst snd sys shown]; intros F [= <- <-]; cbn [sys shown];
      rewrite <- ?app_assoc; cbn [app].
    + repeat split.
    + repeat split. apply (F msg s1). now right.
Qed.

End HandlerProperties.

(* ================================================================== *)
(** ** Sample runs                                                     *)
(* ================================================================== *)

Lemma getLineHistory_runs_witness :
  getLineHistory flakyTool sampleDirname sampleRelative samplePath 3 5 (mkSys 0 [])
  = (Ok [mkCommit (lit "abc") (lit "Jane") [] [] [] []],
     mkSys 3 [mkCall revParse (lit "/repo");
              mkCall (lit "git " ++ rangeArgs 3 5 (lit "a.js")) (lit "/repo");
              mkCall (lit "git " ++ rangeArgs 3 3 (lit "a.js")) (lit "/repo")])
  /\ exists more,
      [mkCall revParse (lit "/repo");
       mkCall (lit "git " ++ rangeArgs 3 5 (lit "a.js")) (lit "/repo");
       mkCall (lit "git " ++ rangeArgs 3 3 (lit "a.js")) (lit "/repo")]
      = [] ++ mkCall revParse (sampleDirname samplePath) :: more
      /\ List.length more <= 2.
Proof.
  assert (E : getLineHistory flakyTool sampleDirname sampleRelative samplePath 3 5
                (mkSys 0 [])
              = (Ok [mkCommit (lit "abc") (lit "Jane") [] [] [] []],
                 mkSys 3 [mkCall revParse (lit "/repo");
                          mkCall (lit "git " ++ rangeArgs 3 5 (lit "a.js")) (lit "/repo");
                          mkCall (lit "git " ++ rangeArgs 3 3 (lit "a.js")) (lit "/repo")]))
    by (vm_compute; reflexivity).
  split; [ exact E | ].
  exact (proj2 (getLineHistory_runs nat flakyTool sampleDirname sampleRelative
                  samplePath 3 5 (mkSys 0 []) _ _ E)).
Defined.

Lemma other_queries_run_witness :
  getFunctionHistory failingTool sampleDirname sampleRelative samplePath (lit "total")
    (mkSys tt [])
  = (Throw notARepository, mkSys tt [mkCall revParse (lit "/repo")])
  /\ typedFailure notARepository.
Proof.
  assert (E : getFunctionHistory failingTool sampleDirname sampleRelative samplePath
                (lit "total") (mkSys tt [])
              = (Throw notARepository, mkSys tt [mkCall revParse (lit "/repo")]))
    by reflexivity.
  split; [ exact E | ].
  exact (proj1 (other_queries_run unit failingTool sampleDirname sampleRelative
                  samplePath (lit "total") (mkSys tt []) _ _ (or_introl E))
               notARepository eq_refl).
Defined.

Lemma queries_succeed_witness :
  let ranged :=
    tpl "git log --pretty=format:`commit %H%nAuthor: %an <%ae>%nDate: %ad%nBranches: %D%n%n%s%n` --date=relative -L 5,5:`a.js`" in
  steadyTool revParse (sampleDirname samplePath) 0 = (inr (lit "/repo
"), 1)
  /\ truthy (trim (lit "/repo
")) = true
  /\ getLineHistory steadyTool sampleDirname sampleRelative samplePath 5 5 (mkSys 0 [])
     = (Ok [mkCommit (lit "abc1234def") (lit "Jane") (lit "2 days ago") (lit "Fix bug")
                     (lit "main") []],
        mkSys 2 [mkCall revParse (lit "/repo"); mkCall ranged (lit "/repo")]).
Proof.
  intros ranged.
  assert (E : steadyTool revParse (sampleDirname samplePath) (world (mkSys 0 []))
              = (inr (lit "/repo
"), 1)) by reflexivity.
  assert (T : truthy (trim (lit "/repo
")) = true) by reflexivity.
  split; [ exact E | split; [ exact T | ] ].
  destruct (queries_succeed nat steadyTool sampleDirname sampleRelative samplePath
              (mkSys 0 []) _ 1 E T) as (Hl & _ & _).
  exact (Hl 5 5 _ 2 eq_refl).
Defined.

Lemma blank_root_is_no_root_witness :
  blankTool revParse (sampleDirname samplePath) tt = (inr (lit "
"), tt)
  /\ trim (lit "
") = []
  /\ getLineHistory blankTool sampleDirname sampleRelative samplePath 3 5 (mkSys tt [])
     = (Throw notARepository, mkSys tt [mkCall revParse (lit "/repo")]).
Proof.
  assert (E : blankTool revParse (sampleDirname samplePath) (world (mkSys tt []))
              = (inr (lit "
"), tt)) by reflexivity.
  assert (B : trim (lit "
") = []) by reflexivity.
  split; [ exact E | split; [ exact B | ] ].
  destruct (blank_root_is_no_root unit blankTool sampleDirname sampleRelative samplePath
              (mkSys tt []) _ tt E B) as (_ & Hl & _).
  exact (Hl 3 5).
Defined.

Lemma provideHover_is_silent_witness :
  provideHover failingTool sampleDirname sampleRelative samplePath 4 (mkSys tt [])
  = (Ok None, mkSys tt [mkCall revParse (lit "/repo")])
  /\ exists hover : option str, Ok None = Ok hover.
Proof.
  assert (E : provideHover failingTool sampleDirname sampleRelative samplePath 4
                (mkSys tt [])
              = (Ok None, mkSys tt [mkCall revParse (lit "/repo")])) by reflexivity.
  split; [ exact E | ].
  exact (proj1 (provideHover_is_silent unit failingTool sampleDirname sampleRelative
                  samplePath 4 (mkSys tt []) _ _ E)).
Defined.

Lemma provideHover_shows_latest_witness :
  steadyTool revParse (sampleDirname samplePath) 0 = (inr (lit "/repo
"), 1)
  /\ steadyTool revParse (sampleDirname samplePath) 1 = (inr (lit "/repo
"), 2)
  /\ fst (provideHover steadyTool sampleDirname sampleRelative samplePath 4 (mkSys 0 []))
     = Ok (Some (hoverMarkdown
                   (mkCommit (lit "abc1234def") (lit "Jane") (lit "2 days ago")
                             (lit "Fix bug") (lit "main") []) 1)).
Proof.
  assert (E1 : steadyTool revParse (sampleDirname samplePath) (world (mkSys 0 []))
               = (inr (lit "/repo
"), 1)) by reflexivity.
  assert (E2 : steadyTool revParse (sampleDirname samplePath) 1
               = (inr (lit "/repo
"), 2)) by reflexivity.
  assert (T : truthy (trim (lit "/repo
")) = true) by reflexivity.
  split; [ exact E1 | split; [ exact E2 | ] ].
  destruct (provideHover_shows_latest nat steadyTool sampleDirname sampleRelative
              samplePath 4 (mkSys 0 []) _ 1 _ 2 _ 3
              (mkCommit (lit "abc1234def") (lit "Jane") (lit "2 days ago")
                        (lit "Fix bug") (lit "main") []) []
              E1 T E2 T eq_refl eq_refl) as [H _].
  rewrite H. reflexivity.
Defined.

Lemma lineHistoryCommand_outcome_witness :
  lineHistoryCommand failingTool sampleDirname sampleRelative sampleBasename
    (Some sampleEditor) (mkHost (mkSys tt []) [])
  = (Ok tt,
     mkHost (mkSys tt [mkCall revParse (lit "/repo")])
            [InformationMessage (lit "Searching git history...");
             ErrorMessage (lit "Error: Not a git repository")])
  /\ Ok tt = Ok tt.
Proof.
  assert (E : lineHistoryCommand failingTool sampleDirname sampleRelative sampleBasename
                (Some sampleEditor) (mkHost (mkSys tt []) [])
              = (Ok tt,
                 mkHost (mkSys tt [mkCall revParse (lit "/repo")])
                        [InformationMessage (lit "Searching git history...");
                         ErrorMessage (lit "Error: Not a git repository")]))
    by (vm_compute; reflexivity).
  split; [ exact E | ].
  exact (proj1 (lineHistoryCommand_outcome unit failingTool sampleDirname sampleRelative
                  sampleBasename (Some sampleEditor) (mkHost (mkSys tt []) []) _ _ E)).
Defined.

Lemma functionHistoryCommand_outcome_witness :
  functionHistoryCommand failingTool sampleDirname sampleRelative sampleBasename
    dismissed (Some sampleEditor) (mkHost (mkSys tt []) [])
  = (Ok tt, mkHost (mkSys tt []) [InputBox])
  /\ Ok tt = Ok tt.
Proof.
  assert (E : functionHistoryCommand failingTool sampleDirname sampleRelative
                sampleBasename dismissed (Some sampleEditor) (mkHost (mkSys tt []) [])
              = (Ok tt, mkHost (mkSys tt []) [InputBox]))
    by (vm_compute; reflexivity).
  split; [ exact E | ].
  exact (proj1 (functionHistoryCommand_outcome unit failingTool sampleDirname
                  sampleRelative sampleBasename dismissed (Some sampleEditor)
                  (mkHost (mkSys tt []) []) _ _ E)).
Defined.
